(** * MPD: the database query helpers (dbUtils.c) and the playlist
      metadata text format (PlaylistDatabase.cxx)

    A shallow embedding of the two source files and the properties of
    their specification.  C strings are [string]s, C [int]s and [long]s
    are [Z] with their range written out where the code depends on it,
    [malloc]ed memory is a pair of finite maps from addresses to
    contents, the text written to the client is a list of records. *)

From Stdlib Require Import ZArith List String Ascii Bool Lia.
From stdpp Require Import gmap strings list fin_maps.

Local Open Scope string_scope.
Local Open Scope Z_scope.

(** ** The C library functions the sources call *)

Module CStr.

Definition LF : ascii := ascii_of_nat 10.

Definition is_lower (c : ascii) : bool :=
  ((97 <=? N_of_ascii c) && (N_of_ascii c <=? 122))%N.

Definition is_upper (c : ascii) : bool :=
  ((65 <=? N_of_ascii c) && (N_of_ascii c <=? 90))%N.

(** [toupper] and [tolower] in the C locale. *)
Definition toupper (c : ascii) : ascii :=
  if is_lower c then ascii_of_N (N_of_ascii c - 32) else c.

Definition tolower (c : ascii) : ascii :=
  if is_upper c then ascii_of_N (N_of_ascii c + 32) else c.

(** [isspace] in the C locale: space, and 9 to 13. *)
Definition isspace (c : ascii) : bool :=
  ((N_of_ascii c =? 32) || ((9 <=? N_of_ascii c) && (N_of_ascii c <=? 13)))%N.

Fixpoint map_string (f : ascii -> ascii) (s : string) : string :=
  match s with
  | EmptyString => EmptyString
  | String c r => String (f c) (map_string f r)
  end.

(** [strcmp (s, t) == 0] *)
Definition strcmp_eq (s t : string) : bool := String.eqb s t.

(** [strcasecmp (s, t) == 0]: the two strings agree once lower-cased. *)
Definition strcasecmp_eq (s t : string) : bool :=
  String.eqb (map_string tolower s) (map_string tolower t).

(** [strstr (hay, needle) != NULL] *)
Fixpoint strstr (hay needle : string) : bool :=
  String.prefix needle hay ||
  match hay with
  | EmptyString => false
  | String _ r => strstr r needle
  end.

(** [strchr (s, c)], as the offset of the first [c] in [s]. *)
Fixpoint strchr (s : string) (c : ascii) : option nat :=
  match s with
  | EmptyString => None
  | String d r =>
      if Ascii.eqb d c then Some O
      else match strchr r c with
           | Some i => Some (S i)
           | None => None
           end
  end.

Fixpoint take (n : nat) (s : string) : string :=
  match n, s with
  | S m, String c r => String c (take m r)
  | _, _ => EmptyString
  end.

Fixpoint drop (n : nat) (s : string) : string :=
  match n, s with
  | S m, String _ r => drop m r
  | _, _ => s
  end.

Definition LONG_MAX : Z := 2 ^ 63 - 1.
Definition LONG_MIN : Z := - 2 ^ 63.

Definition clamp_long (z : Z) : Z := Z.max LONG_MIN (Z.min LONG_MAX z).

Definition digit_val (c : ascii) : option Z :=
  if ((48 <=? N_of_ascii c) && (N_of_ascii c <=? 57))%N
  then Some (Z.of_N (N_of_ascii c) - 48)
  else None.

Fixpoint skip_space (s : string) : string :=
  match s with
  | String c r => if isspace c then skip_space r else s
  | EmptyString => s
  end.

(** The digit loop of [strtol]: it stops at the first character that
    is not a decimal digit. *)
Fixpoint strtol_digits (s : string) (acc : Z) : Z :=
  match s with
  | String c r =>
      match digit_val c with
      | Some d => strtol_digits r (acc * 10 + d)
      | None => acc
      end
  | EmptyString => acc
  end.

(** [strtol (s, NULL, 10)]: white space, an optional sign, digits; a
    value out of the range of [long] is clamped to it, and a string
    without digits reads as 0. *)
Definition strtol (s : string) : Z :=
  match skip_space s with
  | String "-"%char r => clamp_long (- strtol_digits r 0)
  | String "+"%char r => clamp_long (strtol_digits r 0)
  | t => clamp_long (strtol_digits t 0)
  end.

Definition digit_char (d : Z) : ascii := ascii_of_N (48 + Z.to_N d).

Fixpoint format_digits (fuel : nat) (z : Z) : string :=
  match fuel with
  | O => EmptyString
  | S f =>
      if z <? 10 then String (digit_char z) EmptyString
      else format_digits f (z / 10) ++ String (digit_char (z mod 10)) EmptyString
  end.

(** [printf ("%li", z)] for a [long] [z], which has at most 19 digits. *)
Definition format_li (z : Z) : string :=
  if z <? 0 then String "-"%char (format_digits 20 (- z))
  else format_digits 20 z.

End CStr.

(** ** PlaylistDatabase.cxx *)

Module PlaylistDatabase.
Import CStr.

(** [std::chrono::system_clock], as the C++ library has it where [long]
    has 64 bits: a time point is a number of nanoseconds since the
    epoch, kept in a signed integer of 64 bits. *)
Definition ticks_per_second : Z := 1000000000.

Definition wrap_long (z : Z) : Z := (z + 2 ^ 63) mod 2 ^ 64 - 2 ^ 63.

(** [from_time_t]: the seconds are multiplied by the ticks of a second
    in the 64 bits of a time point, where the product wraps around. *)
Definition from_time_t (t : Z) : Z := wrap_long (t * ticks_per_second).

(** [to_time_t]: the whole seconds of a time point; the division
    rounds toward zero. *)
Definition to_time_t (tp : Z) : Z := Z.quot tp ticks_per_second.

(** Modelled from the spec: the record type [PlaylistInfo], declared in
    a header that is not part of the sources at hand: a name and a
    modification time.  The time is a time point of the system clock,
    in its ticks; a negative time is a time that is not set. *)
Record PlaylistInfo := mkPlaylistInfo { name : string; mtime : Z }.

Definition PlaylistVector := list PlaylistInfo.

(** Modelled from the spec: the time of a record that has just been
    constructed from a name is the least time point, which is not set. *)
Definition time_point_min : Z := - 2 ^ 63.

Definition new_PlaylistInfo (n : string) : PlaylistInfo :=
  {| name := n; mtime := time_point_min |}.

(** Modelled from the spec: [IsNegative] of util/ChronoUtil.hxx. *)
Definition IsNegative (t : Z) : bool := t <? 0.

(** Modelled from the spec: the fixed marker that begins a section; its
    definition is in PlaylistDatabase.hxx. *)
Definition PLAYLIST_META_BEGIN : string := "playlist_begin: ".

(** Modelled from the spec: [PlaylistVector::UpdateOrInsert]; a record
    whose name is present has its fields replaced, another one is added
    at the end. *)
Fixpoint UpdateOrInsert (pv : PlaylistVector) (pm : PlaylistInfo) : PlaylistVector :=
  match pv with
  | [] => [pm]
  | pi :: rest =>
      if String.eqb (name pi) (name pm)
      then {| name := name pi; mtime := mtime pm |} :: rest
      else pi :: UpdateOrInsert rest pm
  end.

(** Modelled from the spec: [StripLeft] of util/StringStrip.hxx, which
    drops the white space a string starts with. *)
Fixpoint StripLeft (s : string) : string :=
  match s with
  | String c r => if (N_of_ascii c <=? 32)%N then StripLeft r else s
  | EmptyString => s
  end.

Definition nl : string := String LF EmptyString.

(** What one round of the loop of [playlist_vector_save] writes. *)
Definition save_section (pi : PlaylistInfo) : string :=
  PLAYLIST_META_BEGIN ++ name pi ++ nl ++
  (if negb (IsNegative (mtime pi))
   then "mtime: " ++ format_li (to_time_t (mtime pi)) ++ nl
   else "") ++
  "playlist_end" ++ nl.

(** [playlist_vector_save]; [os] is the text the stream holds. *)
Fixpoint playlist_vector_save (os : string) (pv : PlaylistVector) : string :=
  match pv with
  | [] => os
  | pi :: rest => playlist_vector_save (os ++ save_section pi) rest
  end.

(** Modelled from the spec: the lines [TextFile::ReadLine] yields for a
    text, each line ended by a line feed. *)
Fixpoint read_lines (s : string) : list string :=
  match s with
  | EmptyString => []
  | String c r =>
      if Ascii.eqb c LF then EmptyString :: read_lines r
      else match read_lines r with
           | [] => [String c EmptyString]
           | l :: ls => String c l :: ls
           end
  end.

Inductive result (A : Type) : Type :=
| Ok (a : A)
| FormatRuntimeError (msg : string).
Arguments Ok {A} a.
Arguments FormatRuntimeError {A} msg.

(** The loop of [playlist_metadata_load]; [file] is the lines that are
    still to be read.  [*colon++ = 0] cuts the line at its colon, so
    that [line] is the key from then on. *)
Fixpoint load_lines (file : list string) (pm : PlaylistInfo)
  : result (list string * PlaylistInfo) :=
  match file with
  | [] => Ok ([], pm)
  | line :: file' =>
      if strcmp_eq line "playlist_end" then Ok (file', pm)
      else
        match strchr line ":"%char with
        | None => FormatRuntimeError ("unknown line in db: " ++ line)
        | Some O => FormatRuntimeError ("unknown line in db: " ++ line)
        | Some (S _ as colon) =>
            let value := StripLeft (drop (S colon) line) in
            let line := take colon line in
            if strcmp_eq line "mtime"
            then load_lines file'
                   {| name := name pm; mtime := from_time_t (strtol value) |}
            else FormatRuntimeError ("unknown line in db: " ++ line)
        end
  end.

Definition playlist_metadata_load (file : list string) (pv : PlaylistVector)
    (n : string) : result (list string * PlaylistVector) :=
  match load_lines file (new_PlaylistInfo n) with
  | Ok (file', pm) => Ok (file', UpdateOrInsert pv pm)
  | FormatRuntimeError msg => FormatRuntimeError msg
  end.

End PlaylistDatabase.

(** ** dbUtils.c *)

Module DbUtils.
Import CStr.

(** *** The catalog *)

(** Modelled from the spec: the item of a tag, of tag.h: a type and a
    text value. *)
Record MpdTagItem := mkItem { item_type : Z; item_value : string }.

(** Modelled from the spec: the tag of tag.h: its items in their order
    and a time in seconds, which is negative when it is not known. *)
Record MpdTag := mkTag { tag_items : list MpdTagItem; tag_time : Z }.

(** Modelled from the spec: the song of song.h: its URL and its tag, if
    it has one. *)
Record Song := mkSong { url : string; tag : option MpdTag }.

#[local] Set Warnings "-register-all".

(** Modelled from the spec: the directory of directory.h: its path,
    which the root has not, its songs and its sub-directories. *)
Inductive Directory : Type :=
| Dir (path : option string) (songs : list Song) (subDirectories : list Directory).

Definition path (d : Directory) : option string :=
  match d with Dir p _ _ => p end.

Definition songs (d : Directory) : list Song :=
  match d with Dir _ s _ => s end.

Definition subDirectories (d : Directory) : list Directory :=
  match d with Dir _ _ l => l end.

(** The table of tag names and the key of the song's file are defined in
    tag.c and song.h; the development is parametric in them.  The table
    has [TAG_NUM_OF_ITEM_TYPES] entries. *)
Class TagTable := mkTagTable { mpdTagItemKeys : list string; SONG_FILE : string }.

(** *** Memory, output and the monad of the operations *)

Definition NULL : N := 0%N.

(** Modelled from the spec: the [LocateTagItem] of dbUtils.h, a tag type
    and a needle, as it is in memory.  A field of a block that [xmalloc]
    has just returned holds no value yet ([None]); reading it is
    undefined. *)
Record LocateTagItem := mkLocate { tagType : option Z; needle : option N }.

Definition indeterminate : LocateTagItem := {| tagType := None; needle := None |}.

(** What the operations write to the client. *)
Inductive Output : Type :=
| OutText (s : string)
| OutSongUrl (s : Song)
| OutSongInfo (s : Song)
| OutVisited (type : Z) (value : string).

(** The state: the character buffers and the arrays of [LocateTagItem]
    on the heap, by address; the tag tracker; the text written. *)
Record World := mkWorld {
  strs : gmap N string;
  arrays : gmap N (list LocateTagItem);
  tracker : gmap Z (list string);
  out : list Output
}.

Definition set_strs (h : gmap N string) (w : World) : World :=
  {| strs := h; arrays := arrays w; tracker := tracker w; out := out w |}.

Definition set_arrays (h : gmap N (list LocateTagItem)) (w : World) : World :=
  {| strs := strs w; arrays := h; tracker := tracker w; out := out w |}.

Definition set_tracker (t : gmap Z (list string)) (w : World) : World :=
  {| strs := strs w; arrays := arrays w; tracker := t; out := out w |}.

Definition set_out (o : list Output) (w : World) : World :=
  {| strs := strs w; arrays := arrays w; tracker := tracker w; out := o |}.

(** A computation on a state [S]: [None] is undefined behaviour (a read
    of memory that was not allocated or not written, a [free] of a
    block that is not allocated). *)
Definition M (S A : Type) : Type := S -> option (A * S).

Definition ret {S A} (a : A) : M S A := fun s => Some (a, s).

Definition bind {S A B} (m : M S A) (k : A -> M S B) : M S B :=
  fun s => match m s with
           | Some (a, s') => k a s'
           | None => None
           end.

Definition undefined {S A} : M S A := fun _ => None.

Definition of_option {S A} (o : option A) : M S A :=
  fun s => match o with Some a => Some (a, s) | None => None end.

Definition gets {S A} (f : S -> A) : M S A := fun s => Some (f s, s).

Definition modify {S} (f : S -> S) : M S unit := fun s => Some (tt, f s).

Notation "'let*' x ':=' m 'in' k" := (bind m (fun x => k))
  (at level 10, x name, m at level 100, k at level 200).

Notation "m ';;' k" := (bind m (fun _ => k))
  (at level 100, k at level 200, right associativity).

(** An address that is not [NULL] and not in use. *)
Definition fresh_ptr (used : gset N) : N := fresh ({[NULL]} ∪ used).

Definition xstrdup (s : string) : M World N :=
  fun w => let p := fresh_ptr (dom (strs w)) in
           Some (p, set_strs (<[p := s]> (strs w)) w).

Definition read_str (p : N) : M World string :=
  fun w => match strs w !! p with
           | Some s => Some (s, w)
           | None => None
           end.

Definition free_str (p : N) : M World unit :=
  fun w => if (p =? NULL)%N then Some (tt, w)
           else match strs w !! p with
                | Some _ => Some (tt, set_strs (delete p (strs w)) w)
                | None => None
                end.

(** [xmalloc (sizeof (LocateTagItem) * n)] *)
Definition xmalloc_items (n : nat) : M World N :=
  fun w => let p := fresh_ptr (dom (arrays w)) in
           Some (p, set_arrays (<[p := replicate n indeterminate]> (arrays w)) w).

Definition free_items (p : N) : M World unit :=
  fun w => if (p =? NULL)%N then Some (tt, w)
           else match arrays w !! p with
                | Some _ => Some (tt, set_arrays (delete p (arrays w)) w)
                | None => None
                end.

Definition load_item (a : N) (i : nat) : M World LocateTagItem :=
  fun w => match arrays w !! a with
           | Some cells => match cells !! i with
                           | Some c => Some (c, w)
                           | None => None
                           end
           | None => None
           end.

Definition store_item (a : N) (i : nat) (c : LocateTagItem) : M World unit :=
  fun w => match arrays w !! a with
           | Some cells =>
               if decide (i < length cells)%nat
               then Some (tt, set_arrays (<[a := <[i := c]> cells]> (arrays w)) w)
               else None
           | None => None
           end.

(** [a[i].tagType] and [a[i].needle], read and written. *)
Definition load_tagType (a : N) (i : nat) : M World Z :=
  let* c := load_item a i in of_option (tagType c).

Definition load_needle (a : N) (i : nat) : M World N :=
  let* c := load_item a i in of_option (needle c).

Definition store_tagType (a : N) (i : nat) (t : Z) : M World unit :=
  let* c := load_item a i in
  store_item a i {| tagType := Some t; needle := needle c |}.

Definition store_needle (a : N) (i : nat) (p : N) : M World unit :=
  let* c := load_item a i in
  store_item a i {| tagType := tagType c; needle := Some p |}.

Definition emit (o : Output) : M World unit :=
  modify (fun w => set_out (out w ++ [o]) w).

Section WithTagTable.
Context {tbl : TagTable}.

Definition TAG_NUM_OF_ITEM_TYPES : Z := Z.of_nat (length mpdTagItemKeys).

Definition LOCATE_TAG_FILE_TYPE : Z := TAG_NUM_OF_ITEM_TYPES + 10.
Definition LOCATE_TAG_FILE_KEY : string := SONG_FILE.
Definition LOCATE_TAG_FILE_KEY_OLD : string := "filename".
Definition LOCATE_TAG_ANY_TYPE : Z := TAG_NUM_OF_ITEM_TYPES + 20.
Definition LOCATE_TAG_ANY_KEY : string := "any".

(** The loop of [getLocateTagItemType] over the table, from index [i]. *)
Fixpoint find_key (keys : list string) (str : string) (i : Z) : Z :=
  match keys with
  | [] => -1
  | k :: rest => if strcasecmp_eq str k then i else find_key rest str (i + 1)
  end.

Definition getLocateTagItemType (str : string) : Z :=
  if strcasecmp_eq str LOCATE_TAG_FILE_KEY || strcasecmp_eq str LOCATE_TAG_FILE_KEY_OLD
  then LOCATE_TAG_FILE_TYPE
  else if strcasecmp_eq str LOCATE_TAG_ANY_KEY
  then LOCATE_TAG_ANY_TYPE
  else find_key mpdTagItemKeys str 0.

(** *** The criterion set *)

(** [item] is the address [a + i]. *)
Definition initLocateTagItem (a : N) (i : nat) (typeStr needle : string) : M World Z :=
  store_tagType a i (getLocateTagItemType typeStr);;
  let* t := load_tagType a i in
  if t <? 0 then ret (-1)
  else
    let* p := xstrdup needle in
    store_needle a i p;;
    ret 0.

(** The loop of [freeLocateTagItemArray] and of the [fail] label:
    [free (array[j].needle)] for [k] items from [j]. *)
Fixpoint free_needles (a : N) (j k : nat) : M World unit :=
  match k with
  | O => ret tt
  | S k' =>
      let* p := load_needle a j in
      free_str p;;
      free_needles a (S j) k'
  end.

Definition freeLocateTagItemArray (count : Z) (array : N) : M World unit :=
  free_needles array 0 (Z.to_nat count);;
  free_items array.

(** The loop of [newLocateTagItemArrayFromArgArray], [k] rounds from
    [i]: it ends with [(true, i)] past the last pair, or with
    [(false, i)] at the pair [i] that made it [goto fail]. *)
Fixpoint init_items (argArray : list string) (a : N) (i k : nat) : M World (bool * nat) :=
  match k with
  | O => ret (true, i)
  | S k' =>
      let* typeStr := of_option (argArray !! (i * 2)%nat) in
      let* value := of_option (argArray !! (i * 2 + 1)%nat) in
      let* r := initLocateTagItem a i typeStr value in
      if r <? 0 then ret (false, i)
      else init_items argArray a (S i) k'
  end.

(** [arrayRet] is the value of [*arrayRet] at the call; the result is
    the value returned and the value of [*arrayRet] at the return.  A
    negative [numArgs] makes the size of the block overflow, on which
    [xmalloc] ends the process. *)
Definition newLocateTagItemArrayFromArgArray (argArray : list string) (numArgs : Z)
    (arrayRet : N) : M World (Z * N) :=
  if numArgs =? 0 then ret (0, arrayRet)
  else if negb (Z.rem numArgs 2 =? 0) then ret (-1, arrayRet)
  else if numArgs <? 0 then undefined
  else
    let* a := xmalloc_items (Z.to_nat (Z.quot numArgs 2)) in
    let* r := init_items argArray a 0 (Z.to_nat (Z.quot numArgs 2)) in
    if fst r then ret (Z.quot numArgs 2, a)
    else
      free_needles a 0 (snd r);;
      free_items a;;
      ret (-1, NULL).

(** *** The two matchers *)

(** Modelled from the spec: [getSongUrl] of song.c. *)
Definition getSongUrl (song : Song) : string := url song.

(** Modelled from the spec: [strDupToUpper] of utils.c, the upper-case
    copy of a string. *)
Definition strDupToUpper (s : string) : string := map_string toupper s.

(** The loop of [strstrSearchTag] over the items of a tag; it is
    entered with [ret == 0] and left as soon as [ret] is set. *)
Fixpoint strstr_items (items : list MpdTagItem) (type : Z) (str : string) : bool :=
  match items with
  | [] => false
  | it :: rest =>
      if negb (type =? LOCATE_TAG_ANY_TYPE) && negb (item_type it =? type)
      then strstr_items rest type str
      else if strstr (strDupToUpper (item_value it)) str then true
      else strstr_items rest type str
  end.

Definition strstrSearchTag (song : Song) (type : Z) (str : string) : bool :=
  let in_tag :=
    match tag song with
    | None => false
    | Some t => strstr_items (tag_items t) type str
    end in
  if (type =? LOCATE_TAG_FILE_TYPE) || (type =? LOCATE_TAG_ANY_TYPE) then
    let ret := strstr (strDupToUpper (getSongUrl song)) str in
    if ret || (type =? LOCATE_TAG_FILE_TYPE) then ret else in_tag
  else in_tag.

(** The loop of [tagItemFoundAndMatches] over the items of a tag. *)
Fixpoint matches_items (items : list MpdTagItem) (type : Z) (str : string) : bool :=
  match items with
  | [] => false
  | it :: rest =>
      if negb (type =? LOCATE_TAG_ANY_TYPE) && negb (item_type it =? type)
      then matches_items rest type str
      else if strcmp_eq str (item_value it) then true
      else matches_items rest type str
  end.

Definition tagItemFoundAndMatches (song : Song) (type : Z) (str : string) : bool :=
  let in_tag :=
    match tag song with
    | None => false
    | Some t => matches_items (tag_items t) type str
    end in
  if (type =? LOCATE_TAG_FILE_TYPE) || (type =? LOCATE_TAG_ANY_TYPE) then
    if strcmp_eq str (getSongUrl song) then true
    else if type =? LOCATE_TAG_FILE_TYPE then false
    else in_tag
  else in_tag.

(** The loop that [searchInDirectory], [findInDirectory] and
    [listUniqueTagsInDirectory] run over the [k] criteria from [i] of
    the array at [items]: [false] at the first criterion the song does
    not match, [true] past the last one. *)
Fixpoint all_match (matcher : Song -> Z -> string -> bool) (items : N) (song : Song)
    (i k : nat) : M World bool :=
  match k with
  | O => ret true
  | S k' =>
      let* type := load_tagType items i in
      let* p := load_needle items i in
      let* str := read_str p in
      if negb (matcher song type str) then ret false
      else all_match matcher items song (S i) k'
  end.

(** *** The traversal *)

Definition DirectoryNotFound : Z := -1.

(** Modelled from the spec: [getDirectory] of directory.c; no name is
    the root of the catalog [db], a name is the path of a directory. *)
Fixpoint find_directory (name : string) (d : Directory) : option Directory :=
  match d with
  | Dir p _ subs =>
      if decide (p = Some name) then Some d
      else (fix among (l : list Directory) : option Directory :=
              match l with
              | [] => None
              | d' :: rest =>
                  match find_directory name d' with
                  | Some found => Some found
                  | None => among rest
                  end
              end) subs
  end.

Definition lookupDirectory (db : Directory) (name : option string) : option Directory :=
  match name with
  | None => Some db
  | Some n => find_directory n db
  end.

Definition call {S A} (visitor : option (A -> M S Z)) (a : A) : M S Z :=
  match visitor with
  | Some f => f a
  | None => ret 0
  end.

Fixpoint for_each {S A} (f : A -> M S Z) (l : list A) : M S unit :=
  match l with
  | [] => ret tt
  | a :: rest => f a;; for_each f rest
  end.

(** Modelled from the spec: the walk of directory.c below a directory,
    depth first: the directory, then its songs, then its
    sub-directories, in the order of the catalog.  Either visitor may
    be absent; every directory and every song is visited once, whatever
    the visitors return, and the walk returns 0.  The root is handed to
    the visitor of directories like any directory: the visitors of
    dbUtils.c are the ones that test whether it has a path. *)
Fixpoint traverseAllInSubDirectory {S} (forEachSong : option (Song -> M S Z))
    (forEachDir : option (Directory -> M S Z)) (d : Directory) : M S Z :=
  match d with
  | Dir _ ss subs =>
      call forEachDir d;;
      for_each (call forEachSong) ss;;
      (fix below (l : list Directory) : M S Z :=
         match l with
         | [] => ret 0
         | d' :: rest =>
             traverseAllInSubDirectory forEachSong forEachDir d';;
             below rest
         end) subs
  end.

(** Modelled from the spec: [traverseAllIn] of directory.c; a name that
    is no directory of the catalog is reported without a visit. *)
Definition traverseAllIn {S} (db : Directory) (name : option string)
    (forEachSong : option (Song -> M S Z))
    (forEachDir : option (Directory -> M S Z)) : M S Z :=
  match lookupDirectory db name with
  | None => ret DirectoryNotFound
  | Some d => traverseAllInSubDirectory forEachSong forEachDir d
  end.

(** *** The operations *)

(** Modelled from the spec: [printSongUrl] and [printSongInfo] of
    song.c write the record of a song. *)
Definition printSongUrl (song : Song) : M World unit := emit (OutSongUrl song).

Definition printSongInfo (song : Song) : M World Z := emit (OutSongInfo song);; ret 0.

(** A computation that has a local variable of type [D], which [data]
    points to, besides the world. *)
Definition with_local {D A} (init : D) (m : M (World * D) A) : M World (A * D) :=
  fun w => match m (w, init) with
           | Some (a, (w', d)) => Some ((a, d), w')
           | None => None
           end.

Definition wrap_int (z : Z) : Z := (z + 2 ^ 31) mod 2 ^ 32 - 2 ^ 31.
Definition wrap_ulong (z : Z) : Z := z mod 2 ^ 64.
Definition sint8 (z : Z) : Z := (z + 128) mod 256 - 128.

Definition countSongsInDirectory (directory : Directory) : M (World * Z) Z :=
  modify (fun s => (fst s, wrap_int (snd s + Z.of_nat (length (songs directory)))));;
  ret 0.

Definition printDirectoryInDirectory (directory : Directory) : M World Z :=
  match path directory with
  | Some p => emit (OutText ("directory: " ++ p ++ String LF EmptyString));; ret 0
  | None => ret 0
  end.

Definition printSongInDirectory (song : Song) : M World Z :=
  printSongUrl song;; ret 0.

Definition searchInDirectory (numItems : Z) (items : N) (song : Song) : M World Z :=
  let* all := all_match strstrSearchTag items song 0 (Z.to_nat numItems) in
  if all then printSongInfo song;; ret 0 else ret 0.

(** The first loop of [searchForSongsIn], [k] rounds from [i];
    [originalNeedles] is the local array, filled up to [i].  Its block
    is allocated before this loop and freed after the second one; it is
    kept here as a list apart from the memory of the world, which
    supposes that [xmalloc] returns a block, also for no item. *)
Fixpoint upper_needles (items : N) (i k : nat) (originalNeedles : list N)
  : M World (list N) :=
  match k with
  | O => ret originalNeedles
  | S k' =>
      let* p := load_needle items i in
      let* s := read_str p in
      let* q := xstrdup (strDupToUpper s) in
      store_needle items i q;;
      upper_needles items (S i) k' (originalNeedles ++ [p])
  end.

(** The second loop of [searchForSongsIn]. *)
Fixpoint restore_needles (items : N) (i k : nat) (originalNeedles : list N)
  : M World unit :=
  match k with
  | O => ret tt
  | S k' =>
      let* q := load_needle items i in
      free_str q;;
      let* p := of_option (originalNeedles !! i) in
      store_needle items i p;;
      restore_needles items (S i) k' originalNeedles
  end.

Definition searchForSongsIn (db : Directory) (name : option string) (numItems : Z)
    (items : N) : M World Z :=
  let* originalNeedles := upper_needles items 0 (Z.to_nat numItems) [] in
  let* ret_ := traverseAllIn db name (Some (searchInDirectory numItems items)) None in
  restore_needles items 0 (Z.to_nat numItems) originalNeedles;;
  ret ret_.

Definition findInDirectory (numItems : Z) (items : N) (song : Song) : M World Z :=
  let* all := all_match tagItemFoundAndMatches items song 0 (Z.to_nat numItems) in
  if all then printSongInfo song;; ret 0 else ret 0.

Definition findSongsIn (db : Directory) (name : option string) (numItems : Z)
    (items : N) : M World Z :=
  traverseAllIn db name (Some (findInDirectory numItems items)) None.

Definition printAllIn (db : Directory) (name : option string) : M World Z :=
  traverseAllIn db name (Some printSongInDirectory) (Some printDirectoryInDirectory).

(** [addSongToPlaylist] and [addSongToStoredPlaylist] belong to the
    playlist; the two operations take them as arguments. *)
Definition addAllIn (addSongToPlaylist : Song -> Z -> M World Z)
    (db : Directory) (name : option string) : M World Z :=
  traverseAllIn db name (Some (fun song => addSongToPlaylist song 0)) None.

Definition addAllInToStoredPlaylist (addSongToStoredPlaylist : Song -> string -> M World Z)
    (db : Directory) (name : option string) (utf8file : string) : M World Z :=
  traverseAllIn db name (Some (fun song => addSongToStoredPlaylist song utf8file)) None.

Definition directoryPrintSongInfo (song : Song) : M World Z := printSongInfo song.

Definition sumSongTime (song : Song) : M (World * Z) Z :=
  match tag song with
  | Some t =>
      if 0 <=? tag_time t
      then modify (fun s => (fst s, wrap_ulong (snd s + tag_time t)));; ret 0
      else ret 0
  | None => ret 0
  end.

Definition printInfoForAllIn (db : Directory) (name : option string) : M World Z :=
  traverseAllIn db name (Some directoryPrintSongInfo) (Some printDirectoryInDirectory).

Definition countSongsIn (db : Directory) (name : option string) : M World Z :=
  let* r := with_local 0 (traverseAllIn db name None (Some countSongsInDirectory)) in
  ret (snd r).

Definition sumSongTimesIn (db : Directory) (name : option string) : M World Z :=
  let* r := with_local 0 (traverseAllIn db name (Some sumSongTime) None) in
  ret (snd r).

(** *** The list of the values of a tag *)

(** [tagType] is an [mpd_sint8]. *)
Record ListCommandItem := mkListCommandItem {
  lci_tagType : Z;
  numConditionals : Z;
  conditionals : N
}.

Definition newListCommandItem (tagType numConditionals : Z) (conditionals : N)
  : ListCommandItem :=
  {| lci_tagType := sint8 tagType;
     numConditionals := numConditionals;
     conditionals := conditionals |}.

(** The values the tracker holds as visited for a type, the first one
    visited first. *)
Definition visited (w : World) (type : Z) : list string :=
  default [] (tracker w !! type).

(** Modelled from the spec: the three functions of tagTracker.c behind
    the collector of distinct values: the values of a type are reset,
    a value is recorded unless it has been, and the values recorded are
    written in the order in which they were first seen, after which
    the collector holds none. *)
Definition resetVisitedFlagsInTagTracker (type : Z) : M World unit :=
  modify (fun w => set_tracker (<[type := []]> (tracker w)) w).

Definition visitInTagTracker (type : Z) (value : string) : M World unit :=
  modify (fun w =>
    if decide (value ∈ visited w type) then w
    else set_tracker (<[type := (visited w type ++ [value])%list]> (tracker w)) w).

Definition printVisitedInTagTracker (type : Z) : M World unit :=
  modify (fun w =>
    set_tracker (delete type (tracker w))
      (set_out (out w ++ map (OutVisited type) (visited w type)) w)).

(** The loop of [visitTag]. *)
Fixpoint visit_items (items : list MpdTagItem) (tagType : Z) : M World unit :=
  match items with
  | [] => ret tt
  | it :: rest =>
      (if item_type it =? tagType
       then visitInTagTracker tagType (item_value it)
       else ret tt);;
      visit_items rest tagType
  end.

Definition visitTag (song : Song) (tagType : Z) : M World unit :=
  if tagType =? LOCATE_TAG_FILE_TYPE then printSongUrl song
  else
    match tag song with
    | None => ret tt
    | Some t => visit_items (tag_items t) tagType
    end.

Definition listUniqueTagsInDirectory (item : ListCommandItem) (song : Song) : M World Z :=
  let* all := all_match tagItemFoundAndMatches (conditionals item) song 0
                (Z.to_nat (numConditionals item)) in
  if all then visitTag song (lci_tagType item);; ret 0 else ret 0.

Definition listAllUniqueTags (db : Directory) (type numConditionals : Z)
    (conditionals : N) : M World Z :=
  let item := newListCommandItem type numConditionals conditionals in
  (if (0 <=? type) && (type <=? TAG_NUM_OF_ITEM_TYPES)
   then resetVisitedFlagsInTagTracker type
   else ret tt);;
  let* ret_ := traverseAllIn db None (Some (listUniqueTagsInDirectory item)) None in
  (if (0 <=? type) && (type <=? TAG_NUM_OF_ITEM_TYPES)
   then printVisitedInTagTracker type
   else ret tt);;
  ret ret_.

(** *** A single item *)

(** [newLocateTagItem]; the result is the item, or [NULL]. *)
Definition newLocateTagItem (typeStr needle : string) : M World N :=
  let* ret_ := xmalloc_items 1 in
  let* r := initLocateTagItem ret_ 0 typeStr needle in
  if r <? 0 then free_items ret_;; ret NULL
  else ret ret_.

Definition freeLocateTagItem (item : N) : M World unit :=
  let* p := load_needle item 0 in
  free_str p;;
  free_items item.

(** *** The memory saved by the file names *)

(** [sizeof_ptr] is [sizeof (Directory * )], and [size_t] is the
    [unsigned long] of 64 bits.  [*sum += e] with an [unsigned long]
    [e] adds in [unsigned long] and converts the sum to [int]. *)
Definition add_to_int (sum e : Z) : Z := wrap_int (wrap_ulong (wrap_ulong sum + e)).

Definition sumSavedFilenameMemoryInDirectory (sizeof_ptr : Z) (dir : Directory)
  : M (World * Z) Z :=
  match path dir with
  | None => ret 0
  | Some p =>
      modify (fun s =>
        (fst s,
         add_to_int (snd s)
           (wrap_ulong (wrap_ulong (Z.of_nat (String.length p) + 1 - sizeof_ptr)
                        * wrap_ulong (Z.of_nat (length (songs dir)))))));;
      ret 0
  end.

(** [song->url], which this visitor reads, is the field of the song
    that holds its name in its directory; the URL that [getSongUrl]
    returns, which is what the catalog above keeps of a song, is made
    of that name and the path of the directory.  The field is the
    function [song_url]. *)
Definition sumSavedFilenameMemoryInSong (song_url : Song -> string) (song : Song)
  : M (World * Z) Z :=
  modify (fun s =>
    (fst s,
     add_to_int (snd s) (wrap_ulong (Z.of_nat (String.length (song_url song)) + 1))));;
  ret 0.

(** [printSavedMemoryFromFilenames]; the result is the number that is
    handed to [DEBUG]. *)
Definition printSavedMemoryFromFilenames (sizeof_ptr : Z) (song_url : Song -> string)
    (db : Directory) : M World Z :=
  let* r := with_local 0
              (traverseAllIn db None (Some (sumSavedFilenameMemoryInSong song_url))
                 (Some (sumSavedFilenameMemoryInDirectory sizeof_ptr))) in
  ret (snd r).

End WithTagTable.
End DbUtils.

(** * The vocabulary of the properties *)

Section Vocabulary.
Import CStr DbUtils.
Context {tbl : TagTable}.

(** A string of decimal digits. *)
Fixpoint all_digits (s : string) : bool :=
  match s with
  | EmptyString => true
  | String c r => match digit_val c with Some _ => all_digits r | None => false end
  end.

(** A string without a line feed. *)
Fixpoint no_lf (s : string) : bool :=
  match s with
  | EmptyString => true
  | String c r => negb (Ascii.eqb c LF) && no_lf r
  end.

(** Freeing a list of buffers, one after the other. *)
Definition delete_all (qs : list N) (h : gmap N string) : gmap N string :=
  fold_left (fun h q => delete q h) qs h.

(** The tokens of a list of (key, value) pairs, as the argument array
    holds them. *)
Fixpoint tokens (pairs : list (string * string)) : list string :=
  match pairs with
  | [] => []
  | (key, value) :: rest => key :: value :: tokens rest
  end.

(** The pair [i] of the argument array is [key] and [value]. *)
Definition pair_at (argArray : list string) (i : nat) (key value : string) : Prop :=
  argArray !! (i * 2)%nat = Some key /\ argArray !! (i * 2 + 1)%nat = Some value.

(** Induction on a directory, with the property for its
    sub-directories. *)
Fixpoint Directory_nested_ind (P : Directory -> Prop)
    (step : forall p ss subs, Forall P subs -> P (Dir p ss subs))
    (d : Directory) : P d :=
  match d with
  | Dir p ss subs =>
      step p ss subs
        ((fix all (l : list Directory) : Forall P l :=
            match l with
            | [] => @List.Forall_nil _ P
            | d' :: rest =>
                @List.Forall_cons _ P d' rest (Directory_nested_ind P step d') (all rest)
            end) subs)
  end.

(** The songs below a directory, in the order of the walk. *)
Fixpoint all_songs (d : Directory) : list Song :=
  match d with
  | Dir _ ss subs =>
      (ss ++ (fix below (l : list Directory) : list Song :=
                match l with
                | [] => []
                | d' :: rest => all_songs d' ++ below rest
                end) subs)%list
  end.

(** The songs a walk from [name] visits. *)
Definition songs_under (db : Directory) (name : option string) : list Song :=
  match lookupDirectory db name with
  | Some d => all_songs d
  | None => []
  end.

(** What a walk from [name] returns, with visitors that do not fail. *)
Definition walk_result (db : Directory) (name : option string) : Z :=
  match lookupDirectory db name with
  | Some _ => 0
  | None => DirectoryNotFound
  end.

(** The array at [items] holds, from index [i], the criteria [crit]:
    their types, and needles that point to their strings.  Nothing is
    asked of [items] when there is no criterion. *)
Definition criteria_from (w : World) (items : N) (i : nat) (crit : list (Z * string)) : Prop :=
  forall m t s, crit !! m = Some (t, s) ->
    exists cells p,
      arrays w !! items = Some cells /\
      cells !! (i + m)%nat = Some (mkLocate (Some t) (Some p)) /\
      strs w !! p = Some s.

Definition criteria_at (w : World) (items : N) (crit : list (Z * string)) : Prop :=
  criteria_from w items 0 crit.

(** The song passes every criterion, by a matcher. *)
Definition matches_all (matcher : Song -> Z -> string -> bool) (crit : list (Z * string))
    (song : Song) : bool :=
  forallb (fun c => matcher song c.1 c.2) crit.

(** The test of [find] and the test of [search], whose needles are the
    upper-case copies. *)
Definition find_matches (crit : list (Z * string)) (song : Song) : bool :=
  matches_all tagItemFoundAndMatches crit song.

Definition upper_criteria (crit : list (Z * string)) : list (Z * string) :=
  map (fun c => (c.1, strDupToUpper c.2)) crit.

Definition search_matches (crit : list (Z * string)) (song : Song) : bool :=
  matches_all strstrSearchTag (upper_criteria crit) song.

(** The effect of a visitor that writes a record when a test holds. *)
Definition emit_if (b : bool) (o : Output) (w : World) : World :=
  if b then set_out (out w ++ [o]) w else w.

(** The values of the items of a type that a song carries, in the
    order of its tag. *)
Definition song_values (type : Z) (song : Song) : list string :=
  match tag song with
  | None => []
  | Some t => map item_value (List.filter (fun it => item_type it =? type) (tag_items t))
  end.

(** The values of a list in the order in which they are first seen:
    a value is kept unless it has been seen. *)
Fixpoint first_seen (seen : gset string) (vs : list string) : list string :=
  match vs with
  | [] => []
  | v :: rest =>
      if decide (v ∈ seen) then first_seen seen rest
      else v :: first_seen ({[v]} ∪ seen) rest
  end.

(** The effect of [visitInTagTracker] on the world. *)
Definition record_value (type : Z) (w : World) (value : string) : World :=
  if decide (value ∈ visited w type) then w
  else set_tracker (<[type := (visited w type ++ [value])%list]> (tracker w)) w.

(** The effect of the visitor of the list on the world, for a type
    that is not [FILE]: the values of a song that matches are
    recorded. *)
Definition record_song (type : Z) (crit : list (Z * string)) (song : Song) (w : World)
  : World :=
  if find_matches crit song
  then fold_left (record_value type) (song_values type song) w
  else w.

(** The values that the list of a type writes: the values of that
    type of the songs that match, in the order of the walk. *)
Definition listed_values (db : Directory) (type : Z) (crit : list (Z * string))
  : list string :=
  flat_map (song_values type) (List.filter (find_matches crit) (all_songs db)).

(** *** The visits of a walk *)

(** The visits of a walk below a directory, in their order: the
    directory, its songs, then the visits below its sub-directories. *)
Fixpoint walk_visits (d : Directory) : list (Directory + Song) :=
  match d with
  | Dir _ ss subs =>
      (inl d :: map inr ss ++
       (fix below (l : list Directory) : list (Directory + Song) :=
          match l with
          | [] => []
          | d' :: rest => walk_visits d' ++ below rest
          end) subs)%list
  end.

Definition visits_under (db : Directory) (name : option string) : list (Directory + Song) :=
  match lookupDirectory db name with
  | Some d => walk_visits d
  | None => []
  end.

(** The effect of one visit, by the effects of the two visitors. *)
Definition visit {S} (gd : Directory -> S -> S) (gs : Song -> S -> S) (st : S)
    (e : Directory + Song) : S :=
  match e with
  | inl d => gd d st
  | inr s => gs s st
  end.

(** The directories and the songs among the visits, in their order. *)
Definition directories_of (visits : list (Directory + Song)) : list Directory :=
  omap (fun e => match e with inl d => Some d | inr _ => None end) visits.

Definition songs_of (visits : list (Directory + Song)) : list Song :=
  omap (fun e => match e with inl _ => None | inr s => Some s end) visits.

(** The time of a song that counts in a sum: the time of its tag when
    it is known. *)
Definition known_time (song : Song) : Z :=
  match tag song with
  | Some t => if 0 <=? tag_time t then tag_time t else 0
  | None => 0
  end.

Definition sum_Z (l : list Z) : Z := fold_right Z.add 0 l.

(** The line of a directory in a listing; the root has none. *)
Definition directory_line (d : Directory) : list Output :=
  match path d with
  | Some p => [OutText ("directory: " ++ p ++ String LF EmptyString)]
  | None => []
  end.

(** The listing of a walk: the line of each directory and the record
    of each song, in the order of the visits. *)
Definition listing (record : Song -> Output) (visits : list (Directory + Song))
  : list Output :=
  flat_map (fun e => match e with
                     | inl d => directory_line d
                     | inr s => [record s]
                     end) visits.

(** The listing of a directory: its line, the records of its songs,
    then the listings of its sub-directories. *)
Fixpoint listing_of (record : Song -> Output) (d : Directory) : list Output :=
  match d with
  | Dir _ ss subs =>
      (directory_line d ++ map record ss ++
       (fix below (l : list Directory) : list Output :=
          match l with
          | [] => []
          | d' :: rest => listing_of record d' ++ below rest
          end) subs)%list
  end.

Definition listing_under (record : Song -> Output) (db : Directory) (name : option string)
  : list Output :=
  match lookupDirectory db name with
  | Some d => listing_of record d
  | None => []
  end.

(** The records of songs among what has been written. *)
Definition song_records (o : list Output) : list Song :=
  omap (fun x => match x with
                 | OutSongUrl s => Some s
                 | OutSongInfo s => Some s
                 | _ => None
                 end) o.

(** What a directory and a song add to the memory saved by the file
    names: for each song of a directory with a path, the path and its
    end less a pointer; for a song, its name in its directory and the
    end of the name. *)
Definition saved_by_directory (sizeof_ptr : Z) (d : Directory) : Z :=
  match path d with
  | Some p => (Z.of_nat (String.length p) + 1 - sizeof_ptr) * Z.of_nat (length (songs d))
  | None => 0
  end.

Definition saved_by_song (song_url : Song -> string) (s : Song) : Z :=
  Z.of_nat (String.length (song_url s)) + 1.

(** The directories below a directory, itself first, in the order of
    the walk. *)
Definition all_directories (d : Directory) : list Directory :=
  directories_of (walk_visits d).

(** *** Substrings *)

(** [needle] occurs in [hay]. *)
Definition occurs_in (needle hay : string) : Prop :=
  exists before after : string, hay = before ++ needle ++ after.

(** *** The criteria of a command *)

(** The criteria that a list of (key, value) pairs stands for: the
    type of each key with the value. *)
Definition resolved_criteria (pairs : list (string * string)) : list (Z * string) :=
  map (fun p => (getLocateTagItemType p.1, p.2)) pairs.

End Vocabulary.

(** ** The lines of a section of the playlist metadata *)

Section PlaylistVocabulary.
Import CStr PlaylistDatabase.

(** The lines of a section: the lines that come before the first line
    [playlist_end], or all of them when there is none. *)
Fixpoint section_lines (file : list string) : list string :=
  match file with
  | [] => []
  | line :: rest =>
      if strcmp_eq line "playlist_end" then [] else line :: section_lines rest
  end.

(** The lines that follow the first line [playlist_end]. *)
Fixpoint after_section (file : list string) : list string :=
  match file with
  | [] => []
  | line :: rest =>
      if strcmp_eq line "playlist_end" then rest else after_section rest
  end.

(** A line whose key is [mtime], and the time it gives. *)
Definition is_mtime_line (line : string) : bool := String.prefix "mtime:" line.

Definition mtime_of_line (line : string) : Z :=
  from_time_t (strtol (StripLeft (drop 6 line))).

(** The time after the lines of a section, from the time [init]: the
    time of the last line. *)
Definition last_mtime (init : Z) (lines : list string) : Z :=
  fold_left (fun _ line => mtime_of_line line) lines init.

(** What the message of a failure names of a line: the line, or its
    key when the line has a colon that is not its first character. *)
Definition named_part (line : string) : string :=
  match strchr line ":"%char with
  | Some (S colon) => take (S colon) line
  | _ => line
  end.

(** A text in which [strtol] finds no number: after its white space
    it is empty, or starts with a character that is no digit and no
    sign. *)
Definition no_number (v : string) : bool :=
  match StripLeft v with
  | EmptyString => true
  | String c _ =>
      match digit_val c with
      | Some _ => false
      | None => negb (Ascii.eqb c "-"%char) && negb (Ascii.eqb c "+"%char)
      end
  end.

End PlaylistVocabulary.

(** ** Examples *)

(** A table of three tags and an empty world, for the examples. *)
Definition sample_table : DbUtils.TagTable :=
  {| DbUtils.mpdTagItemKeys := ["Artist"; "Album"; "Title"];
     DbUtils.SONG_FILE := "file" |}.

Definition empty_world : DbUtils.World :=
  {| DbUtils.strs := ∅; DbUtils.arrays := ∅; DbUtils.tracker := ∅; DbUtils.out := [] |}.

(** A catalog for the examples: the directory [rock] with a song that
    has a tag and a song that has none. *)
Definition sample_song_a : DbUtils.Song :=
  {| DbUtils.url := "rock/a.mp3";
     DbUtils.tag := Some {| DbUtils.tag_items := [DbUtils.mkItem 0 "AC/DC"];
                            DbUtils.tag_time := 180 |} |}.

Definition sample_song_b : DbUtils.Song :=
  {| DbUtils.url := "rock/b.mp3"; DbUtils.tag := None |}.

Definition sample_db : DbUtils.Directory :=
  DbUtils.Dir None [] [DbUtils.Dir (Some "rock") [sample_song_a; sample_song_b] []].

(** The names of the two songs in their directory [rock]: [a.mp3] and
    [b.mp3]. *)
Definition sample_song_url (song : DbUtils.Song) : string :=
  CStr.drop 5 (DbUtils.url song).

(** A world whose memory holds the criterion (artist, "ac") at address 1. *)
Definition sample_world : DbUtils.World :=
  {| DbUtils.strs := {[ 1%N := "ac" ]};
     DbUtils.arrays := {[ 1%N := [DbUtils.mkLocate (Some 0) (Some 1%N)] ]};
     DbUtils.tracker := ∅;
     DbUtils.out := [] |}.

(** A world whose collector for the code 3 holds a value of an earlier
    list. *)
Definition stale_world : DbUtils.World :=
  DbUtils.set_tracker {[ 3 := ["stale"] ]} empty_world.

(** A world whose memory holds four criterion sets for the sample
    table, whose [FILE] code is 13: (artist, "AC/DC") and
    (file, "rock/a.mp3") at address 1, the two in the other order at
    address 2, (artist, "ac/dc") at address 3 and (artist, "AC/DC") at
    address 4. *)
Definition criteria_world : DbUtils.World :=
  {| DbUtils.strs := {[ 1%N := "AC/DC"; 2%N := "rock/a.mp3"; 3%N := "ac/dc" ]};
     DbUtils.arrays :=
       {[ 1%N := [DbUtils.mkLocate (Some 0) (Some 1%N); DbUtils.mkLocate (Some 13) (Some 2%N)];
          2%N := [DbUtils.mkLocate (Some 13) (Some 2%N); DbUtils.mkLocate (Some 0) (Some 1%N)];
          3%N := [DbUtils.mkLocate (Some 0) (Some 3%N)];
          4%N := [DbUtils.mkLocate (Some 0) (Some 1%N)] ]};
     DbUtils.tracker := ∅;
     DbUtils.out := [] |}.
(** * Properties *)

#[local] Arguments String.append !_ _ / : simpl nomatch.

(** ** The C library functions *)

Lemma digit_cases (d : Z) :
  0 <= d < 10 ->
  d = 0 \/ d = 1 \/ d = 2 \/ d = 3 \/ d = 4 \/ d = 5 \/ d = 6 \/ d = 7 \/ d = 8 \/ d = 9.
Proof. lia. Qed.

Ltac each_digit d H :=
  destruct (digit_cases d H) as [-> | [-> | [-> | [-> | [-> | [-> | [-> | [-> | [-> | ->]]]]]]]]].

Section CStrFacts.
Import CStr.

Lemma append_assoc (a b c : string) : (a ++ b) ++ c = a ++ b ++ c.
Proof. induction a as [|x a IH]; simpl; [reflexivity | f_equal; exact IH]. Qed.

Lemma take_append (a b : string) : take (String.length a) (a ++ b) = a.
Proof. induction a as [|x a IH]; simpl; [now destruct b | f_equal; exact IH]. Qed.

Lemma drop_append (a b : string) : drop (String.length a) (a ++ b) = b.
Proof. induction a as [|x a IH]; simpl; [now destruct b | exact IH]. Qed.

Lemma digit_val_digit_char (d : Z) : 0 <= d < 10 -> digit_val (digit_char d) = Some d.
Proof. intros H. each_digit d H; reflexivity. Qed.

Lemma digit_char_no_lf (d : Z) : 0 <= d < 10 -> Ascii.eqb (digit_char d) LF = false.
Proof. intros H. each_digit d H; reflexivity. Qed.

Lemma all_digits_app (s t : string) :
  all_digits s = true -> all_digits t = true -> all_digits (s ++ t) = true.
Proof.
  induction s as [|c s IH]; simpl; intros Hs Ht; [exact Ht |].
  destruct (digit_val c); [auto | discriminate].
Qed.

Lemma format_digits_all_digits (fuel : nat) :
  forall z, 0 <= z -> all_digits (format_digits fuel z) = true.
Proof.
  induction fuel as [|f IH]; intros z Hz; simpl; [reflexivity |].
  destruct (Z.ltb_spec z 10) as [Hlt | Hge].
  - simpl. rewrite digit_val_digit_char by lia. reflexivity.
  - apply all_digits_app.
    + apply IH. apply Z.div_pos; lia.
    + simpl. rewrite digit_val_digit_char; [reflexivity |].
      apply Z.mod_pos_bound; lia.
Qed.

Lemma strtol_digits_app (s t : string) :
  all_digits s = true ->
  forall acc, strtol_digits (s ++ t) acc = strtol_digits t (strtol_digits s acc).
Proof.
  induction s as [|c s IH]; simpl; intros Hs acc; [reflexivity |].
  destruct (digit_val c); [now apply IH | discriminate].
Qed.

(** Reading the digits that [format_digits] wrote gives the number. *)
Lemma strtol_digits_format (fuel : nat) :
  forall z, 0 <= z < 10 ^ Z.of_nat fuel -> strtol_digits (format_digits fuel z) 0 = z.
Proof.
  induction fuel as [|f IH]; intros z Hz.
  - change (10 ^ Z.of_nat 0) with 1 in Hz. simpl. lia.
  - simpl format_digits.
    destruct (Z.ltb_spec z 10) as [Hlt | Hge].
    + simpl. rewrite digit_val_digit_char by lia. simpl. lia.
    + rewrite strtol_digits_app
        by (apply format_digits_all_digits; apply Z.div_pos; lia).
      rewrite IH.
      * simpl. rewrite digit_val_digit_char by (apply Z.mod_pos_bound; lia).
        simpl. pose proof (Z.div_mod z 10). lia.
      * split; [apply Z.div_pos; lia |].
        apply Z.div_lt_upper_bound; [lia |].
        rewrite Nat2Z.inj_succ, Z.pow_succ_r in Hz by lia. lia.
Qed.

Lemma format_digits_head (f : nat) :
  forall z, 0 <= z ->
  exists d r, 0 <= d < 10 /\ format_digits (S f) z = String (digit_char d) r.
Proof.
  induction f as [|f IH]; intros z Hz.
  - simpl. destruct (Z.ltb_spec z 10).
    + exists z, EmptyString. split; [lia | reflexivity].
    + exists (z mod 10), EmptyString.
      split; [apply Z.mod_pos_bound; lia | reflexivity].
  - change (format_digits (S (S f)) z)
      with (if z <? 10 then String (digit_char z) EmptyString
            else format_digits (S f) (z / 10) ++ String (digit_char (z mod 10)) EmptyString).
    destruct (Z.ltb_spec z 10).
    + exists z, EmptyString. split; [lia | reflexivity].
    + destruct (IH (z / 10)) as (d & r & Hd & ->); [apply Z.div_pos; lia |].
      exists d, (r ++ String (digit_char (z mod 10)) EmptyString).
      split; [exact Hd | reflexivity].
Qed.

Lemma strtol_digit_head (d : Z) (r : string) :
  0 <= d < 10 ->
  strtol (String (digit_char d) r) = clamp_long (strtol_digits (String (digit_char d) r) 0).
Proof. intros H. each_digit d H; reflexivity. Qed.

(** [strtol] reads back what [%li] wrote for a [long] that is not
    negative. *)
Lemma strtol_format_li (z : Z) : 0 <= z <= LONG_MAX -> strtol (format_li z) = z.
Proof.
  intros Hz. unfold format_li.
  destruct (Z.ltb_spec z 0) as [Hneg | _]; [lia |].
  destruct (format_digits_head 19 z) as (d & r & Hd & Hfmt); [lia |].
  rewrite Hfmt, strtol_digit_head by exact Hd.
  rewrite <- Hfmt, strtol_digits_format.
  - unfold clamp_long, LONG_MIN, LONG_MAX in *. lia.
  - unfold LONG_MAX in Hz. simpl. lia.
Qed.

Lemma all_digits_no_lf (s : string) : all_digits s = true -> no_lf s = true.
Proof.
  induction s as [|c s IH]; simpl; [reflexivity |].
  unfold digit_val.
  destruct ((48 <=? N_of_ascii c)%N && (N_of_ascii c <=? 57)%N) eqn:Hc; [| discriminate].
  intros Hs. rewrite IH by exact Hs.
  replace (Ascii.eqb c LF) with false; [reflexivity |].
  symmetry. apply Ascii.eqb_neq. intros ->. discriminate Hc.
Qed.

End CStrFacts.

(** ** The playlist metadata format *)

Section PlaylistFacts.
Import CStr PlaylistDatabase.

Lemma append_nil_r (a : string) : a ++ "" = a.
Proof. induction a as [|x a IH]; simpl; [reflexivity | f_equal; exact IH]. Qed.

(** A line and its line feed are read as that line. *)
Lemma read_lines_line (s t : string) :
  no_lf s = true -> read_lines (s ++ String LF t) = s :: read_lines t.
Proof.
  induction s as [|c s IH]; simpl; intros Hs; [reflexivity |].
  apply andb_prop in Hs as [Hc Hs].
  apply negb_true_iff in Hc. rewrite Hc, IH by exact Hs. reflexivity.
Qed.

Lemma playlist_vector_save_sections (pv : PlaylistVector) :
  forall os,
    playlist_vector_save os pv = os ++ fold_right String.append "" (map save_section pv).
Proof.
  induction pv as [|pi pv IH]; intros os; simpl.
  - now rewrite append_nil_r.
  - now rewrite IH, append_assoc.
Qed.

Lemma format_li_no_lf (t : Z) : 0 <= t -> no_lf (format_li t) = true.
Proof.
  intros Ht. unfold format_li.
  destruct (Z.ltb_spec t 0); [lia |].
  now apply all_digits_no_lf, format_digits_all_digits.
Qed.

Lemma format_li_head (t : Z) :
  0 <= t -> exists d r, 0 <= d < 10 /\ format_li t = String (digit_char d) r.
Proof.
  intros Ht. unfold format_li.
  destruct (Z.ltb_spec t 0); [lia |].
  now apply format_digits_head.
Qed.

(** A line [mtime: ] and a number sets the time to what [strtol]
    reads. *)
Lemma load_lines_mtime (v : string) (file : list string) (pm : PlaylistInfo) :
  (exists d r, 0 <= d < 10 /\ v = String (digit_char d) r) ->
  load_lines (("mtime: " ++ v) :: file) pm
  = load_lines file {| name := name pm; mtime := from_time_t (strtol v) |}.
Proof.
  intros (d & r & Hd & ->). each_digit d Hd; reflexivity.
Qed.

(** The line without a colon is named in full. *)
Lemma load_lines_no_colon (line : string) (file : list string) (pm : PlaylistInfo) :
  strcmp_eq line "playlist_end" = false ->
  strchr line ":"%char = None ->
  load_lines (line :: file) pm = FormatRuntimeError ("unknown line in db: " ++ line).
Proof. intros Hend Hcolon. simpl. now rewrite Hend, Hcolon. Qed.

(** The line with a key that is not [mtime] is named by its key, the
    part before the colon, which is where the line has been cut. *)
Lemma load_lines_unknown_key (line : string) (colon : nat) (file : list string)
    (pm : PlaylistInfo) :
  strcmp_eq line "playlist_end" = false ->
  strchr line ":"%char = Some (S colon) ->
  strcmp_eq (take (S colon) line) "mtime" = false ->
  load_lines (line :: file) pm
  = FormatRuntimeError ("unknown line in db: " ++ take (S colon) line).
Proof. intros Hend Hcolon Hkey. simpl. now rewrite Hend, Hcolon, Hkey. Qed.

Lemma to_time_t_range (t : Z) :
  0 <= t <= LONG_MAX -> 0 <= to_time_t t <= LONG_MAX.
Proof.
  intros Ht. unfold to_time_t, ticks_per_second.
  rewrite Z.quot_div_nonneg by lia.
  split; [apply Z.div_pos; lia |].
  apply Z.le_trans with t; [| lia].
  apply Z.div_le_upper_bound; lia.
Qed.

(** The whole seconds of a time point that is set make a time point
    again, without a wrap: the time point cut to its whole seconds. *)
Lemma from_time_t_to_time_t (t : Z) :
  0 <= t <= LONG_MAX -> from_time_t (to_time_t t) = t - t mod ticks_per_second.
Proof.
  intros Ht. unfold from_time_t, to_time_t, ticks_per_second.
  rewrite Z.quot_div_nonneg by lia.
  pose proof (Z.div_mod t 1000000000 ltac:(lia)) as Hdiv.
  pose proof (Z.mod_pos_bound t 1000000000 ltac:(lia)) as Hmod.
  replace (t / 1000000000 * 1000000000) with (t - t mod 1000000000) by lia.
  unfold wrap_long, LONG_MAX in *. rewrite Z.mod_small; lia.
Qed.

End PlaylistFacts.

(** C2.  Loading a section whose line is [bogus: 1] fails, and the
    message of the failure names [bogus], the key of the line: the line
    has been cut at its colon by the time the message is formatted.  The
    message does not name the line [bogus: 1]. *)
Theorem playlist_load_bogus_line (pv : PlaylistDatabase.PlaylistVector) (n : string) :
  PlaylistDatabase.playlist_metadata_load ["bogus: 1"; "playlist_end"] pv n
  = PlaylistDatabase.FormatRuntimeError "unknown line in db: bogus" /\
  PlaylistDatabase.playlist_metadata_load ["bogus: 1"; "playlist_end"] pv n
  <> PlaylistDatabase.FormatRuntimeError ("unknown line in db: " ++ "bogus: 1").
Proof. split; [reflexivity | discriminate]. Qed.

(** C8, as the code has it.  A record with a name [n] that has no line
    feed and a time [t] that is set is saved as three lines: the marker
    followed by [n], the whole seconds of [t] in decimal digits, and the
    terminator.  The name is read back from the first line, and the
    other two, loaded under that name, give the record with the time
    [t] cut to its whole seconds: the record itself when [t] is a whole
    number of seconds; loaded into an empty vector, the vector holds
    that record only.  A record whose time [t'] is not set is saved as
    the marker line and the terminator, without a line for the time.
    The text saved for a vector is one such section for each of its
    entries, in their order. *)
Theorem playlist_save_load_roundtrip (n : string) (t t' : Z)
    (pv : PlaylistDatabase.PlaylistVector) :
  0 <= t <= CStr.LONG_MAX ->
  t' < 0 ->
  no_lf n = true ->
  let pi := PlaylistDatabase.mkPlaylistInfo n t in
  let lines := ["mtime: " ++ CStr.format_li (PlaylistDatabase.to_time_t t); "playlist_end"] in
  PlaylistDatabase.read_lines (PlaylistDatabase.playlist_vector_save "" [pi])
  = (PlaylistDatabase.PLAYLIST_META_BEGIN ++ n) :: lines /\
  CStr.drop (String.length PlaylistDatabase.PLAYLIST_META_BEGIN)
    (PlaylistDatabase.PLAYLIST_META_BEGIN ++ n) = n /\
  all_digits (CStr.format_li (PlaylistDatabase.to_time_t t)) = true /\
  PlaylistDatabase.playlist_metadata_load lines pv n
  = PlaylistDatabase.Ok
      ([], PlaylistDatabase.UpdateOrInsert pv
             (PlaylistDatabase.mkPlaylistInfo n
                (t - t mod PlaylistDatabase.ticks_per_second))) /\
  (t mod PlaylistDatabase.ticks_per_second = 0 ->
   PlaylistDatabase.playlist_metadata_load lines pv n
   = PlaylistDatabase.Ok ([], PlaylistDatabase.UpdateOrInsert pv pi)) /\
  PlaylistDatabase.UpdateOrInsert [] pi = [pi] /\
  PlaylistDatabase.read_lines
    (PlaylistDatabase.playlist_vector_save "" [PlaylistDatabase.mkPlaylistInfo n t'])
  = [PlaylistDatabase.PLAYLIST_META_BEGIN ++ n; "playlist_end"] /\
  (forall os pv',
     PlaylistDatabase.playlist_vector_save os pv'
     = os ++ fold_right String.append "" (map PlaylistDatabase.save_section pv')).
Proof.
  intros Ht Ht' Hn pi lines.
  pose proof (to_time_t_range t Ht) as Hs.
  assert (Hmarker : no_lf (PlaylistDatabase.PLAYLIST_META_BEGIN ++ n) = true) by exact Hn.
  assert (Hload : PlaylistDatabase.playlist_metadata_load lines pv n
                  = PlaylistDatabase.Ok
                      ([], PlaylistDatabase.UpdateOrInsert pv
                             (PlaylistDatabase.mkPlaylistInfo n
                                (t - t mod PlaylistDatabase.ticks_per_second)))).
  { subst lines. unfold PlaylistDatabase.playlist_metadata_load.
    rewrite load_lines_mtime by (apply format_li_head; lia).
    rewrite strtol_format_li by exact Hs.
    rewrite from_time_t_to_time_t by exact Ht.
    reflexivity. }
  split; [| split; [| split; [| split; [| split; [| split; [| split]]]]]].
  - subst pi lines. unfold PlaylistDatabase.playlist_vector_save,
      PlaylistDatabase.save_section, PlaylistDatabase.IsNegative.
    cbn [PlaylistDatabase.name PlaylistDatabase.mtime].
    destruct (Z.ltb_spec t 0); [lia |].
    change (negb false) with true. cbv iota.
    replace ("" ++ PlaylistDatabase.PLAYLIST_META_BEGIN ++ n ++ PlaylistDatabase.nl ++
             ("mtime: " ++ CStr.format_li (PlaylistDatabase.to_time_t t) ++ PlaylistDatabase.nl) ++
             "playlist_end" ++ PlaylistDatabase.nl)
      with ((PlaylistDatabase.PLAYLIST_META_BEGIN ++ n) ++
            String CStr.LF (("mtime: " ++ CStr.format_li (PlaylistDatabase.to_time_t t)) ++
                            String CStr.LF ("playlist_end" ++ String CStr.LF "")))
      by (unfold PlaylistDatabase.nl; simpl; rewrite ?append_assoc; reflexivity).
    rewrite read_lines_line by exact Hmarker.
    f_equal.
    rewrite read_lines_line by (apply format_li_no_lf; lia).
    reflexivity.
  - apply drop_append.
  - unfold CStr.format_li. destruct (Z.ltb_spec (PlaylistDatabase.to_time_t t) 0); [lia |].
    apply format_digits_all_digits. lia.
  - exact Hload.
  - intros Hwhole. rewrite Hload, Hwhole, Z.sub_0_r. reflexivity.
  - reflexivity.
  - unfold PlaylistDatabase.playlist_vector_save,
      PlaylistDatabase.save_section, PlaylistDatabase.IsNegative.
    cbn [PlaylistDatabase.name PlaylistDatabase.mtime].
    destruct (Z.ltb_spec t' 0); [| lia].
    change (negb true) with false. cbv iota.
    replace ("" ++ PlaylistDatabase.PLAYLIST_META_BEGIN ++ n ++ PlaylistDatabase.nl ++
             "" ++ "playlist_end" ++ PlaylistDatabase.nl)
      with ((PlaylistDatabase.PLAYLIST_META_BEGIN ++ n) ++
            String CStr.LF ("playlist_end" ++ String CStr.LF ""))
      by (unfold PlaylistDatabase.nl; simpl; rewrite ?append_assoc; reflexivity).
    rewrite read_lines_line by exact Hmarker.
    reflexivity.
  - intros os pv'. apply playlist_vector_save_sections.
Qed.

Lemma playlist_save_load_roundtrip_witness :
  PlaylistDatabase.playlist_metadata_load
    (tl (PlaylistDatabase.read_lines
           (PlaylistDatabase.playlist_vector_save ""
              [PlaylistDatabase.mkPlaylistInfo "Favorites" 1000000000000]))) [] "Favorites"
  = PlaylistDatabase.Ok ([], [PlaylistDatabase.mkPlaylistInfo "Favorites" 1000000000000]).
Proof.
  assert (H1 : 0 <= 1000000000000 <= CStr.LONG_MAX) by (unfold CStr.LONG_MAX; lia).
  assert (H2 : -1 < 0) by lia.
  destruct (playlist_save_load_roundtrip "Favorites" 1000000000000 (-1) [] H1 H2 eq_refl)
    as (Hlines & _ & _ & _ & Hwhole & _).
  rewrite Hlines. apply Hwhole. reflexivity.
Defined.

(** C8, as the claim states it, fails.  A time of 1000 seconds and a
    nanosecond is saved as its whole seconds and loads back without the
    nanosecond, and a name with a line feed is read back as two
    lines, the first of which holds only the part of the name before
    the line feed. *)
Lemma playlist_roundtrip_not_identical :
  PlaylistDatabase.playlist_metadata_load
    (tl (PlaylistDatabase.read_lines
           (PlaylistDatabase.playlist_vector_save ""
              [PlaylistDatabase.mkPlaylistInfo "Favorites" 1000000000001]))) [] "Favorites"
  = PlaylistDatabase.Ok ([], [PlaylistDatabase.mkPlaylistInfo "Favorites" 1000000000000]) /\
  PlaylistDatabase.playlist_metadata_load
    (tl (PlaylistDatabase.read_lines
           (PlaylistDatabase.playlist_vector_save ""
              [PlaylistDatabase.mkPlaylistInfo "Favorites" 1000000000001]))) [] "Favorites"
  <> PlaylistDatabase.Ok ([], [PlaylistDatabase.mkPlaylistInfo "Favorites" 1000000000001]) /\
  PlaylistDatabase.read_lines
    (PlaylistDatabase.playlist_vector_save ""
       [PlaylistDatabase.mkPlaylistInfo ("a" ++ PlaylistDatabase.nl ++ "b") 0])
  = ["playlist_begin: a"; "b"; "mtime: 0"; "playlist_end"].
Proof.
  assert (Hload : PlaylistDatabase.playlist_metadata_load
            (tl (PlaylistDatabase.read_lines
                   (PlaylistDatabase.playlist_vector_save ""
                      [PlaylistDatabase.mkPlaylistInfo "Favorites" 1000000000001]))) []
            "Favorites"
          = PlaylistDatabase.Ok
              ([], [PlaylistDatabase.mkPlaylistInfo "Favorites" 1000000000000]))
    by (vm_compute; reflexivity).
  split; [exact Hload |]. split; [rewrite Hload; discriminate |].
  vm_compute. reflexivity.
Qed.

(** ** The memory and the monad *)

Section MemoryFacts.
Import DbUtils.

Lemma world_eq (w1 w2 : World) :
  strs w1 = strs w2 -> arrays w1 = arrays w2 ->
  tracker w1 = tracker w2 -> out w1 = out w2 -> w1 = w2.
Proof. destruct w1, w2; simpl; intros; subst; reflexivity. Qed.

Lemma bind_Some {S A B} (m : M S A) (k : A -> M S B) (s s' : S) (a : A) :
  m s = Some (a, s') -> bind m k s = k a s'.
Proof. intros H. unfold bind. now rewrite H. Qed.

Lemma fresh_ptr_not_null (used : gset N) : fresh_ptr used ≠ NULL.
Proof.
  unfold fresh_ptr. intros H.
  apply (is_fresh ({[NULL]} ∪ used)). rewrite H. set_solver.
Qed.

Lemma fresh_ptr_fresh (used : gset N) : fresh_ptr used ∉ used.
Proof.
  unfold fresh_ptr. intros H.
  apply (is_fresh ({[NULL]} ∪ used)). set_solver.
Qed.

Lemma fresh_ptr_unallocated {V} (h : gmap N V) : h !! fresh_ptr (dom h) = None.
Proof. apply not_elem_of_dom, fresh_ptr_fresh. Qed.

Lemma read_str_Some (w : World) (p : N) (s : string) :
  strs w !! p = Some s -> read_str p w = Some (s, w).
Proof. intros H. unfold read_str. now rewrite H. Qed.

Lemma free_str_Some (w : World) (p : N) (s : string) :
  p ≠ NULL -> strs w !! p = Some s ->
  free_str p w = Some (tt, set_strs (delete p (strs w)) w).
Proof.
  intros Hp H. unfold free_str.
  destruct (N.eqb_spec p NULL); [contradiction |]. now rewrite H.
Qed.

Lemma load_item_Some (w : World) (a : N) (i : nat) (cells : list LocateTagItem)
    (c : LocateTagItem) :
  arrays w !! a = Some cells -> cells !! i = Some c -> load_item a i w = Some (c, w).
Proof. intros Ha Hi. unfold load_item. now rewrite Ha, Hi. Qed.

Lemma load_tagType_Some (w : World) (a : N) (i : nat) (cells : list LocateTagItem)
    (c : LocateTagItem) (t : Z) :
  arrays w !! a = Some cells -> cells !! i = Some c -> tagType c = Some t ->
  load_tagType a i w = Some (t, w).
Proof.
  intros Ha Hi Ht. unfold load_tagType.
  rewrite (bind_Some _ _ _ _ _ (load_item_Some _ _ _ _ _ Ha Hi)).
  unfold of_option. now rewrite Ht.
Qed.

Lemma load_needle_Some (w : World) (a : N) (i : nat) (cells : list LocateTagItem)
    (c : LocateTagItem) (p : N) :
  arrays w !! a = Some cells -> cells !! i = Some c -> needle c = Some p ->
  load_needle a i w = Some (p, w).
Proof.
  intros Ha Hi Hp. unfold load_needle.
  rewrite (bind_Some _ _ _ _ _ (load_item_Some _ _ _ _ _ Ha Hi)).
  unfold of_option. now rewrite Hp.
Qed.

Lemma store_item_Some (w : World) (a : N) (i : nat) (cells : list LocateTagItem)
    (c c' : LocateTagItem) :
  arrays w !! a = Some cells -> cells !! i = Some c ->
  store_item a i c' w
  = Some (tt, set_arrays (<[a := <[i := c']> cells]> (arrays w)) w).
Proof.
  intros Ha Hi. unfold store_item. rewrite Ha.
  apply lookup_lt_Some in Hi.
  destruct (decide (i < length cells)%nat); [reflexivity | contradiction].
Qed.

Lemma store_tagType_Some (w : World) (a : N) (i : nat) (cells : list LocateTagItem)
    (c : LocateTagItem) (t : Z) :
  arrays w !! a = Some cells -> cells !! i = Some c ->
  store_tagType a i t w
  = Some (tt, set_arrays (<[a := <[i := mkLocate (Some t) (needle c)]> cells]> (arrays w)) w).
Proof.
  intros Ha Hi. unfold store_tagType.
  rewrite (bind_Some _ _ _ _ _ (load_item_Some _ _ _ _ _ Ha Hi)).
  now apply store_item_Some with c.
Qed.

Lemma store_needle_Some (w : World) (a : N) (i : nat) (cells : list LocateTagItem)
    (c : LocateTagItem) (p : N) :
  arrays w !! a = Some cells -> cells !! i = Some c ->
  store_needle a i p w
  = Some (tt, set_arrays (<[a := <[i := mkLocate (tagType c) (Some p)]> cells]> (arrays w)) w).
Proof.
  intros Ha Hi. unfold store_needle.
  rewrite (bind_Some _ _ _ _ _ (load_item_Some _ _ _ _ _ Ha Hi)).
  now apply store_item_Some with c.
Qed.

Lemma lookup_delete_all (qs : list N) :
  forall (h : gmap N string) (x : N),
    delete_all qs h !! x = if decide (x ∈ qs) then None else h !! x.
Proof.
  induction qs as [|q qs IH]; intros h x; simpl.
  - destruct (decide (x ∈ [])) as [H | _]; [| reflexivity].
    now apply elem_of_nil in H.
  - rewrite IH.
    destruct (decide (x ∈ qs)) as [Hin | Hnin].
    + destruct (decide (x ∈ q :: qs)) as [_ | H]; [reflexivity |].
      exfalso. apply H. now right.
    + destruct (decide (x = q)) as [-> | Hne].
      * rewrite lookup_delete_eq.
        destruct (decide (q ∈ q :: qs)) as [_ | H]; [reflexivity |].
        exfalso. apply H. now left.
      * rewrite lookup_delete_ne by congruence.
        destruct (decide (x ∈ q :: qs)) as [H | _]; [| reflexivity].
        apply elem_of_cons in H as [? | ?]; contradiction.
Qed.

(** Buffers that were allocated on top of [h] and are freed again leave
    [h]. *)
Lemma delete_all_fresh (qs : list N) (h h' : gmap N string) :
  (forall q, q ∈ qs -> h !! q = None) ->
  (forall x, x ∉ qs -> h' !! x = h !! x) ->
  delete_all qs h' = h.
Proof.
  intros Hfresh Hframe. apply map_eq. intros x.
  rewrite lookup_delete_all.
  destruct (decide (x ∈ qs)) as [Hin | Hnin].
  - symmetry. now apply Hfresh.
  - now apply Hframe.
Qed.

End MemoryFacts.

(** ** The criterion set *)

Section BuilderFacts.
Import DbUtils.
Context {tbl : TagTable}.

Lemma length_tokens (pairs : list (string * string)) :
  length (tokens pairs) = (2 * length pairs)%nat.
Proof. induction pairs as [|[k v] pairs IH]; simpl; [reflexivity | lia]. Qed.

(** Every token sequence of even length is the tokens of a list of
    pairs. *)
Lemma tokens_of_even (n : nat) :
  forall argArray : list string,
    length argArray = (2 * n)%nat -> exists pairs, argArray = tokens pairs.
Proof.
  induction n as [|n IH]; intros argArray Hlen.
  - destruct argArray; [now exists [] | discriminate].
  - destruct argArray as [|key [|value rest]]; simpl in Hlen; try lia.
    destruct (IH rest) as [pairs ->]; [lia |].
    now exists ((key, value) :: pairs).
Qed.

Lemma tokens_lookup (pairs : list (string * string)) :
  forall (m : nat) (key value : string),
    pairs !! m = Some (key, value) ->
    tokens pairs !! (m * 2)%nat = Some key /\
    tokens pairs !! (m * 2 + 1)%nat = Some value.
Proof.
  induction pairs as [|[k v] pairs IH]; intros m key value Hm; [discriminate |].
  destruct m as [|m]; simpl in *.
  - now inversion Hm.
  - now apply IH.
Qed.

Lemma initLocateTagItem_resolved (w : World) (a : N) (i : nat)
    (cells : list LocateTagItem) (c : LocateTagItem) (key value : string) :
  arrays w !! a = Some cells -> cells !! i = Some c ->
  0 <= getLocateTagItemType key ->
  initLocateTagItem a i key value w
  = Some (0,
      {| strs := <[fresh_ptr (dom (strs w)) := value]> (strs w);
         arrays := <[a := <[i := mkLocate (Some (getLocateTagItemType key))
                                 (Some (fresh_ptr (dom (strs w))))]> cells]> (arrays w);
         tracker := tracker w;
         out := out w |}).
Proof.
  intros Ha Hi Hkey. unfold initLocateTagItem.
  pose proof (lookup_lt_Some _ _ _ Hi) as Hlt.
  rewrite (bind_Some _ _ _ _ _ (store_tagType_Some _ _ _ _ _ _ Ha Hi)).
  erewrite bind_Some.
  2:{ eapply load_tagType_Some; simpl.
      - apply lookup_insert_eq.
      - now apply list_lookup_insert_eq.
      - reflexivity. }
  destruct (Z.ltb_spec (getLocateTagItemType key) 0) as [Hneg | _]; [lia |].
  unfold bind at 1. unfold xstrdup. simpl.
  erewrite bind_Some.
  2:{ eapply store_needle_Some; simpl.
      - apply lookup_insert_eq.
      - now apply list_lookup_insert_eq. }
  unfold ret. f_equal. f_equal.
  apply world_eq; simpl; try reflexivity.
  now rewrite insert_insert_eq, list_insert_insert_eq.
Qed.

Lemma initLocateTagItem_unresolved (w : World) (a : N) (i : nat)
    (cells : list LocateTagItem) (c : LocateTagItem) (key value : string) :
  arrays w !! a = Some cells -> cells !! i = Some c ->
  getLocateTagItemType key < 0 ->
  initLocateTagItem a i key value w
  = Some (-1,
      set_arrays (<[a := <[i := mkLocate (Some (getLocateTagItemType key)) (needle c)]>
                            cells]> (arrays w)) w).
Proof.
  intros Ha Hi Hkey. unfold initLocateTagItem.
  pose proof (lookup_lt_Some _ _ _ Hi) as Hlt.
  rewrite (bind_Some _ _ _ _ _ (store_tagType_Some _ _ _ _ _ _ Ha Hi)).
  erewrite bind_Some.
  2:{ eapply load_tagType_Some; simpl.
      - apply lookup_insert_eq.
      - now apply list_lookup_insert_eq.
      - reflexivity. }
  destruct (Z.ltb_spec (getLocateTagItemType key) 0) as [_ | Hpos]; [| lia].
  reflexivity.
Qed.

(** The loop over [k] pairs from [i], of which the first [k1] have a
    key that resolves and the next one, if there is one, has not: the
    loop stops at [i + k1]; it has written the items before that one,
    each with a needle [q] of its own that holds the value of its
    pair, and has left the rest of the memory as it was. *)
Lemma init_items_spec (argArray : list string) (a : N) (k1 : nat) :
  forall (i : nat) (w : World) (cells : list LocateTagItem) (k : nat),
    arrays w !! a = Some cells ->
    (i + k <= length cells)%nat ->
    (k1 <= k)%nat ->
    (forall m, (m < k1)%nat ->
       exists key value, pair_at argArray (i + m) key value /\
                         0 <= getLocateTagItemType key) ->
    ((k1 < k)%nat ->
       exists key value, pair_at argArray (i + k1) key value /\
                         getLocateTagItemType key < 0) ->
    exists (w' : World) (cells' : list LocateTagItem) (qs : list N),
      init_items argArray a i k w = Some ((bool_decide (k1 = k), (i + k1)%nat), w') /\
      arrays w' = <[a := cells']> (arrays w) /\
      tracker w' = tracker w /\ out w' = out w /\
      length cells' = length cells /\
      length qs = k1 /\
      (forall j, (j < i)%nat -> cells' !! j = cells !! j) /\
      (forall m q, qs !! m = Some q ->
         exists key value,
           pair_at argArray (i + m) key value /\
           cells' !! (i + m)%nat
           = Some (mkLocate (Some (getLocateTagItemType key)) (Some q)) /\
           strs w' !! q = Some value) /\
      NoDup qs /\
      (forall q, q ∈ qs -> q ≠ NULL /\ strs w !! q = None) /\
      (forall x, x ∉ qs -> strs w' !! x = strs w !! x).
Proof.
  induction k1 as [|k1 IH]; intros i w cells k Ha Hlen Hk1 Hres Hfail.
  - destruct k as [|k].
    + exists w, cells, []. simpl. rewrite Nat.add_0_r.
      repeat split; try reflexivity; try (now constructor).
      * symmetry. now apply insert_id.
      * intros m q Hq. discriminate Hq.
      * now apply elem_of_nil in H.
      * now apply elem_of_nil in H.
    + destruct Hfail as (key & value & [Hkey Hval] & Hneg); [lia |].
      rewrite Nat.add_0_r in Hkey, Hval.
      destruct (lookup_lt_is_Some_2 cells i) as [c Hc]; [lia |].
      exists (set_arrays (<[a := <[i := mkLocate (Some (getLocateTagItemType key))
                                     (needle c)]> cells]> (arrays w)) w),
        (<[i := mkLocate (Some (getLocateTagItemType key)) (needle c)]> cells), [].
      simpl. rewrite Nat.add_0_r.
      unfold bind at 1, of_option. rewrite Hkey.
      unfold bind at 1. rewrite Hval.
      rewrite (bind_Some _ _ _ _ _
                 (initLocateTagItem_unresolved _ _ _ _ _ _ value Ha Hc Hneg)).
      simpl.
      repeat split; try reflexivity; try (now constructor).
      * now rewrite length_insert.
      * intros j Hj. apply list_lookup_insert_ne. lia.
      * intros m q Hq. discriminate Hq.
      * now apply elem_of_nil in H.
      * now apply elem_of_nil in H.
  - destruct k as [|k]; [lia |].
    destruct (Hres 0%nat) as (key & value & [Hkey Hval] & Hpos); [lia |].
    rewrite Nat.add_0_r in Hkey, Hval.
    destruct (lookup_lt_is_Some_2 cells i) as [c Hc]; [lia |].
    pose proof (initLocateTagItem_resolved _ _ _ _ _ _ value Ha Hc Hpos) as Hinit.
    set (q0 := fresh_ptr (dom (strs w))) in *.
    set (c1 := mkLocate (Some (getLocateTagItemType key)) (Some q0)) in *.
    set (w1 := {| strs := <[q0 := value]> (strs w);
                  arrays := <[a := <[i := c1]> cells]> (arrays w);
                  tracker := tracker w; out := out w |}) in *.
    destruct (IH (S i) w1 (<[i := c1]> cells) k) as
      (w' & cells' & qs & Hrun & Harr & Htr & Hout & Hlen' & Hqs & Hlow & Hitems
         & Hnodup & Hfresh & Hframe).
    + simpl. apply lookup_insert_eq.
    + rewrite length_insert. lia.
    + lia.
    + intros m Hm. destruct (Hres (S m)) as (key' & value' & Hp & Hr); [lia |].
      exists key', value'. split; [| exact Hr].
      now replace (S i + m)%nat with (i + S m)%nat by lia.
    + intros Hlt. destruct Hfail as (key' & value' & Hp & Hr); [lia |].
      exists key', value'. split; [| exact Hr].
      now replace (S i + k1)%nat with (i + S k1)%nat by lia.
    + assert (Hq0 : q0 ∉ qs).
      { intros Hin. destruct (Hfresh q0 Hin) as [_ Hnone].
        simpl in Hnone. now rewrite lookup_insert_eq in Hnone. }
      exists w', cells', (q0 :: qs).
      simpl init_items.
      unfold bind at 1, of_option. rewrite Hkey.
      unfold bind at 1. rewrite Hval.
      rewrite (bind_Some _ _ _ _ _ Hinit). simpl.
      rewrite Hrun.
      split.
      { f_equal. f_equal. f_equal.
        - destruct (decide (k1 = k)) as [-> | Hne].
          + now rewrite !bool_decide_eq_true_2.
          + rewrite !bool_decide_eq_false_2; [reflexivity | lia | exact Hne].
        - lia. }
      split.
      { rewrite Harr. simpl. apply insert_insert_eq. }
      split; [exact Htr |]. split; [exact Hout |].
      split; [now rewrite Hlen', length_insert |].
      split; [simpl; now rewrite Hqs |].
      split.
      { intros j Hj. rewrite Hlow by lia. apply list_lookup_insert_ne. lia. }
      split.
      { intros [|m] q Hq; simpl in Hq.
        - inversion Hq; subst q. exists key, value.
          rewrite Nat.add_0_r. split; [now split |].
          split.
          + rewrite Hlow by lia. apply list_lookup_insert_eq.
            now apply lookup_lt_Some in Hc.
          + rewrite Hframe by exact Hq0. simpl. apply lookup_insert_eq.
        - destruct (Hitems m q Hq) as (key' & value' & Hp & Hcell & Hstr).
          exists key', value'.
          now replace (i + S m)%nat with (S i + m)%nat by lia. }
      split; [now constructor |].
      split.
      { intros q Hq. apply elem_of_cons in Hq as [-> | Hq].
        - split; [apply fresh_ptr_not_null | apply fresh_ptr_unallocated].
        - destruct (Hfresh q Hq) as [Hnull Hnone]. split; [exact Hnull |].
          simpl in Hnone.
          destruct (decide (q0 = q)) as [-> | Hne];
            [now rewrite lookup_insert_eq in Hnone |].
          now rewrite lookup_insert_ne in Hnone. }
      { intros x Hx. apply not_elem_of_cons in Hx as [Hne Hx].
        rewrite Hframe by exact Hx. simpl. now apply lookup_insert_ne. }
Qed.

(** The loop that frees the needles of [k] items from [j], which are
    distinct buffers. *)
Lemma free_needles_spec (a : N) (cells : list LocateTagItem) (qs : list N) :
  forall (j : nat) (w : World),
    arrays w !! a = Some cells ->
    (forall m q, qs !! m = Some q ->
       exists c, cells !! (j + m)%nat = Some c /\ needle c = Some q /\
                 q ≠ NULL /\ is_Some (strs w !! q)) ->
    NoDup qs ->
    free_needles a j (length qs) w = Some (tt, set_strs (delete_all qs (strs w)) w).
Proof.
  induction qs as [|q qs IH]; intros j w Ha Hcells Hnodup; simpl.
  - unfold ret. f_equal. f_equal. now destruct w.
  - destruct (Hcells 0%nat q eq_refl) as (c & Hc & Hq & Hnull & [s Hs]).
    rewrite Nat.add_0_r in Hc.
    rewrite (bind_Some _ _ _ _ _ (load_needle_Some _ _ _ _ _ _ Ha Hc Hq)).
    rewrite (bind_Some _ _ _ _ _ (free_str_Some _ _ _ Hnull Hs)).
    apply NoDup_cons in Hnodup as [Hq_notin Hnodup].
    rewrite IH; [reflexivity | exact Ha | | exact Hnodup].
    intros m q' Hq'.
    destruct (Hcells (S m) q' Hq') as (c' & Hc' & Hneedle & Hnull' & Hsome).
    exists c'. replace (S j + m)%nat with (j + S m)%nat by lia.
    repeat split; try assumption.
    simpl. rewrite lookup_delete_ne; [exact Hsome |].
    intros ->. apply Hq_notin. eapply list_elem_of_lookup_2. exact Hq'.
Qed.

Lemma even_tokens_numArgs (pairs : list (string * string)) :
  pairs ≠ [] ->
  let numArgs := Z.of_nat (length (tokens pairs)) in
  (numArgs =? 0) = false /\ (Z.rem numArgs 2 =? 0) = true /\
  (numArgs <? 0) = false /\ Z.to_nat (Z.quot numArgs 2) = length pairs /\
  Z.quot numArgs 2 = Z.of_nat (length pairs).
Proof.
  intros Hne numArgs. subst numArgs. rewrite length_tokens.
  assert (0 < length pairs)%nat by (destruct pairs; [contradiction | simpl; lia]).
  replace (Z.of_nat (2 * length pairs)) with (Z.of_nat (length pairs) * 2) by lia.
  rewrite Z.rem_mul, Z.quot_mul by lia.
  repeat split; try lia.
Qed.

Lemma xmalloc_items_cells (w : World) (n : nat) :
  let a := fresh_ptr (dom (arrays w)) in
  xmalloc_items n w
  = Some (a, set_arrays (<[a := replicate n indeterminate]> (arrays w)) w).
Proof. reflexivity. Qed.

Lemma pair_at_tokens (pairs : list (string * string)) (m : nat) (p : string * string) :
  pairs !! m = Some p -> pair_at (tokens pairs) m p.1 p.2.
Proof. destruct p as [key value]. apply tokens_lookup. Qed.

End BuilderFacts.

(** C4.  When the key of some pair of the token sequence does not
    resolve, the construction returns -1, the array pointer of the
    caller is [NULL], and the memory is what it was before the call: the
    needles copied for the pairs before that one and the array have been
    freed. *)
Theorem newLocateTagItemArray_unknown_key `{tbl : DbUtils.TagTable}
    (pairs : list (string * string)) (arrayRet : N) (w : DbUtils.World) :
  Exists (fun p => DbUtils.getLocateTagItemType p.1 < 0) pairs ->
  DbUtils.newLocateTagItemArrayFromArgArray (tokens pairs)
    (Z.of_nat (length (tokens pairs))) arrayRet w
  = Some ((-1, DbUtils.NULL), w).
Proof.
  intros Hex.
  assert (Hne : pairs ≠ []) by (intros ->; inversion Hex).
  destruct (even_tokens_numArgs pairs Hne) as (H0 & Hrem & Hneg & Hnat & Hquot).
  apply Exists_exists in Hex as (p & Hp & Hbad).
  destruct (list_find_elem_of (fun p => DbUtils.getLocateTagItemType p.1 < 0) pairs p Hp Hbad)
    as [[k1 p1] Hfind].
  apply list_find_Some in Hfind as (Hk1 & Hbad1 & Hbefore).
  pose proof (lookup_lt_Some _ _ _ Hk1) as Hk1_lt.
  unfold DbUtils.newLocateTagItemArrayFromArgArray.
  rewrite H0, Hrem, Hneg, Hnat. change (negb true) with false. cbv iota.
  rewrite (bind_Some _ _ _ _ _ (xmalloc_items_cells w (length pairs))).
  set (a := DbUtils.fresh_ptr (dom (DbUtils.arrays w))).
  set (w0 := DbUtils.set_arrays _ w).
  destruct (init_items_spec (tokens pairs) a k1 0%nat w0
              (replicate (length pairs) DbUtils.indeterminate) (length pairs))
    as (w' & cells' & qs & Hrun & Harr & Htr & Hout & Hlen & Hqs & _ & Hitems
          & Hnodup & Hfresh & Hframe).
  - apply lookup_insert_eq.
  - rewrite length_replicate. lia.
  - lia.
  - intros m Hm. simpl.
    destruct (lookup_lt_is_Some_2 pairs m) as [pm Hpm]; [lia |].
    exists pm.1, pm.2. split; [now apply pair_at_tokens |].
    specialize (Hbefore m pm Hpm Hm). simpl in Hbefore. lia.
  - intros _. exists p1.1, p1.2. split; [now apply pair_at_tokens | exact Hbad1].
  - rewrite (bind_Some _ _ _ _ _ Hrun).
    rewrite bool_decide_eq_false_2 by lia. cbn [fst snd Nat.add].
    assert (Ha' : DbUtils.arrays w' !! a = Some cells') by (rewrite Harr; apply lookup_insert_eq).
    rewrite <- Hqs.
    erewrite bind_Some.
    2:{ apply (free_needles_spec a cells' qs 0%nat w' Ha'); [| exact Hnodup].
        intros m q Hq. destruct (Hitems m q Hq) as (key & value & _ & Hcell & Hstr).
        eexists. split; [exact Hcell |]. split; [reflexivity |].
        split; [apply (Hfresh q); eapply list_elem_of_lookup_2; exact Hq |].
        now exists value. }
    unfold DbUtils.free_items at 1. unfold DbUtils.bind at 1. simpl.
    destruct (N.eqb_spec a DbUtils.NULL) as [Hnull | _];
      [exfalso; revert Hnull; apply fresh_ptr_not_null |].
    rewrite Ha'. unfold DbUtils.ret. f_equal. f_equal.
    apply world_eq; simpl.
    + apply delete_all_fresh; [apply Hfresh | exact Hframe].
    + rewrite Harr. subst w0. simpl.
      rewrite !delete_insert_eq. apply delete_id, fresh_ptr_unallocated.
    + exact Htr.
    + exact Hout.
Qed.

Lemma newLocateTagItemArray_unknown_key_witness :
  @DbUtils.newLocateTagItemArrayFromArgArray sample_table
    (tokens [("artist", "X"); ("badkey", "Y")])
    (Z.of_nat (length (tokens [("artist", "X"); ("badkey", "Y")]))) 7%N empty_world
  = Some ((-1, DbUtils.NULL), empty_world).
Proof.
  apply (@newLocateTagItemArray_unknown_key sample_table).
  right. left. vm_compute. reflexivity.
Defined.

(** C5.  When the key of every pair resolves, the construction returns
    the number of pairs.  For a sequence that is not empty the array
    pointer of the caller is a new array that holds one item for each
    pair, in their order, with the type its key resolves to and a needle
    that is a new buffer, not shared with another item, holding the
    value of the pair; the rest of the memory is as before.  For the
    empty sequence, and for a sequence of odd length, which returns -1,
    nothing is allocated and the array pointer is not written. *)
Theorem newLocateTagItemArray_builds `{tbl : DbUtils.TagTable}
    (pairs : list (string * string)) (arrayRet : N) (w : DbUtils.World) :
  Forall (fun p => 0 <= DbUtils.getLocateTagItemType p.1) pairs ->
  (exists (a : N) (cells : list DbUtils.LocateTagItem) (qs : list N) (w' : DbUtils.World),
     DbUtils.newLocateTagItemArrayFromArgArray (tokens pairs)
       (Z.of_nat (length (tokens pairs))) arrayRet w
     = Some ((Z.of_nat (length pairs), a), w') /\
     (pairs = [] -> a = arrayRet /\ w' = w) /\
     (pairs ≠ [] ->
        a ≠ DbUtils.NULL /\ DbUtils.arrays w !! a = None /\
        DbUtils.arrays w' = <[a := cells]> (DbUtils.arrays w)) /\
     length cells = length pairs /\ length qs = length pairs /\
     (forall m p, pairs !! m = Some p ->
        exists q, qs !! m = Some q /\
          cells !! m = Some (DbUtils.mkLocate (Some (DbUtils.getLocateTagItemType p.1)) (Some q)) /\
          DbUtils.strs w' !! q = Some p.2) /\
     NoDup qs /\
     (forall q, q ∈ qs -> q ≠ DbUtils.NULL /\ DbUtils.strs w !! q = None) /\
     (forall x, x ∉ qs -> DbUtils.strs w' !! x = DbUtils.strs w !! x) /\
     DbUtils.tracker w' = DbUtils.tracker w /\ DbUtils.out w' = DbUtils.out w) /\
  (forall argArray : list string,
     Nat.Odd (length argArray) ->
     DbUtils.newLocateTagItemArrayFromArgArray argArray (Z.of_nat (length argArray)) arrayRet w
     = Some ((-1, arrayRet), w)).
Proof.
  intros Hall. split.
  - destruct pairs as [|p0 pairs'] eqn:Hpairs.
    + exists arrayRet, [], [], w. simpl.
      repeat split; try reflexivity; try (now constructor); try contradiction.
      * intros m p Hm. discriminate Hm.
      * now apply elem_of_nil in H.
      * now apply elem_of_nil in H.
    + rewrite <- Hpairs in *.
      assert (Hne : pairs ≠ []) by (rewrite Hpairs; discriminate).
      clear Hpairs p0 pairs'.
      destruct (even_tokens_numArgs pairs Hne) as (H0 & Hrem & Hneg & Hnat & Hquot).
      unfold DbUtils.newLocateTagItemArrayFromArgArray.
      rewrite H0, Hrem, Hneg, Hnat, Hquot. change (negb true) with false. cbv iota.
      rewrite (bind_Some _ _ _ _ _ (xmalloc_items_cells w (length pairs))).
      set (a := DbUtils.fresh_ptr (dom (DbUtils.arrays w))).
      set (w0 := DbUtils.set_arrays _ w).
      destruct (init_items_spec (tokens pairs) a (length pairs) 0%nat w0
                  (replicate (length pairs) DbUtils.indeterminate) (length pairs))
        as (w' & cells' & qs & Hrun & Harr & Htr & Hout & Hlen & Hqs & _ & Hitems
              & Hnodup & Hfresh & Hframe).
      * apply lookup_insert_eq.
      * rewrite length_replicate. lia.
      * lia.
      * intros m Hm. simpl.
        destruct (lookup_lt_is_Some_2 pairs m) as [pm Hpm]; [lia |].
        exists pm.1, pm.2. split; [now apply pair_at_tokens |].
        now apply (proj1 (Forall_lookup _ _) Hall m pm).
      * lia.
      * exists a, cells', qs, w'.
        rewrite (bind_Some _ _ _ _ _ Hrun).
        rewrite bool_decide_eq_true_2 by reflexivity. cbn [fst snd Nat.add].
        split; [reflexivity |].
        split; [intros Hnil; contradiction |].
        split.
        { intros _. split; [apply fresh_ptr_not_null |].
          split; [apply fresh_ptr_unallocated |].
          rewrite Harr. subst w0. simpl. apply insert_insert_eq. }
        split; [now rewrite Hlen, length_replicate |].
        split; [exact Hqs |].
        split.
        { intros m p Hm.
          destruct (lookup_lt_is_Some_2 qs m) as [q Hq];
            [rewrite Hqs; eapply lookup_lt_Some; exact Hm |].
          exists q. split; [exact Hq |].
          destruct (Hitems m q Hq) as (key & value & [Hkey Hval] & Hcell & Hstr).
          destruct (pair_at_tokens pairs m p Hm) as [Hkey' Hval'].
          simpl in Hkey, Hval, Hcell.
          assert (key = p.1) by congruence. assert (value = p.2) by congruence.
          subst key value. now split. }
        split; [exact Hnodup |].
        split; [exact Hfresh |].
        split; [exact Hframe |].
        split; [exact Htr | exact Hout].
  - intros argArray [n Hodd].
    unfold DbUtils.newLocateTagItemArrayFromArgArray.
    replace (Z.of_nat (length argArray)) with (Z.of_nat n * 2 + 1) by lia.
    destruct (Z.eqb_spec (Z.of_nat n * 2 + 1) 0) as [H0 | _]; [lia |].
    assert (Hrem : Z.rem (Z.of_nat n * 2 + 1) 2 = 1).
    { rewrite Z.rem_mod_nonneg by lia.
      rewrite Z.add_comm, Z.mod_add by lia. reflexivity. }
    rewrite Hrem. reflexivity.
Qed.

Lemma newLocateTagItemArray_builds_witness :
  exists (a : N) (w' : DbUtils.World),
    @DbUtils.newLocateTagItemArrayFromArgArray sample_table
      (tokens [("artist", "X"); ("album", "Y")])
      (Z.of_nat (length (tokens [("artist", "X"); ("album", "Y")]))) 7%N empty_world
    = Some ((2, a), w') /\ a ≠ DbUtils.NULL.
Proof.
  assert (Hall : Forall (fun p => 0 <= @DbUtils.getLocateTagItemType sample_table p.1)
                   [("artist", "X"); ("album", "Y")]).
  { repeat constructor; vm_compute; discriminate. }
  destruct (@newLocateTagItemArray_builds sample_table _ 7%N empty_world Hall)
    as [(a & cells & qs & w' & Hrun & _ & Hne & _) _].
  exists a, w'. split; [exact Hrun |].
  apply Hne. discriminate.
Defined.

(** ** The traversal and the visitors *)

Section TraversalFacts.
Import DbUtils.
Context {tbl : TagTable}.

Section Walk.
Context {S : Type} (f : Song -> M S Z) (g : Song -> S -> S) (I : S -> Prop).
Hypothesis f_step :
  forall song st, I st -> exists r, f song st = Some (r, g song st) /\ I (g song st).

Let run (l : list Song) (st : S) : S := fold_left (fun st song => g song st) l st.

Lemma for_each_songs (ss : list Song) :
  forall st, I st ->
    for_each (call (Some f)) ss st = Some (tt, run ss st) /\ I (run ss st).
Proof.
  induction ss as [|song ss IH]; intros st Hst; simpl.
  - now split.
  - destruct (f_step song st Hst) as (r & Hf & HI).
    rewrite (bind_Some _ _ _ _ _ Hf). now apply IH.
Qed.

Lemma traverse_songs (d : Directory) :
  forall st, I st ->
    traverseAllInSubDirectory (Some f) None d st = Some (0, run (all_songs d) st) /\
    I (run (all_songs d) st).
Proof.
  induction d as [p ss subs IHsubs] using Directory_nested_ind.
  intros st Hst. simpl.
  unfold bind at 1. simpl.
  destruct (for_each_songs ss st Hst) as [Hss HI].
  rewrite (bind_Some _ _ _ _ _ Hss).
  unfold run. rewrite fold_left_app. fold (run ss st).
  revert HI. generalize (run ss st). clear Hst Hss st.
  induction IHsubs as [|d' rest Hd' _ IHrest]; intros st HI; simpl.
  - now split.
  - destruct (Hd' st HI) as [Hrun HI'].
    rewrite (bind_Some _ _ _ _ _ Hrun).
    rewrite fold_left_app. now apply IHrest.
Qed.

Lemma traverseAllIn_songs (db : Directory) (name : option string) (st : S) :
  I st ->
  traverseAllIn db name (Some f) None st
  = Some (walk_result db name, run (songs_under db name) st) /\
  I (run (songs_under db name) st).
Proof.
  intros Hst. unfold traverseAllIn, walk_result, songs_under.
  destruct (lookupDirectory db name) as [d |].
  - now apply traverse_songs.
  - now split.
Qed.
End Walk.

(** A visitor that writes a record for the songs that pass a test. *)
Lemma fold_emit_filter (pred : Song -> bool) (e : Song -> Output) (l : list Song) :
  forall w,
    fold_left (fun w song => if pred song then set_out (out w ++ [e song]) w else w) l w
    = set_out (out w ++ map e (List.filter pred l)) w.
Proof.
  induction l as [|song l IH]; intros w; simpl.
  - rewrite app_nil_r. now destruct w.
  - rewrite IH. destruct (pred song); [| reflexivity].
    simpl. unfold set_out. simpl. now rewrite <- app_assoc.
Qed.

(** *** The criteria in memory *)

Lemma criteria_from_same_memory (w w' : World) (items : N) (i : nat)
    (crit : list (Z * string)) :
  strs w' = strs w -> arrays w' = arrays w ->
  criteria_from w items i crit -> criteria_from w' items i crit.
Proof.
  intros Hs Ha Hcrit m t s Hm. rewrite Ha, Hs. now apply Hcrit.
Qed.

Lemma all_match_spec (matcher : Song -> Z -> string -> bool) (items : N) (song : Song)
    (crit : list (Z * string)) :
  forall (i : nat) (w : World),
    criteria_from w items i crit ->
    all_match matcher items song i (length crit) w
    = Some (matches_all matcher crit song, w).
Proof.
  induction crit as [|[t s] crit IH]; intros i w Hcrit; [reflexivity |].
  destruct (Hcrit 0%nat t s eq_refl) as (cells & p & Hcells & Hcell & Hstr).
  rewrite Nat.add_0_r in Hcell.
  simpl all_match.
  rewrite (bind_Some _ _ _ _ _ (load_tagType_Some _ _ _ _ _ _ Hcells Hcell eq_refl)).
  rewrite (bind_Some _ _ _ _ _ (load_needle_Some _ _ _ _ _ _ Hcells Hcell eq_refl)).
  rewrite (bind_Some _ _ _ _ _ (read_str_Some _ _ _ Hstr)).
  unfold matches_all. simpl.
  destruct (matcher song t s); [| reflexivity].
  simpl. apply IH.
  intros m t' s' Hm. replace (S i + m)%nat with (i + S m)%nat by lia.
  now apply Hcrit.
Qed.

Lemma findInDirectory_spec (w : World) (items : N) (crit : list (Z * string)) (song : Song) :
  criteria_at w items crit ->
  findInDirectory (Z.of_nat (length crit)) items song w
  = Some (0, emit_if (find_matches crit song) (OutSongInfo song) w).
Proof.
  intros Hcrit. unfold findInDirectory. rewrite Nat2Z.id.
  rewrite (bind_Some _ _ _ _ _ (all_match_spec _ _ song _ _ _ Hcrit)).
  unfold find_matches, emit_if.
  destruct (matches_all tagItemFoundAndMatches crit song); reflexivity.
Qed.

Lemma searchInDirectory_spec (w : World) (items : N) (crit : list (Z * string)) (song : Song) :
  criteria_at w items crit ->
  searchInDirectory (Z.of_nat (length crit)) items song w
  = Some (0, emit_if (matches_all strstrSearchTag crit song) (OutSongInfo song) w).
Proof.
  intros Hcrit. unfold searchInDirectory. rewrite Nat2Z.id.
  rewrite (bind_Some _ _ _ _ _ (all_match_spec _ _ song _ _ _ Hcrit)).
  unfold emit_if.
  destruct (matches_all strstrSearchTag crit song); reflexivity.
Qed.

(** A walk with a visitor that tests the criteria at [items] writes the
    songs that pass, in the order of the walk. *)
Lemma traverse_filter (visitor : Song -> M World Z) (pred : Song -> bool)
    (items : N) (crit : list (Z * string)) (db : Directory) (name : option string)
    (w : World) :
  (forall song w', criteria_at w' items crit ->
     visitor song w' = Some (0, emit_if (pred song) (OutSongInfo song) w')) ->
  criteria_at w items crit ->
  traverseAllIn db name (Some visitor) None w
  = Some (walk_result db name,
          set_out (out w ++ map OutSongInfo (List.filter pred (songs_under db name))) w).
Proof.
  intros Hvisitor Hcrit.
  destruct (traverseAllIn_songs visitor
              (fun song w => emit_if (pred song) (OutSongInfo song) w)
              (fun w' => strs w' = strs w /\ arrays w' = arrays w)) with (db := db)
    (name := name) (st := w) as [Hrun _].
  - intros song st [Hs Ha]. exists 0. split.
    + apply Hvisitor. now apply (criteria_from_same_memory w).
    + unfold emit_if. destruct (pred song); simpl; now split.
  - now split.
  - rewrite Hrun. f_equal. f_equal. apply fold_emit_filter.
Qed.

Lemma findSongsIn_spec (db : Directory) (name : option string) (items : N)
    (crit : list (Z * string)) (w : World) :
  criteria_at w items crit ->
  findSongsIn db name (Z.of_nat (length crit)) items w
  = Some (walk_result db name,
          set_out (out w ++ map OutSongInfo
                     (List.filter (find_matches crit) (songs_under db name))) w).
Proof.
  intros Hcrit. unfold findSongsIn.
  apply traverse_filter with (items := items) (crit := crit); [| exact Hcrit].
  intros song w'. apply findInDirectory_spec.
Qed.

End TraversalFacts.

(** ** The search and its upper-case needles *)

Section SearchFacts.
Import DbUtils.
Context {tbl : TagTable}.

(** The first loop of [searchForSongsIn] over the criteria [crit] from
    [i]: it keeps the needles [ps] and puts in their place new buffers
    [qs] that hold their upper-case copies. *)
Lemma upper_needles_spec (items : N) (crit : list (Z * string)) :
  forall (i : nat) (w : World) (cells : list LocateTagItem) (acc : list N),
    arrays w !! items = Some cells ->
    (forall m t s, crit !! m = Some (t, s) ->
       exists p, cells !! (i + m)%nat = Some (mkLocate (Some t) (Some p)) /\
                 strs w !! p = Some s) ->
    exists (w' : World) (cells' : list LocateTagItem) (ps qs : list N),
      upper_needles items i (length crit) acc w = Some ((acc ++ ps)%list, w') /\
      arrays w' = <[items := cells']> (arrays w) /\
      tracker w' = tracker w /\ out w' = out w /\
      length cells' = length cells /\
      length ps = length crit /\ length qs = length crit /\
      (forall j, (j < i)%nat -> cells' !! j = cells !! j) /\
      (forall j, (i + length crit <= j)%nat -> cells' !! j = cells !! j) /\
      (forall m t s, crit !! m = Some (t, s) ->
         exists p q,
           ps !! m = Some p /\ qs !! m = Some q /\
           cells !! (i + m)%nat = Some (mkLocate (Some t) (Some p)) /\
           cells' !! (i + m)%nat = Some (mkLocate (Some t) (Some q)) /\
           strs w' !! q = Some (strDupToUpper s)) /\
      NoDup qs /\
      (forall q, q ∈ qs -> q ≠ NULL /\ strs w !! q = None) /\
      (forall x, x ∉ qs -> strs w' !! x = strs w !! x).
Proof.
  induction crit as [|[t0 s0] crit IH]; intros i w cells acc Ha Hcrit.
  - exists w, cells, [], []. simpl. rewrite app_nil_r.
    repeat split; try reflexivity; try (now constructor).
    + symmetry. now apply insert_id.
    + intros m t s Hm. discriminate Hm.
    + now apply elem_of_nil in H.
    + now apply elem_of_nil in H.
  - destruct (Hcrit 0%nat t0 s0 eq_refl) as (p0 & Hcell0 & Hstr0).
    rewrite Nat.add_0_r in Hcell0.
    pose proof (lookup_lt_Some _ _ _ Hcell0) as Hi.
    set (q0 := fresh_ptr (dom (strs w))).
    set (c1 := mkLocate (Some t0) (Some q0)).
    set (w1 := {| strs := <[q0 := strDupToUpper s0]> (strs w);
                  arrays := <[items := <[i := c1]> cells]> (arrays w);
                  tracker := tracker w; out := out w |}).
    assert (Hq0 : strs w !! q0 = None) by apply fresh_ptr_unallocated.
    destruct (IH (S i) w1 (<[i := c1]> cells) (acc ++ [p0])%list) as
      (w' & cells' & ps & qs & Hrun & Harr & Htr & Hout & Hlen & Hps & Hqs & Hlow
         & Hhigh & Hitems & Hnodup & Hfresh & Hframe).
    + simpl. apply lookup_insert_eq.
    + intros m t s Hm.
      destruct (Hcrit (S m) t s Hm) as (p & Hcell & Hstr).
      exists p. split.
      * rewrite list_lookup_insert_ne by lia.
        now replace (S i + m)%nat with (i + S m)%nat by lia.
      * simpl. rewrite lookup_insert_ne; [exact Hstr |].
        intros Heq. rewrite Heq in Hq0. congruence.
    + assert (Hq0_notin : q0 ∉ qs).
      { intros Hin. destruct (Hfresh q0 Hin) as [_ Hnone].
        simpl in Hnone. now rewrite lookup_insert_eq in Hnone. }
      exists w', cells', (p0 :: ps), (q0 :: qs).
      simpl upper_needles.
      rewrite (bind_Some _ _ _ _ _ (load_needle_Some _ _ _ _ _ _ Ha Hcell0 eq_refl)).
      rewrite (bind_Some _ _ _ _ _ (read_str_Some _ _ _ Hstr0)).
      unfold bind at 1. unfold xstrdup. fold q0.
      erewrite bind_Some.
      2:{ eapply store_needle_Some; simpl; [exact Ha | exact Hcell0]. }
      simpl tagType. fold c1.
      replace (set_arrays _ (set_strs _ w)) with w1 by reflexivity.
      rewrite Hrun.
      split; [now rewrite <- app_assoc |].
      split; [rewrite Harr; simpl; apply insert_insert_eq |].
      split; [exact Htr |]. split; [exact Hout |].
      split; [now rewrite Hlen, length_insert |].
      split; [simpl; now rewrite Hps |].
      split; [simpl; now rewrite Hqs |].
      split.
      { intros j Hj. rewrite Hlow by lia. apply list_lookup_insert_ne. lia. }
      split.
      { intros j Hj. simpl in Hj. rewrite Hhigh by lia.
        apply list_lookup_insert_ne. lia. }
      split.
      { intros [|m] t s Hm; simpl in Hm.
        - inversion Hm; subst t s. exists p0, q0. rewrite Nat.add_0_r.
          repeat split; try reflexivity; try assumption.
          + rewrite Hlow by lia. now apply list_lookup_insert_eq.
          + rewrite Hframe by exact Hq0_notin. simpl. apply lookup_insert_eq.
        - destruct (Hitems m t s Hm) as (p & q & Hp & Hq & Hc & Hc' & Hs).
          exists p, q. replace (i + S m)%nat with (S i + m)%nat by lia.
          repeat split; try assumption.
          rewrite list_lookup_insert_ne in Hc by lia. exact Hc. }
      split; [now constructor |].
      split.
      { intros q Hq. apply elem_of_cons in Hq as [-> | Hq].
        - split; [apply fresh_ptr_not_null | exact Hq0].
        - destruct (Hfresh q Hq) as [Hnull Hnone]. split; [exact Hnull |].
          simpl in Hnone.
          destruct (decide (q0 = q)) as [<- | Hne]; [exact Hq0 |].
          now rewrite lookup_insert_ne in Hnone. }
      { intros x Hx. apply not_elem_of_cons in Hx as [Hne Hx].
        rewrite Hframe by exact Hx. simpl. now apply lookup_insert_ne. }
Qed.

(** The second loop: it frees the buffers [qs] that the items from [i]
    point to and puts back the needles kept in [originalNeedles]. *)
Lemma restore_needles_spec (items : N) (originalNeedles : list N) (qs : list N) :
  forall (i : nat) (w : World) (cells : list LocateTagItem),
    arrays w !! items = Some cells ->
    (forall m q, qs !! m = Some q ->
       exists t p, cells !! (i + m)%nat = Some (mkLocate t (Some q)) /\
                   originalNeedles !! (i + m)%nat = Some p /\
                   q ≠ NULL /\ is_Some (strs w !! q)) ->
    NoDup qs ->
    exists cells' : list LocateTagItem,
      restore_needles items i (length qs) originalNeedles w
      = Some (tt, set_strs (delete_all qs (strs w))
                    (set_arrays (<[items := cells']> (arrays w)) w)) /\
      length cells' = length cells /\
      (forall j, (j < i)%nat -> cells' !! j = cells !! j) /\
      (forall j, (i + length qs <= j)%nat -> cells' !! j = cells !! j) /\
      (forall m q, qs !! m = Some q ->
         exists t p, cells !! (i + m)%nat = Some (mkLocate t (Some q)) /\
                     originalNeedles !! (i + m)%nat = Some p /\
                     cells' !! (i + m)%nat = Some (mkLocate t (Some p))).
Proof.
  induction qs as [|q0 qs IH]; intros i w cells Ha Hcells Hnodup.
  - exists cells. simpl. unfold ret.
    repeat split; try reflexivity.
    + f_equal. f_equal. apply world_eq; simpl; try reflexivity.
      symmetry. now apply insert_id.
    + intros m q Hq. discriminate Hq.
  - destruct (Hcells 0%nat q0 eq_refl) as (t0 & p0 & Hcell0 & Hp0 & Hnull0 & [s0 Hs0]).
    rewrite Nat.add_0_r in Hcell0, Hp0.
    pose proof (lookup_lt_Some _ _ _ Hcell0) as Hi.
    apply NoDup_cons in Hnodup as [Hq0_notin Hnodup].
    set (c1 := mkLocate t0 (Some p0)).
    set (w1 := set_arrays (<[items := <[i := c1]> cells]> (arrays w))
                 (set_strs (delete q0 (strs w)) w)).
    destruct (IH (S i) w1 (<[i := c1]> cells)) as
      (cells' & Hrun & Hlen & Hlow & Hhigh & Hitems).
    + simpl. apply lookup_insert_eq.
    + intros m q Hq.
      destruct (Hcells (S m) q Hq) as (t & p & Hcell & Hp & Hnull & Hsome).
      exists t, p. replace (S i + m)%nat with (i + S m)%nat by lia.
      rewrite list_lookup_insert_ne by lia.
      repeat split; try assumption.
      simpl. rewrite lookup_delete_ne; [exact Hsome |].
      intros ->. apply Hq0_notin. eapply list_elem_of_lookup_2. exact Hq.
    + exact Hnodup.
    + exists cells'.
      simpl restore_needles.
      rewrite (bind_Some _ _ _ _ _ (load_needle_Some _ _ _ _ _ _ Ha Hcell0 eq_refl)).
      rewrite (bind_Some _ _ _ _ _ (free_str_Some _ _ _ Hnull0 Hs0)).
      unfold bind at 1, of_option. rewrite Hp0.
      erewrite bind_Some.
      2:{ eapply store_needle_Some; simpl; [exact Ha | exact Hcell0]. }
      simpl tagType. fold c1.
      replace (set_arrays _ (set_strs _ w)) with w1 by reflexivity.
      rewrite Hrun.
      split.
      { f_equal. f_equal. apply world_eq; simpl; try reflexivity.
        apply insert_insert_eq. }
      split; [now rewrite Hlen, length_insert |].
      split.
      { intros j Hj. rewrite Hlow by lia. apply list_lookup_insert_ne. lia. }
      split.
      { intros j Hj. simpl in Hj. rewrite Hhigh by lia.
        apply list_lookup_insert_ne. lia. }
      intros [|m] q Hq; simpl in Hq.
      * inversion Hq; subst q. exists t0, p0. rewrite Nat.add_0_r.
        repeat split; try assumption.
        rewrite Hlow by lia. now apply list_lookup_insert_eq.
      * destruct (Hitems m q Hq) as (t & p & Hc & Hp & Hc').
        exists t, p. replace (i + S m)%nat with (S i + m)%nat by lia.
        repeat split; try assumption.
        rewrite list_lookup_insert_ne in Hc by lia. exact Hc.
Qed.

Lemma length_upper_criteria (crit : list (Z * string)) :
  length (upper_criteria crit) = length crit.
Proof. apply length_map. Qed.

(** The search: what it returns is what the walk returns, it writes
    the songs that match the upper-case criteria, and it leaves the
    memory as it was. *)
Lemma searchForSongsIn_spec (db : Directory) (name : option string) (items : N)
    (crit : list (Z * string)) (w : World) :
  criteria_at w items crit ->
  searchForSongsIn db name (Z.of_nat (length crit)) items w
  = Some (walk_result db name,
          set_out (out w ++ map OutSongInfo
                     (List.filter (search_matches crit) (songs_under db name))) w).
Proof.
  intros Hcrit0. unfold searchForSongsIn. rewrite Nat2Z.id.
  destruct crit as [|[t0 s0] crit'] eqn:Hshape.
  { simpl upper_needles. simpl restore_needles. unfold bind at 1. simpl.
    erewrite bind_Some.
    2:{ apply traverse_filter with (items := items) (crit := [])
          (pred := search_matches []); [| exact Hcrit0].
        intros song w' Hw'. now apply (searchInDirectory_spec w' items []). }
    reflexivity. }
  rewrite <- Hshape in *.
  destruct (Hcrit0 0%nat t0 s0) as (cells & _ & Ha & _); [now rewrite Hshape |].
  assert (Hcrit : forall m t s, crit !! m = Some (t, s) ->
            exists p, cells !! (0 + m)%nat = Some (mkLocate (Some t) (Some p)) /\
                      strs w !! p = Some s).
  { intros m t s Hm. destruct (Hcrit0 m t s Hm) as (cells' & p & Ha' & Hc & Hs).
    exists p. split; [congruence | exact Hs]. }
  clear Hshape t0 s0 crit' Hcrit0.
  destruct (upper_needles_spec items crit 0%nat w cells [] Ha Hcrit) as
    (w1 & cells1 & ps & qs & Hrun1 & Harr1 & Htr1 & Hout1 & Hlen1 & Hps & Hqs & _
       & Hhigh1 & Hitems1 & Hnodup & Hfresh & Hframe).
  rewrite (bind_Some _ _ _ _ _ Hrun1). simpl app.
  assert (Ha1 : arrays w1 !! items = Some cells1)
    by (rewrite Harr1; apply lookup_insert_eq).
  assert (Hcrit1 : criteria_at w1 items (upper_criteria crit)).
  { intros m t s' Hm. unfold upper_criteria in Hm.
    rewrite list_lookup_fmap in Hm.
    destruct (crit !! m) as [[t1 s1] |] eqn:Hcm; [| discriminate].
    simpl in Hm. inversion Hm; subst t s'.
    destruct (Hitems1 m t1 s1 Hcm) as (p & q & _ & _ & _ & Hc1 & Hs1).
    exists cells1, q. now split. }
  erewrite bind_Some.
  2:{ apply traverse_filter with (items := items) (crit := upper_criteria crit)
        (pred := search_matches crit); [| exact Hcrit1].
      intros song w' Hw'. rewrite <- (length_upper_criteria crit).
      now apply searchInDirectory_spec. }
  set (found := map OutSongInfo (List.filter (search_matches crit) (songs_under db name))).
  set (w2 := set_out (out w1 ++ found) w1).
  destruct (restore_needles_spec items ps qs 0%nat w2 cells1) as
    (cells3 & Hrun3 & Hlen3 & _ & Hhigh3 & Hitems3).
  - exact Ha1.
  - intros m q Hq.
    destruct (lookup_lt_is_Some_2 crit m) as [[t s] Hcm];
      [rewrite <- Hqs; eapply lookup_lt_Some; exact Hq |].
    destruct (Hitems1 m t s Hcm) as (p & q' & Hp & Hq' & _ & Hc1 & Hs1).
    assert (q' = q) by congruence. subst q'.
    exists (Some t), p. repeat split; try assumption.
    + apply (Hfresh q). eapply list_elem_of_lookup_2. exact Hq.
    + simpl. now exists (strDupToUpper s).
  - exact Hnodup.
  - rewrite <- Hqs. rewrite (bind_Some _ _ _ _ _ Hrun3). unfold ret. simpl.
    f_equal. f_equal. apply world_eq; simpl.
    + apply delete_all_fresh; [apply Hfresh | exact Hframe].
    + rewrite Harr1, insert_insert_eq. apply insert_id. rewrite Ha. f_equal.
      apply list_eq. intros j.
      destruct (decide (j < length crit)%nat) as [Hj | Hj].
      * destruct (lookup_lt_is_Some_2 crit j Hj) as [[t s] Hcj].
        destruct (Hitems1 j t s Hcj) as (p & q & Hp & Hq & Hc & Hc1 & _).
        destruct (Hitems3 j q Hq) as (t' & p' & Hc1' & Hp' & Hc3).
        simpl in Hc, Hc1, Hc1', Hc3, Hp'.
        rewrite Hc, Hc3.
        assert (t' = Some t) by congruence. assert (p' = p) by congruence.
        now subst.
      * rewrite Hhigh3 by (simpl; lia). rewrite Hhigh1 by (simpl; lia). reflexivity.
    + exact Htr1.
    + now rewrite Hout1.
Qed.

End SearchFacts.

(** ** The matchers *)

Section MatcherFacts.
Import CStr DbUtils.
Context {tbl : TagTable}.

Lemma file_type_not_any : LOCATE_TAG_FILE_TYPE ≠ LOCATE_TAG_ANY_TYPE.
Proof. unfold LOCATE_TAG_FILE_TYPE, LOCATE_TAG_ANY_TYPE. lia. Qed.

Lemma prefix_refl (s : string) : String.prefix s s = true.
Proof.
  induction s as [|c s IH]; simpl; [reflexivity |].
  destruct (ascii_dec c c); [exact IH | contradiction].
Qed.

Lemma strstr_refl (s : string) : strstr s s = true.
Proof.
  destruct s as [|c s]; [reflexivity |].
  change (strstr (String c s) (String c s))
    with (String.prefix (String c s) (String c s) || strstr s (String c s)).
  now rewrite prefix_refl.
Qed.

Lemma strcmp_eq_true (s t : string) : strcmp_eq s t = true <-> s = t.
Proof. apply String.eqb_eq. Qed.

(** An item is compared when the criterion is [ANY] or has its type. *)
Lemma matches_items_spec (items : list MpdTagItem) (type : Z) (str : string) :
  matches_items items type str = true <->
  exists it, it ∈ items /\
             (type = LOCATE_TAG_ANY_TYPE \/ item_type it = type) /\
             item_value it = str.
Proof.
  induction items as [|it items IH]; simpl.
  - split; [discriminate |]. intros (it & Hin & _). now apply elem_of_nil in Hin.
  - destruct (Z.eqb_spec type LOCATE_TAG_ANY_TYPE) as [Hany | Hany];
      destruct (Z.eqb_spec (item_type it) type) as [Hty | Hty]; simpl.
    all: try (destruct (strcmp_eq str (item_value it)) eqn:Hcmp;
           [ apply strcmp_eq_true in Hcmp; split; [| reflexivity]; intros _;
             exists it; split; [left | split; [tauto | now symmetry]]
           | rewrite IH; split;
             [ intros (it' & Hin & Hsel & Hval); exists it'; split; [now right | tauto]
             | intros (it' & Hin & Hsel & Hval);
               apply elem_of_cons in Hin as [-> | Hin];
               [ exfalso; apply not_true_iff_false in Hcmp; apply Hcmp;
                 apply strcmp_eq_true; now symmetry
               | exists it'; tauto ] ] ]).
    rewrite IH. split.
    + intros (it' & Hin & Hsel & Hval). exists it'. split; [now right | tauto].
    + intros (it' & Hin & Hsel & Hval).
      apply elem_of_cons in Hin as [-> | Hin]; [tauto |].
      exists it'. tauto.
Qed.

Lemma matches_items_strstr (items : list MpdTagItem) (type : Z) (str : string) :
  matches_items items type str = true ->
  strstr_items items type (strDupToUpper str) = true.
Proof.
  induction items as [|it items IH]; simpl; [discriminate |].
  destruct (negb (type =? LOCATE_TAG_ANY_TYPE) && negb (item_type it =? type));
    [exact IH |].
  destruct (strcmp_eq str (item_value it)) eqn:Hcmp.
  - apply strcmp_eq_true in Hcmp. subst str. now rewrite strstr_refl.
  - intros H. rewrite (IH H). now destruct (strstr _ _).
Qed.

(** What matches exactly matches as an upper-case substring. *)
Lemma exact_match_is_substring_match (song : Song) (type : Z) (str : string) :
  tagItemFoundAndMatches song type str = true ->
  strstrSearchTag song type (strDupToUpper str) = true.
Proof.
  unfold tagItemFoundAndMatches, strstrSearchTag.
  assert (Htag : match tag song with
                 | Some t => matches_items (tag_items t) type str
                 | None => false
                 end = true ->
                 match tag song with
                 | Some t => strstr_items (tag_items t) type (strDupToUpper str)
                 | None => false
                 end = true).
  { destruct (tag song); [apply matches_items_strstr | discriminate]. }
  destruct ((type =? LOCATE_TAG_FILE_TYPE) || (type =? LOCATE_TAG_ANY_TYPE));
    [| exact Htag].
  destruct (strcmp_eq str (getSongUrl song)) eqn:Hcmp.
  - apply strcmp_eq_true in Hcmp. rewrite <- Hcmp, strstr_refl. reflexivity.
  - destruct (type =? LOCATE_TAG_FILE_TYPE); [discriminate |].
    intros H. rewrite (Htag H), orb_false_r.
    now destruct (strstr _ _).
Qed.

Lemma find_matches_search_matches (crit : list (Z * string)) (song : Song) :
  find_matches crit song = true -> search_matches crit song = true.
Proof.
  unfold find_matches, search_matches, matches_all, upper_criteria.
  rewrite !forallb_forall. intros H c Hc.
  apply in_map_iff in Hc as ([t s] & <- & Hin). simpl.
  apply exact_match_is_substring_match. exact (H (t, s) Hin).
Qed.

End MatcherFacts.

(** C7.  The exact matcher, by the type of the criterion: [FILE] matches
    when the needle is the URL of the song; [ANY] matches when the
    needle is the URL or the value of an item of the tag; another type
    matches when the needle is the value of an item of that type; and a
    song without a tag matches a criterion that is not [FILE] only when
    the criterion is [ANY] and the needle is the URL. *)
Theorem tagItemFoundAndMatches_cases `{tbl : DbUtils.TagTable}
    (song : DbUtils.Song) (type : Z) (str : string) :
  (type = DbUtils.LOCATE_TAG_FILE_TYPE ->
   (DbUtils.tagItemFoundAndMatches song type str = true <-> str = DbUtils.url song)) /\
  (type = DbUtils.LOCATE_TAG_ANY_TYPE ->
   (DbUtils.tagItemFoundAndMatches song type str = true <->
    str = DbUtils.url song \/
    exists t it, DbUtils.tag song = Some t /\ it ∈ DbUtils.tag_items t /\
                 DbUtils.item_value it = str)) /\
  (type ≠ DbUtils.LOCATE_TAG_FILE_TYPE -> type ≠ DbUtils.LOCATE_TAG_ANY_TYPE ->
   (DbUtils.tagItemFoundAndMatches song type str = true <->
    exists t it, DbUtils.tag song = Some t /\ it ∈ DbUtils.tag_items t /\
                 DbUtils.item_type it = type /\ DbUtils.item_value it = str)) /\
  (DbUtils.tag song = None -> type ≠ DbUtils.LOCATE_TAG_FILE_TYPE ->
   (DbUtils.tagItemFoundAndMatches song type str = true <->
    type = DbUtils.LOCATE_TAG_ANY_TYPE /\ str = DbUtils.url song)).
Proof.
  pose proof file_type_not_any as Hdistinct.
  assert (Htag : match DbUtils.tag song with
                 | Some t => DbUtils.matches_items (DbUtils.tag_items t) type str
                 | None => false
                 end = true <->
                 exists t it, DbUtils.tag song = Some t /\ it ∈ DbUtils.tag_items t /\
                   (type = DbUtils.LOCATE_TAG_ANY_TYPE \/ DbUtils.item_type it = type) /\
                   DbUtils.item_value it = str).
  { destruct (DbUtils.tag song) as [t |].
    - rewrite matches_items_spec. split.
      + intros (it & Hin & Hsel & Hval). now exists t, it.
      + intros (t' & it & Ht & Hin & Hsel & Hval). inversion Ht; subst t'. now exists it.
    - split; [discriminate |]. intros (t & it & Ht & _). discriminate Ht. }
  unfold DbUtils.tagItemFoundAndMatches, DbUtils.getSongUrl.
  destruct (Z.eqb_spec type DbUtils.LOCATE_TAG_FILE_TYPE) as [Hfile | Hfile];
    destruct (Z.eqb_spec type DbUtils.LOCATE_TAG_ANY_TYPE) as [Hany | Hany];
    simpl; try congruence.
  - (* FILE *)
    split; [intros _ | split; [congruence | split; [congruence | intros _ ?; congruence]]].
    destruct (CStr.strcmp_eq str (DbUtils.url song)) eqn:Hcmp.
    + apply strcmp_eq_true in Hcmp. tauto.
    + split; [discriminate |]. intros Heq. apply strcmp_eq_true in Heq. congruence.
  - (* ANY *)
    split; [congruence |]. split; [intros _ | split; [congruence |]].
    + destruct (CStr.strcmp_eq str (DbUtils.url song)) eqn:Hcmp.
      * apply strcmp_eq_true in Hcmp. tauto.
      * rewrite Htag. split.
        -- intros (t & it & Ht & Hin & _ & Hval). right. now exists t, it.
        -- intros [Heq | (t & it & Ht & Hin & Hval)].
           ++ apply strcmp_eq_true in Heq. congruence.
           ++ exists t, it. tauto.
    + intros Hnone _.
      destruct (CStr.strcmp_eq str (DbUtils.url song)) eqn:Hcmp.
      * apply strcmp_eq_true in Hcmp. tauto.
      * rewrite Hnone. split; [discriminate |]. intros [_ Heq].
        apply strcmp_eq_true in Heq. congruence.
  - (* a tag type *)
    split; [congruence |]. split; [congruence |]. split.
    + intros _ _. rewrite Htag. split.
      * intros (t & it & Ht & Hin & [Hsel | Hsel] & Hval); [congruence |].
        now exists t, it.
      * intros (t & it & Ht & Hin & Hsel & Hval). exists t, it. tauto.
    + intros Hnone _. rewrite Hnone. split; [discriminate | tauto].
Qed.

Lemma tagItemFoundAndMatches_cases_witness :
  @DbUtils.tagItemFoundAndMatches sample_table sample_song_a 0 "AC/DC" = true /\
  @DbUtils.tagItemFoundAndMatches sample_table sample_song_b 23 "rock/b.mp3" = true.
Proof.
  split.
  - destruct (@tagItemFoundAndMatches_cases sample_table sample_song_a 0 "AC/DC")
      as (_ & _ & Htype & _).
    apply Htype; [vm_compute; discriminate | vm_compute; discriminate |].
    exists {| DbUtils.tag_items := [DbUtils.mkItem 0 "AC/DC"]; DbUtils.tag_time := 180 |},
      (DbUtils.mkItem 0 "AC/DC").
    repeat split. now left.
  - destruct (@tagItemFoundAndMatches_cases sample_table sample_song_b 23 "rock/b.mp3")
      as (_ & _ & _ & Hnotag).
    apply Hnotag; [reflexivity | vm_compute; discriminate |].
    split; reflexivity.
Defined.

(** ** The operations *)

Lemma sample_world_criteria : criteria_at sample_world 1%N [(0, "ac")].
Proof.
  intros [|m] t s Hm; [| discriminate Hm].
  inversion Hm; subst.
  exists [DbUtils.mkLocate (Some 0) (Some 1%N)], 1%N. repeat split.
Defined.

Section OperationFacts.
Import DbUtils.
Context {tbl : TagTable}.

Lemma traverseAllIn_not_found {S} (db : Directory) (name : option string)
    (forEachSong : option (Song -> M S Z)) (forEachDir : option (Directory -> M S Z))
    (st : S) :
  lookupDirectory db name = None ->
  traverseAllIn db name forEachSong forEachDir st = Some (DirectoryNotFound, st).
Proof. intros H. unfold traverseAllIn. now rewrite H. Qed.

Lemma walk_of_missing_root (db : Directory) (name : option string) :
  lookupDirectory db name = None ->
  walk_result db name = DirectoryNotFound /\ songs_under db name = [].
Proof. intros H. unfold walk_result, songs_under. now rewrite H. Qed.

Lemma set_out_same (w : World) : set_out (out w ++ []) w = w.
Proof. destruct w. unfold set_out. simpl. now rewrite app_nil_r. Qed.

End OperationFacts.

(** C1, as the code has it.  When the root is no directory of the
    catalog, find, search, the two listings and the two additions to a
    playlist return the failure of the walk as it is, and the state is
    the state before the call.  The count of songs and the sum of the
    times have no result of the walk to return: they return the value
    they have accumulated, which is 0. *)
Theorem directory_not_found_by_operation `{tbl : DbUtils.TagTable}
    (db : DbUtils.Directory) (name : option string) (w : DbUtils.World) :
  DbUtils.lookupDirectory db name = None ->
  (forall numItems items,
     DbUtils.findSongsIn db name numItems items w = Some (DbUtils.DirectoryNotFound, w)) /\
  (forall items crit,
     criteria_at w items crit ->
     DbUtils.searchForSongsIn db name (Z.of_nat (length crit)) items w
     = Some (DbUtils.DirectoryNotFound, w)) /\
  DbUtils.printAllIn db name w = Some (DbUtils.DirectoryNotFound, w) /\
  DbUtils.printInfoForAllIn db name w = Some (DbUtils.DirectoryNotFound, w) /\
  (forall addSongToPlaylist,
     DbUtils.addAllIn addSongToPlaylist db name w = Some (DbUtils.DirectoryNotFound, w)) /\
  (forall addSongToStoredPlaylist utf8file,
     DbUtils.addAllInToStoredPlaylist addSongToStoredPlaylist db name utf8file w
     = Some (DbUtils.DirectoryNotFound, w)) /\
  DbUtils.countSongsIn db name w = Some (0, w) /\
  DbUtils.sumSongTimesIn db name w = Some (0, w).
Proof.
  intros Hmissing.
  destruct (walk_of_missing_root db name Hmissing) as [Hres Hsongs].
  repeat split.
  - intros numItems items. now apply traverseAllIn_not_found.
  - intros items crit Hcrit.
    rewrite (searchForSongsIn_spec db name items crit w Hcrit), Hres, Hsongs.
    simpl. now rewrite set_out_same.
  - now apply traverseAllIn_not_found.
  - now apply traverseAllIn_not_found.
  - intros f. now apply traverseAllIn_not_found.
  - intros f utf8file. now apply traverseAllIn_not_found.
  - unfold DbUtils.countSongsIn, DbUtils.with_local.
    unfold DbUtils.bind at 1.
    now rewrite (traverseAllIn_not_found db name _ _ (w, 0) Hmissing).
  - unfold DbUtils.sumSongTimesIn, DbUtils.with_local.
    unfold DbUtils.bind at 1.
    now rewrite (traverseAllIn_not_found db name _ _ (w, 0) Hmissing).
Qed.

Lemma directory_not_found_by_operation_witness :
  @DbUtils.searchForSongsIn sample_table sample_db (Some "nope") 1 1%N sample_world
  = Some (DbUtils.DirectoryNotFound, sample_world) /\
  DbUtils.countSongsIn sample_db (Some "nope") sample_world = Some (0, sample_world).
Proof.
  assert (Hmissing : DbUtils.lookupDirectory sample_db (Some "nope") = None)
    by reflexivity.
  destruct (@directory_not_found_by_operation sample_table sample_db (Some "nope")
              sample_world Hmissing) as (_ & Hsearch & _ & _ & _ & _ & Hcount & _).
  split; [| exact Hcount].
  exact (Hsearch 1%N [(0, "ac")] sample_world_criteria).
Defined.

(** C1, as the claim states it, fails: on a root that is no directory the
    walk reports [DirectoryNotFound], and the count of songs and the sum
    of the times return 0, which is the count and the sum of a directory
    without songs, and not the failure. *)
Lemma count_of_missing_root :
  DbUtils.lookupDirectory sample_db (Some "nope") = None /\
  DbUtils.countSongsIn sample_db (Some "nope") empty_world = Some (0, empty_world) /\
  DbUtils.sumSongTimesIn sample_db (Some "nope") empty_world = Some (0, empty_world) /\
  DbUtils.countSongsIn sample_db (Some "nope") empty_world
  ≠ Some (DbUtils.DirectoryNotFound, empty_world) /\
  DbUtils.sumSongTimesIn sample_db (Some "nope") empty_world
  ≠ Some (DbUtils.DirectoryNotFound, empty_world).
Proof. repeat split; try reflexivity; discriminate. Qed.

(** C6.  On the same criteria and the same root, find and search return
    the same value; every song that matches the criteria exactly matches
    them as upper-case substrings, so that every song find writes is a
    song search writes. *)
Theorem find_subset_of_search `{tbl : DbUtils.TagTable}
    (db : DbUtils.Directory) (name : option string) (items : N)
    (crit : list (Z * string)) (w : DbUtils.World) :
  criteria_at w items crit ->
  let found_by_find := List.filter (find_matches crit) (songs_under db name) in
  let found_by_search := List.filter (search_matches crit) (songs_under db name) in
  DbUtils.findSongsIn db name (Z.of_nat (length crit)) items w
  = Some (walk_result db name,
          DbUtils.set_out (DbUtils.out w ++ map DbUtils.OutSongInfo found_by_find) w) /\
  DbUtils.searchForSongsIn db name (Z.of_nat (length crit)) items w
  = Some (walk_result db name,
          DbUtils.set_out (DbUtils.out w ++ map DbUtils.OutSongInfo found_by_search) w) /\
  (forall song, find_matches crit song = true -> search_matches crit song = true) /\
  (forall song, In song found_by_find -> In song found_by_search).
Proof.
  intros Hcrit found_by_find found_by_search.
  split; [now apply findSongsIn_spec |].
  split; [now apply searchForSongsIn_spec |].
  split; [apply find_matches_search_matches |].
  intros song Hin. subst found_by_find found_by_search.
  apply filter_In in Hin as [Hin Hfind]. apply filter_In.
  split; [exact Hin | now apply find_matches_search_matches].
Qed.

Lemma find_subset_of_search_witness :
  @DbUtils.findSongsIn sample_table sample_db (Some "rock") 1 1%N sample_world
  = Some (0, sample_world) /\
  @DbUtils.searchForSongsIn sample_table sample_db (Some "rock") 1 1%N sample_world
  = Some (0, DbUtils.set_out [DbUtils.OutSongInfo sample_song_a] sample_world).
Proof.
  destruct (@find_subset_of_search sample_table sample_db (Some "rock") 1%N
              [(0, "ac")] sample_world sample_world_criteria)
    as (Hfind & Hsearch & _).
  split; [exact Hfind | exact Hsearch].
Defined.

(** C10.  When the array at [items] holds the criteria, the search
    returns what the walk returns, whether the root is a directory or
    not; the walk has tested the songs against the upper-case copies of
    the needles; and at the return the buffers and the arrays of the
    memory are what they were at the call: every item has its needle
    back, and the copies are freed. *)
Theorem searchForSongsIn_restores_needles `{tbl : DbUtils.TagTable}
    (db : DbUtils.Directory) (name : option string) (items : N)
    (crit : list (Z * string)) (w : DbUtils.World) :
  criteria_at w items crit ->
  exists w' : DbUtils.World,
    DbUtils.searchForSongsIn db name (Z.of_nat (length crit)) items w
    = Some (walk_result db name, w') /\
    DbUtils.strs w' = DbUtils.strs w /\
    DbUtils.arrays w' = DbUtils.arrays w /\
    criteria_at w' items crit /\
    DbUtils.tracker w' = DbUtils.tracker w /\
    DbUtils.out w'
    = (DbUtils.out w ++ map DbUtils.OutSongInfo
         (List.filter (matches_all DbUtils.strstrSearchTag (upper_criteria crit))
            (songs_under db name)))%list.
Proof.
  intros Hcrit. eexists. split; [now apply searchForSongsIn_spec |].
  simpl. repeat split; try reflexivity.
  now apply (criteria_from_same_memory w).
Qed.

Lemma searchForSongsIn_restores_needles_witness :
  exists w' : DbUtils.World,
    @DbUtils.searchForSongsIn sample_table sample_db (Some "rock") 1 1%N sample_world
    = Some (0, w') /\
    DbUtils.strs w' = DbUtils.strs sample_world /\
    DbUtils.arrays w' = DbUtils.arrays sample_world.
Proof.
  destruct (@searchForSongsIn_restores_needles sample_table sample_db (Some "rock") 1%N
              [(0, "ac")] sample_world sample_world_criteria)
    as (w' & Hrun & Hstrs & Harrays & _).
  exists w'. repeat split; assumption.
Defined.

(** ** The list of the distinct values of a tag *)

#[local] Set Warnings "-clear-no-such-hyp".

Section CollectorFacts.
Import DbUtils.
Context {tbl : TagTable}.

Lemma first_seen_elem (vs : list string) :
  forall (seen : gset string) (x : string),
    x ∈ first_seen seen vs <-> x ∈ vs /\ x ∉ seen.
Proof.
  induction vs as [|v vs IH]; intros seen x; simpl.
  - split; [intros H | intros [H _]]; now apply elem_of_nil in H.
  - destruct (decide (v ∈ seen)) as [Hv | Hv].
    + rewrite IH, elem_of_cons. split; [tauto |].
      intros [[-> | H] Hx]; [contradiction | tauto].
    + rewrite !elem_of_cons, IH. split.
      * intros [-> | [H Hx]]; [tauto |]. split; [tauto | set_solver].
      * intros [[-> | H] Hx]; [tauto |].
        destruct (decide (x = v)) as [-> | Hne]; [tauto |].
        right. split; [exact H | set_solver].
Qed.

Lemma first_seen_NoDup (vs : list string) :
  forall seen : gset string, NoDup (first_seen seen vs).
Proof.
  induction vs as [|v vs IH]; intros seen; simpl; [constructor |].
  destruct (decide (v ∈ seen)); [apply IH |].
  constructor; [| apply IH].
  rewrite first_seen_elem. set_solver.
Qed.

Lemma first_seen_sublist (vs : list string) :
  forall seen : gset string, sublist (first_seen seen vs) vs.
Proof.
  induction vs as [|v vs IH]; intros seen; simpl; [constructor |].
  destruct (decide (v ∈ seen)); [apply sublist_cons | apply sublist_skip]; apply IH.
Qed.

Lemma visit_items_spec (items : list MpdTagItem) (type : Z) :
  forall w,
    visit_items items type w
    = Some (tt, fold_left (record_value type)
                  (map item_value (List.filter (fun it => item_type it =? type) items)) w).
Proof.
  induction items as [|it items IH]; intros w; simpl; [reflexivity |].
  destruct (item_type it =? type); simpl.
  - unfold bind at 1, visitInTagTracker, modify. now rewrite IH.
  - unfold bind at 1, ret. apply IH.
Qed.

Lemma visitTag_spec (song : Song) (type : Z) (w : World) :
  type ≠ LOCATE_TAG_FILE_TYPE ->
  visitTag song type w = Some (tt, fold_left (record_value type) (song_values type song) w).
Proof.
  intros Hfile. unfold visitTag, song_values.
  destruct (Z.eqb_spec type LOCATE_TAG_FILE_TYPE); [contradiction |].
  destruct (tag song); [apply visit_items_spec | reflexivity].
Qed.

(** Recording a list of values in a collector that holds [l]. *)
Lemma fold_record_value (type : Z) (vs : list string) :
  forall (w : World) (l : list string),
    tracker w !! type = Some l ->
    fold_left (record_value type) vs w
    = set_tracker
        (<[type := (l ++ first_seen (list_to_set l) vs)%list]> (tracker w)) w.
Proof.
  induction vs as [|v vs IH]; intros w l Hl; simpl.
  - rewrite app_nil_r, insert_id by exact Hl. now destruct w.
  - unfold record_value at 2. unfold visited. rewrite Hl. simpl.
    destruct (decide (v ∈ l)) as [Hv | Hv].
    + rewrite decide_True by (now apply elem_of_list_to_set). now apply IH.
    + rewrite decide_False by (now rewrite elem_of_list_to_set).
      rewrite (IH _ (l ++ [v])%list) by (simpl; apply lookup_insert_eq).
      apply world_eq; simpl; try reflexivity.
      rewrite insert_insert_eq, <- app_assoc. simpl.
      rewrite list_to_set_app_L. simpl.
      replace (list_to_set l ∪ ({[v]} ∪ ∅) : gset string)
        with ({[v]} ∪ list_to_set l : gset string) by set_solver.
      reflexivity.
Qed.

Lemma record_value_memory (type : Z) (vs : list string) :
  forall w,
    strs (fold_left (record_value type) vs w) = strs w /\
    arrays (fold_left (record_value type) vs w) = arrays w /\
    out (fold_left (record_value type) vs w) = out w.
Proof.
  induction vs as [|v vs IH]; intros w; simpl; [now repeat split |].
  destruct (IH (record_value type w v)) as (Hs & Ha & Ho).
  rewrite Hs, Ha, Ho. unfold record_value.
  destruct (decide (v ∈ visited w type)); now repeat split.
Qed.

Lemma listUniqueTagsInDirectory_spec (type : Z) (conds : N) (crit : list (Z * string))
    (song : Song) (w : World) :
  sint8 type ≠ LOCATE_TAG_FILE_TYPE ->
  criteria_at w conds crit ->
  listUniqueTagsInDirectory (newListCommandItem type (Z.of_nat (length crit)) conds) song w
  = Some (0, record_song (sint8 type) crit song w).
Proof.
  intros Hfile Hcrit. unfold listUniqueTagsInDirectory. simpl. rewrite Nat2Z.id.
  rewrite (bind_Some _ _ _ _ _ (all_match_spec _ _ song _ _ _ Hcrit)).
  unfold record_song, find_matches.
  destruct (matches_all tagItemFoundAndMatches crit song); [| reflexivity].
  now rewrite (bind_Some _ _ _ _ _ (visitTag_spec song _ w Hfile)).
Qed.

Lemma fold_record_song (type : Z) (crit : list (Z * string)) (l : list Song) :
  forall w,
    fold_left (fun w song => record_song type crit song w) l w
    = fold_left (record_value type)
        (flat_map (song_values type) (List.filter (find_matches crit) l)) w.
Proof.
  induction l as [|song l IH]; intros w; simpl; [reflexivity |].
  rewrite IH. unfold record_song.
  destruct (find_matches crit song); [| reflexivity].
  simpl. now rewrite fold_left_app.
Qed.

(** The walk of the list, for a type that is not [FILE], from a world
    whose collector for the type holds [l]. *)
Lemma list_walk_spec (db : Directory) (type : Z) (conds : N) (crit : list (Z * string))
    (w : World) (l : list string) :
  sint8 type = type ->
  type ≠ LOCATE_TAG_FILE_TYPE ->
  criteria_at w conds crit ->
  tracker w !! type = Some l ->
  traverseAllIn db None
    (Some (listUniqueTagsInDirectory
             (newListCommandItem type (Z.of_nat (length crit)) conds))) None w
  = Some (0, set_tracker
               (<[type := (l ++ first_seen (list_to_set l)
                                  (listed_values db type crit))%list]> (tracker w)) w).
Proof.
  intros Hsint Hfile Hcrit Hl.
  destruct (traverseAllIn_songs
              (listUniqueTagsInDirectory
                 (newListCommandItem type (Z.of_nat (length crit)) conds))
              (fun song w => record_song type crit song w)
              (fun w' => strs w' = strs w /\ arrays w' = arrays w)) with (db := db)
    (name := @None string) (st := w) as [Hrun _].
  - intros song st [Hs Ha]. exists 0. split.
    + rewrite listUniqueTagsInDirectory_spec.
      * now rewrite Hsint.
      * now rewrite Hsint.
      * now apply (criteria_from_same_memory w).
    + unfold record_song. destruct (find_matches crit song); [| now split].
      destruct (record_value_memory type (song_values type song) st) as (Hs' & Ha' & _).
      split; congruence.
  - now split.
  - rewrite Hrun. unfold walk_result, songs_under. simpl.
    rewrite fold_record_song. now rewrite (fold_record_value type _ w l Hl).
Qed.

(** The list of a type within the bounds that [listAllUniqueTags]
    tests: the collector of the type is reset, filled by the walk and
    written. *)
Lemma listAllUniqueTags_collects (db : Directory) (type : Z) (conds : N)
    (crit : list (Z * string)) (w : World) :
  0 <= type <= TAG_NUM_OF_ITEM_TYPES ->
  type <= 127 ->
  criteria_at w conds crit ->
  listAllUniqueTags db type (Z.of_nat (length crit)) conds w
  = Some (0, {| strs := strs w;
                arrays := arrays w;
                tracker := delete type (tracker w);
                out := (out w ++ map (OutVisited type)
                          (first_seen ∅ (listed_values db type crit)))%list |}).
Proof.
  intros Hrange Hsmall Hcrit. unfold listAllUniqueTags.
  assert (Hguard : (0 <=? type) && (type <=? TAG_NUM_OF_ITEM_TYPES) = true).
  { apply andb_true_intro. split; apply Z.leb_le; lia. }
  rewrite Hguard.
  unfold bind at 1, resetVisitedFlagsInTagTracker, modify.
  erewrite bind_Some.
  2:{ apply list_walk_spec with (l := []).
      - unfold sint8. rewrite Z.mod_small by lia. lia.
      - unfold LOCATE_TAG_FILE_TYPE. lia.
      - now apply (criteria_from_same_memory w).
      - simpl. apply lookup_insert_eq. }
  unfold bind at 1, printVisitedInTagTracker, modify, ret. simpl.
  f_equal. f_equal. apply world_eq; simpl; try reflexivity.
  - now rewrite insert_insert_eq, delete_insert_eq.
  - unfold visited. simpl. now rewrite lookup_insert_eq.
Qed.

(** The list of the type [FILE]: the walk writes the URL of every song
    that matches, and the collector takes no part. *)
Lemma listAllUniqueTags_file (db : Directory) (conds : N) (crit : list (Z * string))
    (w : World) :
  LOCATE_TAG_FILE_TYPE <= 127 ->
  criteria_at w conds crit ->
  listAllUniqueTags db LOCATE_TAG_FILE_TYPE (Z.of_nat (length crit)) conds w
  = Some (0, set_out (out w ++ map OutSongUrl
                        (List.filter (find_matches crit) (all_songs db))) w).
Proof.
  intros Hsmall Hcrit. unfold listAllUniqueTags.
  assert (Hguard : (0 <=? LOCATE_TAG_FILE_TYPE)
                   && (LOCATE_TAG_FILE_TYPE <=? TAG_NUM_OF_ITEM_TYPES) = false).
  { apply andb_false_intro2. apply Z.leb_gt. unfold LOCATE_TAG_FILE_TYPE. lia. }
  rewrite Hguard. unfold bind at 1, ret.
  assert (Hsint : sint8 LOCATE_TAG_FILE_TYPE = LOCATE_TAG_FILE_TYPE).
  { unfold sint8. unfold LOCATE_TAG_FILE_TYPE, TAG_NUM_OF_ITEM_TYPES in *.
    rewrite Z.mod_small by lia. lia. }
  destruct (traverseAllIn_songs
              (listUniqueTagsInDirectory
                 (newListCommandItem LOCATE_TAG_FILE_TYPE (Z.of_nat (length crit)) conds))
              (fun song w => if find_matches crit song
                             then set_out (out w ++ [OutSongUrl song]) w else w)
              (fun w' => strs w' = strs w /\ arrays w' = arrays w)) with (db := db)
    (name := @None string) (st := w) as [Hrun _].
  - intros song st [Hs Ha]. exists 0. split.
    + unfold listUniqueTagsInDirectory. simpl. rewrite Nat2Z.id, Hsint.
      erewrite bind_Some.
      2:{ apply all_match_spec. now apply (criteria_from_same_memory w). }
      unfold find_matches.
      destruct (matches_all tagItemFoundAndMatches crit song); [| reflexivity].
      unfold visitTag. rewrite Z.eqb_refl. reflexivity.
    + destruct (find_matches crit song); simpl; now split.
  - now split.
  - rewrite (bind_Some _ _ _ _ _ Hrun). unfold bind at 1, ret.
    unfold walk_result, songs_under. simpl.
    now rewrite fold_emit_filter.
Qed.

(** The list of a type outside the bounds that [listAllUniqueTags]
    tests is the walk alone. *)
Lemma listAllUniqueTags_unguarded (db : Directory) (type numConditionals : Z)
    (conds : N) (w : World) :
  type < 0 \/ TAG_NUM_OF_ITEM_TYPES < type ->
  listAllUniqueTags db type numConditionals conds w
  = traverseAllIn db None
      (Some (listUniqueTagsInDirectory (newListCommandItem type numConditionals conds)))
      None w.
Proof.
  intros Hout. unfold listAllUniqueTags.
  assert (Hguard : (0 <=? type) && (type <=? TAG_NUM_OF_ITEM_TYPES) = false).
  { destruct Hout; [apply andb_false_intro1 | apply andb_false_intro2];
      apply Z.leb_gt; lia. }
  rewrite Hguard. unfold bind, ret.
  destruct (traverseAllIn _ _ _ _ w) as [[r w'] |]; reflexivity.
Qed.

(** The types that a key resolves to: no key resolves to
    [TAG_NUM_OF_ITEM_TYPES]. *)
Lemma find_key_range (keys : list string) (str : string) :
  forall i, find_key keys str i = -1 \/
            i <= find_key keys str i < i + Z.of_nat (length keys).
Proof.
  induction keys as [|k keys IH]; intros i; simpl; [now left |].
  destruct (CStr.strcasecmp_eq str k); [right; lia |].
  destruct (IH (i + 1)) as [-> | H]; [now left | right; lia].
Qed.

Lemma getLocateTagItemType_range (str : string) :
  getLocateTagItemType str = -1 \/
  0 <= getLocateTagItemType str < TAG_NUM_OF_ITEM_TYPES \/
  getLocateTagItemType str = LOCATE_TAG_FILE_TYPE \/
  getLocateTagItemType str = LOCATE_TAG_ANY_TYPE.
Proof.
  unfold getLocateTagItemType.
  destruct (_ || _); [tauto |].
  destruct (CStr.strcasecmp_eq str LOCATE_TAG_ANY_KEY); [tauto |].
  destruct (find_key_range mpdTagItemKeys str 0) as [-> | H]; [tauto |].
  right. left. unfold TAG_NUM_OF_ITEM_TYPES. lia.
Qed.

Lemma song_values_lacking (type : Z) (song : Song) :
  (forall t it, tag song = Some t -> it ∈ tag_items t -> item_type it ≠ type) ->
  song_values type song = [].
Proof.
  intros Hlack. unfold song_values. destruct (tag song) as [t |]; [| reflexivity].
  specialize (Hlack t). induction (tag_items t) as [|it items IH]; [reflexivity |].
  simpl. destruct (Z.eqb_spec (item_type it) type) as [Heq | _].
  - exfalso. apply (Hlack it eq_refl); [now left | exact Heq].
  - apply IH. intros it' Ht Hin. apply Hlack; [exact Ht | now right].
Qed.

End CollectorFacts.

(** C3, as the code has it.  For a tag type of the table, the list
    resets the collector of the type, the walk records in it the values
    of that type of every song that matches the criteria, and the list
    writes them after the walk in the order in which they were first
    seen, each value once; a song without an item of the type adds no
    value.  For the type [FILE] the collector takes no part: the walk
    itself writes the URL of every song that matches, in the order of
    the walk.  The codes of the types are codes that an [mpd_sint8]
    holds. *)
Theorem listAllUniqueTags_distinct_values `{tbl : DbUtils.TagTable}
    (db : DbUtils.Directory) (type : Z) (conds : N) (crit : list (Z * string))
    (w : DbUtils.World) :
  criteria_at w conds crit ->
  DbUtils.LOCATE_TAG_FILE_TYPE <= 127 ->
  (0 <= type < DbUtils.TAG_NUM_OF_ITEM_TYPES ->
   let values := listed_values db type crit in
   DbUtils.listAllUniqueTags db type (Z.of_nat (length crit)) conds w
   = Some (0, {| DbUtils.strs := DbUtils.strs w;
                 DbUtils.arrays := DbUtils.arrays w;
                 DbUtils.tracker := delete type (DbUtils.tracker w);
                 DbUtils.out := (DbUtils.out w ++
                                 map (DbUtils.OutVisited type) (first_seen ∅ values))%list |}) /\
   DbUtils.traverseAllIn db None
     (Some (DbUtils.listUniqueTagsInDirectory
              (DbUtils.newListCommandItem type (Z.of_nat (length crit)) conds)))
     None (DbUtils.set_tracker (<[type := []]> (DbUtils.tracker w)) w)
   = Some (0, DbUtils.set_tracker
                (<[type := first_seen ∅ values]> (DbUtils.tracker w)) w) /\
   NoDup (first_seen ∅ values) /\
   sublist (first_seen ∅ values) values /\
   (forall v, v ∈ first_seen ∅ values <-> v ∈ values) /\
   (forall song,
      (forall t it, DbUtils.tag song = Some t -> it ∈ DbUtils.tag_items t ->
                    DbUtils.item_type it ≠ type) ->
      song_values type song = [])) /\
  (type = DbUtils.LOCATE_TAG_FILE_TYPE ->
   DbUtils.listAllUniqueTags db type (Z.of_nat (length crit)) conds w
   = Some (0, DbUtils.set_out
                (DbUtils.out w ++ map DbUtils.OutSongUrl
                   (List.filter (find_matches crit) (all_songs db))) w)).
Proof.
  intros Hcrit Hsmall. split.
  - intros Htype values.
    assert (Hbyte : type <= 127) by (unfold DbUtils.LOCATE_TAG_FILE_TYPE in Hsmall; lia).
    split; [apply listAllUniqueTags_collects; [lia | exact Hbyte | exact Hcrit] |].
    split.
    + rewrite (list_walk_spec db type conds crit _ []).
      * f_equal. f_equal. apply world_eq; try reflexivity.
        simpl. apply insert_insert_eq.
      * unfold DbUtils.sint8. rewrite Z.mod_small by lia. lia.
      * unfold DbUtils.LOCATE_TAG_FILE_TYPE. lia.
      * now apply (criteria_from_same_memory w).
      * simpl. apply lookup_insert_eq.
    + split; [apply first_seen_NoDup |].
      split; [apply first_seen_sublist |].
      split; [| apply song_values_lacking].
      intros v. rewrite first_seen_elem. set_solver.
  - intros ->. now apply listAllUniqueTags_file.
Qed.

Lemma listAllUniqueTags_distinct_values_witness :
  @DbUtils.listAllUniqueTags sample_table sample_db 0 1 1%N sample_world
  = Some (0, sample_world) /\
  @DbUtils.listAllUniqueTags sample_table sample_db 0 0 DbUtils.NULL empty_world
  = Some (0, DbUtils.set_out [DbUtils.OutVisited 0 "AC/DC"] empty_world).
Proof.
  assert (Hsmall : @DbUtils.LOCATE_TAG_FILE_TYPE sample_table <= 127)
    by (vm_compute; discriminate).
  assert (Htype : 0 <= 0 < @DbUtils.TAG_NUM_OF_ITEM_TYPES sample_table)
    by (vm_compute; split; [discriminate | reflexivity]).
  assert (Hnone : criteria_at empty_world DbUtils.NULL []).
  { intros m t s Hm. discriminate Hm. }
  split.
  - exact (proj1 (proj1 (@listAllUniqueTags_distinct_values sample_table sample_db 0 1%N
                           [(0, "ac")] sample_world sample_world_criteria Hsmall) Htype)).
  - exact (proj1 (proj1 (@listAllUniqueTags_distinct_values sample_table sample_db 0
                           DbUtils.NULL [] empty_world Hnone Hsmall) Htype)).
Defined.

(** C3, as the claim states it, fails for the type [FILE]: the URL of a
    song that matches is not recorded in the collector.  After the walk
    of the list of [FILE] over the sample catalog the collector holds
    no value for any type, and the URL is in the text that the visitor
    has written. *)
Lemma list_of_file_bypasses_collector :
  exists w' : DbUtils.World,
    DbUtils.traverseAllIn sample_db None
      (Some (@DbUtils.listUniqueTagsInDirectory sample_table
               (DbUtils.newListCommandItem (@DbUtils.LOCATE_TAG_FILE_TYPE sample_table)
                  0 DbUtils.NULL)))
      None empty_world
    = Some (0, w') /\
    ~ (exists type, "rock/a.mp3" ∈ DbUtils.visited w' type) /\
    DbUtils.out w' = [DbUtils.OutSongUrl sample_song_a; DbUtils.OutSongUrl sample_song_b] /\
    @DbUtils.listAllUniqueTags sample_table sample_db
      (@DbUtils.LOCATE_TAG_FILE_TYPE sample_table) 0 DbUtils.NULL empty_world
    = Some (0, w').
Proof.
  exists (DbUtils.set_out
            [DbUtils.OutSongUrl sample_song_a; DbUtils.OutSongUrl sample_song_b]
            empty_world).
  split; [vm_compute; reflexivity |].
  split; [| split; [reflexivity | vm_compute; reflexivity]].
  intros [type Hin]. unfold DbUtils.visited in Hin. simpl in Hin.
  rewrite lookup_empty in Hin. simpl in Hin. now apply elem_of_nil in Hin.
Qed.

(** C9.  Below 0 and above [TAG_NUM_OF_ITEM_TYPES], which is where the
    codes of [FILE] and [ANY] are, the list is the walk alone: the
    collector is not reset and not written.  At
    [TAG_NUM_OF_ITEM_TYPES] itself, which is the number of the tag types
    and the type of no key, the bound tested lets the call through: the
    collector of that code is reset before the walk and written and
    emptied after it. *)
Theorem listAllUniqueTags_bounds `{tbl : DbUtils.TagTable}
    (db : DbUtils.Directory) (type : Z) (conds : N) (crit : list (Z * string))
    (w : DbUtils.World) :
  criteria_at w conds crit ->
  DbUtils.TAG_NUM_OF_ITEM_TYPES <= 127 ->
  (type < 0 \/ DbUtils.TAG_NUM_OF_ITEM_TYPES < type ->
   DbUtils.listAllUniqueTags db type (Z.of_nat (length crit)) conds w
   = DbUtils.traverseAllIn db None
       (Some (DbUtils.listUniqueTagsInDirectory
                (DbUtils.newListCommandItem type (Z.of_nat (length crit)) conds)))
       None w) /\
  DbUtils.listAllUniqueTags db DbUtils.TAG_NUM_OF_ITEM_TYPES (Z.of_nat (length crit)) conds w
  = Some (0, {| DbUtils.strs := DbUtils.strs w;
                DbUtils.arrays := DbUtils.arrays w;
                DbUtils.tracker := delete DbUtils.TAG_NUM_OF_ITEM_TYPES (DbUtils.tracker w);
                DbUtils.out :=
                  (DbUtils.out w ++
                   map (DbUtils.OutVisited DbUtils.TAG_NUM_OF_ITEM_TYPES)
                     (first_seen ∅
                        (listed_values db DbUtils.TAG_NUM_OF_ITEM_TYPES crit)))%list |}) /\
  (forall str, DbUtils.getLocateTagItemType str ≠ DbUtils.TAG_NUM_OF_ITEM_TYPES).
Proof.
  intros Hcrit Hsmall. split; [| split].
  - apply listAllUniqueTags_unguarded.
  - apply listAllUniqueTags_collects; [| exact Hsmall | exact Hcrit].
    unfold DbUtils.TAG_NUM_OF_ITEM_TYPES. lia.
  - intros str.
    destruct (getLocateTagItemType_range str) as [H | [H | [H | H]]];
      unfold DbUtils.LOCATE_TAG_FILE_TYPE, DbUtils.LOCATE_TAG_ANY_TYPE in *;
      unfold DbUtils.TAG_NUM_OF_ITEM_TYPES in *; lia.
Qed.

Lemma listAllUniqueTags_bounds_witness :
  @DbUtils.TAG_NUM_OF_ITEM_TYPES sample_table = 3 /\
  @DbUtils.listAllUniqueTags sample_table sample_db 3 0 DbUtils.NULL stale_world
  = Some (0, empty_world) /\
  @DbUtils.listAllUniqueTags sample_table sample_db 4 0 DbUtils.NULL stale_world
  = Some (0, stale_world).
Proof.
  assert (Hsmall : @DbUtils.TAG_NUM_OF_ITEM_TYPES sample_table <= 127)
    by (vm_compute; discriminate).
  assert (Hnone : criteria_at stale_world DbUtils.NULL []).
  { intros m t s Hm. discriminate Hm. }
  split; [reflexivity |].
  split.
  - destruct (@listAllUniqueTags_bounds sample_table sample_db 3 DbUtils.NULL []
                stale_world Hnone Hsmall) as (_ & Hat & _).
    change (@DbUtils.TAG_NUM_OF_ITEM_TYPES sample_table) with 3 in Hat.
    change (Z.of_nat (length [])) with 0 in Hat. rewrite Hat.
    reflexivity.
  - destruct (@listAllUniqueTags_bounds sample_table sample_db 4 DbUtils.NULL []
                stale_world Hnone Hsmall) as (Hout & _).
    change (Z.of_nat (length [])) with 0 in Hout. rewrite Hout; [reflexivity |].
    right. vm_compute. reflexivity.
Defined.

(** * Further properties of the code *)

(** ** The walk with both visitors *)

Section VisitFacts.
Import CStr DbUtils.
Context {tbl : TagTable}.

Section Visits.
Context {S : Type} (fd : option (Directory -> M S Z)) (fs : option (Song -> M S Z)).
Context (gd : Directory -> S -> S) (gs : Song -> S -> S) (I : S -> Prop).
Hypothesis fd_step : forall d st, I st -> exists r, call fd d st = Some (r, gd d st) /\ I (gd d st).
Hypothesis fs_step : forall s st, I st -> exists r, call fs s st = Some (r, gs s st) /\ I (gs s st).

Lemma for_each_visits (ss : list Song) (st : S) :
  I st ->
  for_each (call fs) ss st = Some (tt, fold_left (visit gd gs) (map inr ss) st) /\
  I (fold_left (visit gd gs) (map inr ss) st).
Proof.
  revert st; induction ss as [|s ss IH]; intros st HI; simpl.
  - split; [reflexivity | exact HI].
  - destruct (fs_step s st HI) as (r & Hr & HI').
    unfold bind at 1. rewrite Hr. apply IH, HI'.
Qed.

Lemma traverse_visits (d : Directory) :
  forall st, I st ->
  traverseAllInSubDirectory fs fd d st = Some (0, fold_left (visit gd gs) (walk_visits d) st) /\
  I (fold_left (visit gd gs) (walk_visits d) st).
Proof.
  induction d as [p ss subs IH] using Directory_nested_ind; intros st HI.
  cbn [traverseAllInSubDirectory walk_visits].
  destruct (fd_step (Dir p ss subs) st HI) as (r & Hr & HI1).
  unfold bind at 1. rewrite Hr.
  rewrite fold_left_cons' || idtac.
  destruct (for_each_visits ss _ HI1) as (Hss & HI2).
  unfold bind at 1. rewrite Hss.
  simpl fold_left. rewrite fold_left_app.
  revert HI2. generalize (fold_left (visit gd gs) (map inr ss) (gd (Dir p ss subs) st)).
  clear Hss HI1 Hr HI.
  induction IH as [|d' rest Hd' _ IHrest]; intros st' HI'.
  - split; [reflexivity | exact HI'].
  - destruct (Hd' st' HI') as (Hrun & HI'').
    unfold bind at 1. rewrite Hrun. rewrite fold_left_app. apply IHrest, HI''.
Qed.

Lemma traverseAllIn_visits (db : Directory) (name : option string) (st : S) :
  I st ->
  traverseAllIn db name fs fd st
  = Some (walk_result db name, fold_left (visit gd gs) (visits_under db name) st) /\
  I (fold_left (visit gd gs) (visits_under db name) st).
Proof.
  intros HI. unfold traverseAllIn, walk_result, visits_under.
  destruct (lookupDirectory db name) as [d|].
  - apply traverse_visits, HI.
  - split; [reflexivity | exact HI].
Qed.

End Visits.

Lemma songs_of_app (a b : list (Directory + Song)) :
  songs_of (a ++ b) = (songs_of a ++ songs_of b)%list.
Proof. apply omap_app. Qed.

Lemma songs_of_songs (ss : list Song) : songs_of (map inr ss) = ss.
Proof. induction ss as [|s ss IH]; simpl; [reflexivity | unfold songs_of in *; simpl; now rewrite IH]. Qed.

Lemma songs_of_walk (d : Directory) : songs_of (walk_visits d) = all_songs d.
Proof.
  induction d as [p ss subs IH] using Directory_nested_ind.
  cbn [walk_visits all_songs].
  change (songs_of (inl (Dir p ss subs) :: ?l)) with (songs_of l).
  rewrite songs_of_app, songs_of_songs. f_equal.
  induction IH as [|d' rest Hd' _ IHrest]; [reflexivity|].
  rewrite songs_of_app, Hd', IHrest. reflexivity.
Qed.

Lemma songs_of_under (db : Directory) (name : option string) :
  songs_of (visits_under db name) = songs_under db name.
Proof.
  unfold visits_under, songs_under. destruct (lookupDirectory db name); [apply songs_of_walk | reflexivity].
Qed.

End VisitFacts.

(** ** Counting, summing and listing *)

Section CountFacts.
Import CStr DbUtils.
Context {tbl : TagTable}.

Lemma wrap_int_add_l (a b : Z) : wrap_int (wrap_int a + b) = wrap_int (a + b).
Proof.
  unfold wrap_int. f_equal.
  replace ((a + 2 ^ 31) mod 2 ^ 32 - 2 ^ 31 + b + 2 ^ 31)
    with ((a + 2 ^ 31) mod 2 ^ 32 + b) by lia.
  rewrite Z.add_mod_idemp_l by lia. f_equal. lia.
Qed.

Lemma wrap_int_small (z : Z) : - 2 ^ 31 <= z < 2 ^ 31 -> wrap_int z = z.
Proof. intros H. unfold wrap_int. rewrite Z.mod_small; lia. Qed.

Lemma wrap_ulong_add_l (a b : Z) : wrap_ulong (wrap_ulong a + b) = wrap_ulong (a + b).
Proof. unfold wrap_ulong. apply Z.add_mod_idemp_l. lia. Qed.

Lemma directories_of_app (a b : list (Directory + Song)) :
  directories_of (a ++ b) = (directories_of a ++ directories_of b)%list.
Proof. apply omap_app. Qed.

Lemma directories_of_songs (ss : list Song) : directories_of (map inr ss) = [].
Proof. induction ss as [|s ss IH]; [reflexivity | exact IH]. Qed.

Lemma sum_Z_app (a b : list Z) : sum_Z (a ++ b) = sum_Z a + sum_Z b.
Proof. induction a as [|x a IH]; simpl; [reflexivity | rewrite IH; lia]. Qed.

(** The songs of the directories of a walk are the songs of the walk. *)
Lemma songs_of_directories (d : Directory) :
  sum_Z (map (fun d' => Z.of_nat (length (songs d'))) (directories_of (walk_visits d)))
  = Z.of_nat (length (all_songs d)).
Proof.
  induction d as [p ss subs IH] using Directory_nested_ind.
  cbn [walk_visits all_songs].
  change (directories_of (inl (Dir p ss subs) :: ?l)) with (Dir p ss subs :: directories_of l).
  rewrite directories_of_app, directories_of_songs. simpl app.
  rewrite length_app, Nat2Z.inj_add. simpl map. simpl sum_Z. f_equal.
  induction IH as [|d' rest Hd' _ IHrest]; [reflexivity |].
  rewrite directories_of_app, map_app, sum_Z_app, Hd', IHrest, length_app. lia.
Qed.

Lemma fold_count (visits : list (Directory + Song)) :
  forall (w : World) (c : Z),
    fold_left (visit (fun d (st : World * Z) =>
                        (fst st, wrap_int (snd st + Z.of_nat (length (songs d)))))
                     (fun _ st => st)) visits (w, c)
    = (w, if directories_of visits is [] then c
          else wrap_int (c + sum_Z (map (fun d => Z.of_nat (length (songs d)))
                                      (directories_of visits)))).
Proof.
  induction visits as [|[d | s] visits IH]; intros w c; [reflexivity | |].
  - cbn [fold_left visit fst snd]. rewrite IH.
    change (directories_of (inl d :: visits)) with (d :: directories_of visits).
    f_equal. destruct (directories_of visits) as [|d1 ds].
    + simpl. f_equal. lia.
    + rewrite wrap_int_add_l. f_equal. simpl. lia.
  - cbn [fold_left visit]. rewrite IH. reflexivity.
Qed.

Lemma fold_sum (ss : list Song) :
  forall (w : World) (c : Z),
    0 <= c < 2 ^ 64 ->
    fold_left (fun (st : World * Z) song => (fst st, wrap_ulong (snd st + known_time song)))
      ss (w, c)
    = (w, wrap_ulong (c + sum_Z (map known_time ss))).
Proof.
  induction ss as [|s ss IH]; intros w c Hc.
  - simpl. unfold wrap_ulong. rewrite Z.add_0_r, Z.mod_small; [reflexivity | lia].
  - cbn [fold_left fst snd]. rewrite IH.
    + rewrite wrap_ulong_add_l. f_equal. f_equal. simpl. lia.
    + unfold wrap_ulong. apply Z.mod_pos_bound. lia.
Qed.

Lemma sumSongTime_effect (song : Song) (st : World * Z) :
  0 <= snd st < 2 ^ 64 ->
  sumSongTime song st = Some (0, (fst st, wrap_ulong (snd st + known_time song))).
Proof.
  intros Hc. unfold sumSongTime, known_time. destruct (tag song) as [t |].
  - destruct (0 <=? tag_time t); [reflexivity |].
    unfold ret. rewrite Z.add_0_r. unfold wrap_ulong. rewrite Z.mod_small by lia.
    now destruct st.
  - unfold ret. rewrite Z.add_0_r. unfold wrap_ulong. rewrite Z.mod_small by lia.
    now destruct st.
Qed.

Lemma fold_listing (record : Song -> Output) (visits : list (Directory + Song)) :
  forall w : World,
    fold_left (visit (fun d w => set_out (out w ++ directory_line d) w)
                     (fun s w => set_out (out w ++ [record s]) w)) visits w
    = set_out (out w ++ listing record visits) w.
Proof.
  induction visits as [|e visits IH]; intros w.
  - simpl. rewrite app_nil_r. now destruct w.
  - cbn [fold_left]. rewrite IH. unfold listing. cbn [flat_map].
    destruct e as [d | s]; simpl; unfold set_out; simpl; now rewrite <- app_assoc.
Qed.

Lemma printDirectoryInDirectory_effect (d : Directory) (w : World) :
  printDirectoryInDirectory d w = Some (0, set_out (out w ++ directory_line d) w).
Proof.
  unfold printDirectoryInDirectory, directory_line. destruct (path d); [reflexivity |].
  unfold ret. rewrite app_nil_r. now destruct w.
Qed.

Lemma listing_walk (song_visitor : Song -> M World Z) (record : Song -> Output)
    (db : Directory) (name : option string) (w : World) :
  (forall s w', song_visitor s w' = Some (0, set_out (out w' ++ [record s]) w')) ->
  traverseAllIn db name (Some song_visitor) (Some printDirectoryInDirectory) w
  = Some (walk_result db name,
          set_out (out w ++ listing record (visits_under db name)) w).
Proof.
  intros Hvisitor.
  destruct (traverseAllIn_visits (Some printDirectoryInDirectory) (Some song_visitor)
              (fun d w => set_out (out w ++ directory_line d) w)
              (fun s w => set_out (out w ++ [record s]) w)
              (fun _ => True)) with (db := db) (name := name) (st := w) as [Hrun _].
  - intros d st _. exists 0. split; [apply printDirectoryInDirectory_effect | exact I].
  - intros s st _. exists 0. split; [apply Hvisitor | exact I].
  - exact I.
  - rewrite Hrun. now rewrite fold_listing.
Qed.

End CountFacts.

(** [countSongsIn] leaves the world as it is and returns the number
    of songs below the root, reduced to the range of [int]: the number
    itself when it is less than 2^31.  A root that is no directory has
    no song. *)
Theorem countSongsIn_counts
    (db : DbUtils.Directory) (name : option string) (w : DbUtils.World) :
  DbUtils.countSongsIn db name w
  = Some (DbUtils.wrap_int (Z.of_nat (length (songs_under db name))), w) /\
  (Z.of_nat (length (songs_under db name)) < 2 ^ 31 ->
   DbUtils.countSongsIn db name w = Some (Z.of_nat (length (songs_under db name)), w)).
Proof.
  assert (Hcount : DbUtils.countSongsIn db name w
                   = Some (DbUtils.wrap_int (Z.of_nat (length (songs_under db name))), w)).
  { unfold DbUtils.countSongsIn, DbUtils.with_local.
    destruct (traverseAllIn_visits (Some DbUtils.countSongsInDirectory) None
                (fun d (st : DbUtils.World * Z) =>
                   (fst st, DbUtils.wrap_int (snd st + Z.of_nat (length (DbUtils.songs d)))))
                (fun _ st => st) (fun _ => True))
      with (db := db) (name := name) (st := (w, 0)) as [Hrun _].
    - intros d st _. exists 0. split; [reflexivity | exact I].
    - intros s st _. exists 0. split; [reflexivity | exact I].
    - exact I.
    - unfold DbUtils.bind at 1. rewrite Hrun, fold_count.
      unfold DbUtils.ret. cbn [snd]. f_equal. f_equal.
      unfold visits_under, songs_under.
      destruct (DbUtils.lookupDirectory db name) as [d |]; [| reflexivity].
      rewrite <- songs_of_directories.
      destruct d as [p ss subs]. reflexivity. }
  split; [exact Hcount |].
  intros Hsmall. rewrite Hcount. f_equal. f_equal.
  apply wrap_int_small. lia.
Qed.

Lemma countSongsIn_counts_witness :
  DbUtils.countSongsIn sample_db (Some "rock") empty_world = Some (2, empty_world).
Proof.
  apply (countSongsIn_counts sample_db (Some "rock") empty_world).
  vm_compute. reflexivity.
Defined.

(** [sumSongTimesIn] leaves the world as it is and returns the sum
    of the times of the songs below the root whose tag has a known
    time, modulo 2^64. *)
Theorem sumSongTimesIn_sums
    (db : DbUtils.Directory) (name : option string) (w : DbUtils.World) :
  DbUtils.sumSongTimesIn db name w
  = Some (sum_Z (map known_time (songs_under db name)) mod 2 ^ 64, w).
Proof.
  unfold DbUtils.sumSongTimesIn, DbUtils.with_local.
  destruct (traverseAllIn_songs DbUtils.sumSongTime
              (fun song (st : DbUtils.World * Z) =>
                 (fst st, DbUtils.wrap_ulong (snd st + known_time song)))
              (fun st => 0 <= snd st < 2 ^ 64))
    with (db := db) (name := name) (st := (w, 0)) as [Hrun _].
  - intros song st Hst. exists 0. split; [now apply sumSongTime_effect |].
    cbn [snd]. apply Z.mod_pos_bound. lia.
  - simpl. lia.
  - unfold DbUtils.bind at 1. rewrite Hrun, fold_sum by lia.
    reflexivity.
Qed.

Section ListingFacts.
Import CStr DbUtils.
Context {tbl : TagTable}.

Lemma listing_app (record : Song -> Output) (a b : list (Directory + Song)) :
  listing record (a ++ b) = (listing record a ++ listing record b)%list.
Proof. apply flat_map_app. Qed.

Lemma listing_songs (record : Song -> Output) (ss : list Song) :
  listing record (map inr ss) = map record ss.
Proof. induction ss as [|s ss IH]; simpl; [reflexivity | now rewrite <- IH]. Qed.

Lemma listing_walk_visits (record : Song -> Output) (d : Directory) :
  listing record (walk_visits d) = listing_of record d.
Proof.
  induction d as [p ss subs IH] using Directory_nested_ind.
  cbn [walk_visits listing_of].
  change (listing record (inl (Dir p ss subs) :: ?l))
    with (directory_line (Dir p ss subs) ++ listing record l)%list.
  rewrite listing_app, listing_songs. do 2 f_equal.
  induction IH as [|d' rest Hd' _ IHrest]; [reflexivity |].
  now rewrite listing_app, Hd', IHrest.
Qed.

Lemma listing_visits_under (record : Song -> Output) (db : Directory) (name : option string) :
  listing record (visits_under db name) = listing_under record db name.
Proof.
  unfold visits_under, listing_under.
  destruct (lookupDirectory db name); [apply listing_walk_visits | reflexivity].
Qed.

Lemma song_records_app (a b : list Output) :
  song_records (a ++ b) = (song_records a ++ song_records b)%list.
Proof. apply omap_app. Qed.

Lemma song_records_directory_line (d : Directory) : song_records (directory_line d) = [].
Proof. unfold directory_line. now destruct (path d). Qed.

Lemma song_records_listing_of (record : Song -> Output) (d : Directory) :
  (forall s, song_records [record s] = [s]) ->
  song_records (listing_of record d) = all_songs d.
Proof.
  intros Hrecord.
  induction d as [p ss subs IH] using Directory_nested_ind.
  cbn [listing_of all_songs].
  rewrite !song_records_app, song_records_directory_line. simpl app. f_equal.
  - induction ss as [|s ss IHss]; [reflexivity |].
    change (map record (s :: ss)) with ([record s] ++ map record ss)%list.
    now rewrite song_records_app, Hrecord, IHss.
  - induction IH as [|d' rest Hd' _ IHrest]; [reflexivity |].
    now rewrite song_records_app, Hd', IHrest.
Qed.

End ListingFacts.

(** [printAllIn] writes the listing of the root: for each directory
    below it, depth first, the line of the directory, if it has a
    path, then the URL of each of its songs, then the listings of its
    sub-directories.  [printInfoForAllIn] writes the same listing with
    the full record of each song.  The songs of either listing are the
    songs below the root in the order of the walk, nothing else of the
    world changes, and a root that is no directory writes nothing. *)
Theorem printAllIn_listing
    (db : DbUtils.Directory) (name : option string) (w : DbUtils.World) :
  DbUtils.printAllIn db name w
  = Some (walk_result db name,
          DbUtils.set_out (DbUtils.out w ++ listing_under DbUtils.OutSongUrl db name) w) /\
  DbUtils.printInfoForAllIn db name w
  = Some (walk_result db name,
          DbUtils.set_out (DbUtils.out w ++ listing_under DbUtils.OutSongInfo db name) w) /\
  song_records (listing_under DbUtils.OutSongUrl db name) = songs_under db name /\
  song_records (listing_under DbUtils.OutSongInfo db name) = songs_under db name.
Proof.
  split; [| split].
  - unfold DbUtils.printAllIn. rewrite <- listing_visits_under.
    now apply listing_walk.
  - unfold DbUtils.printInfoForAllIn. rewrite <- listing_visits_under.
    now apply listing_walk.
  - unfold listing_under, songs_under.
    destruct (DbUtils.lookupDirectory db name) as [d |]; [| now split].
    split; now apply song_records_listing_of.
Qed.

Section SavedMemoryFacts.
Import CStr DbUtils.
Context {tbl : TagTable}.

Lemma wrap_int_wrap_ulong (y : Z) : wrap_int (wrap_ulong y) = wrap_int y.
Proof.
  unfold wrap_int, wrap_ulong. f_equal.
  rewrite (Z.mod_eq y (2 ^ 64)) by lia.
  replace (y - 2 ^ 64 * (y / 2 ^ 64) + 2 ^ 31)
    with (y + 2 ^ 31 + (- 2 ^ 32 * (y / 2 ^ 64)) * 2 ^ 32) by lia.
  apply Z.mod_add. lia.
Qed.

Lemma wrap_int_idempotent (z : Z) : wrap_int (wrap_int z) = wrap_int z.
Proof.
  apply wrap_int_small. unfold wrap_int.
  pose proof (Z.mod_pos_bound (z + 2 ^ 31) (2 ^ 32)). lia.
Qed.

(** [*sum += e] adds [e] in [int], whatever [e] has gone through as an
    [unsigned long]. *)
Lemma add_to_int_wrap (c x : Z) : add_to_int c (wrap_ulong x) = wrap_int (c + x).
Proof.
  unfold add_to_int.
  replace (wrap_ulong (wrap_ulong c + wrap_ulong x)) with (wrap_ulong (c + x)).
  - apply wrap_int_wrap_ulong.
  - unfold wrap_ulong. apply Z.add_mod. lia.
Qed.

Lemma sumSavedFilenameMemoryInDirectory_effect (sizeof_ptr : Z) (d : Directory)
    (st : World * Z) :
  wrap_int (snd st) = snd st ->
  sumSavedFilenameMemoryInDirectory sizeof_ptr d st
  = Some (0, (fst st, wrap_int (snd st + saved_by_directory sizeof_ptr d))).
Proof.
  intros Hc. unfold sumSavedFilenameMemoryInDirectory, saved_by_directory.
  destruct (path d) as [p |].
  - unfold bind, modify, ret. do 3 f_equal.
    rewrite <- add_to_int_wrap. f_equal.
    unfold wrap_ulong. symmetry. apply Z.mul_mod. lia.
  - unfold ret. rewrite Z.add_0_r, Hc. now destruct st.
Qed.

Lemma sumSavedFilenameMemoryInSong_effect (song_url : Song -> string) (s : Song)
    (st : World * Z) :
  sumSavedFilenameMemoryInSong song_url s st
  = Some (0, (fst st, wrap_int (snd st + saved_by_song song_url s))).
Proof.
  unfold sumSavedFilenameMemoryInSong, saved_by_song, bind, modify, ret.
  now rewrite add_to_int_wrap.
Qed.

Lemma fold_saved (sizeof_ptr : Z) (song_url : Song -> string)
    (visits : list (Directory + Song)) :
  forall (w : World) (c : Z),
    wrap_int c = c ->
    fold_left (visit (fun d (st : World * Z) =>
                        (fst st, wrap_int (snd st + saved_by_directory sizeof_ptr d)))
                     (fun s (st : World * Z) =>
                        (fst st, wrap_int (snd st + saved_by_song song_url s))))
      visits (w, c)
    = (w, wrap_int (c + sum_Z (map (saved_by_directory sizeof_ptr) (directories_of visits))
                      + sum_Z (map (saved_by_song song_url) (songs_of visits)))).
Proof.
  induction visits as [|[d | s] visits IH]; intros w c Hc.
  - simpl. now rewrite !Z.add_0_r, Hc.
  - cbn [fold_left visit fst snd]. rewrite IH by apply wrap_int_idempotent.
    change (directories_of (inl d :: visits)) with (d :: directories_of visits).
    change (songs_of (inl d :: visits)) with (songs_of visits).
    f_equal. cbn [map sum_Z fold_right].
    rewrite <- Z.add_assoc, wrap_int_add_l. f_equal. unfold sum_Z. lia.
  - cbn [fold_left visit fst snd]. rewrite IH by apply wrap_int_idempotent.
    change (directories_of (inr s :: visits)) with (directories_of visits).
    change (songs_of (inr s :: visits)) with (s :: songs_of visits).
    f_equal. cbn [map sum_Z fold_right].
    rewrite <- Z.add_assoc, wrap_int_add_l. f_equal. unfold sum_Z. lia.
Qed.

End SavedMemoryFacts.

(** [printSavedMemoryFromFilenames] leaves the world as it is, and
    the number it reports is, in the range of [int], the sum over the
    songs of the catalog of the length of the name of the song in its
    directory and its end, and over the directories that have a path of
    the length of the path and its end less the size of a pointer, for
    each song of the directory.  A path shorter than a pointer lowers
    the sum: the [unsigned long] of the product does not show in the
    result. *)
Theorem printSavedMemoryFromFilenames_sum
    (sizeof_ptr : Z) (song_url : DbUtils.Song -> string) (db : DbUtils.Directory)
    (w : DbUtils.World) :
  DbUtils.printSavedMemoryFromFilenames sizeof_ptr song_url db w
  = Some (DbUtils.wrap_int
            (sum_Z (map (saved_by_directory sizeof_ptr) (all_directories db))
             + sum_Z (map (saved_by_song song_url) (all_songs db))), w).
Proof.
  unfold DbUtils.printSavedMemoryFromFilenames, DbUtils.with_local.
  destruct (traverseAllIn_visits (Some (DbUtils.sumSavedFilenameMemoryInDirectory sizeof_ptr))
              (Some (DbUtils.sumSavedFilenameMemoryInSong song_url))
              (fun d (st : DbUtils.World * Z) =>
                 (fst st, DbUtils.wrap_int (snd st + saved_by_directory sizeof_ptr d)))
              (fun s (st : DbUtils.World * Z) =>
                 (fst st, DbUtils.wrap_int (snd st + saved_by_song song_url s)))
              (fun st => DbUtils.wrap_int (snd st) = snd st))
    with (db := db) (name := @None string) (st := (w, 0)) as [Hrun _].
  - intros d st Hst. exists 0.
    split; [now apply sumSavedFilenameMemoryInDirectory_effect | apply wrap_int_idempotent].
  - intros s st Hst. exists 0.
    split; [apply sumSavedFilenameMemoryInSong_effect | apply wrap_int_idempotent].
  - reflexivity.
  - unfold DbUtils.bind at 1. rewrite Hrun, fold_saved by reflexivity.
    unfold DbUtils.ret, visits_under, all_directories. simpl DbUtils.lookupDirectory.
    cbn [snd]. now rewrite songs_of_walk, Z.add_0_l.
Qed.

(** The list of a type that the bounds of [listAllUniqueTags]
    leave out and that is not [FILE], such as [ANY] or the -1 of a key
    that does not resolve, in a catalog that has no item of that type:
    nothing is written and the world is as it was. *)
Theorem listAllUniqueTags_absent_type `{tbl : DbUtils.TagTable}
    (db : DbUtils.Directory) (type : Z) (conds : N) (crit : list (Z * string))
    (w : DbUtils.World) :
  criteria_at w conds crit ->
  type < 0 \/ DbUtils.TAG_NUM_OF_ITEM_TYPES < type ->
  DbUtils.sint8 type ≠ DbUtils.LOCATE_TAG_FILE_TYPE ->
  (forall song, song ∈ all_songs db -> song_values (DbUtils.sint8 type) song = []) ->
  DbUtils.listAllUniqueTags db type (Z.of_nat (length crit)) conds w = Some (0, w).
Proof.
  intros Hcrit Hout Hfile Hnone.
  rewrite listAllUniqueTags_unguarded by exact Hout.
  destruct (traverseAllIn_songs
              (DbUtils.listUniqueTagsInDirectory
                 (DbUtils.newListCommandItem type (Z.of_nat (length crit)) conds))
              (fun song w => record_song (DbUtils.sint8 type) crit song w)
              (fun w' => DbUtils.strs w' = DbUtils.strs w /\
                         DbUtils.arrays w' = DbUtils.arrays w)) with (db := db)
    (name := @None string) (st := w) as [Hrun _].
  - intros song st [Hs Ha]. exists 0. split.
    + apply listUniqueTagsInDirectory_spec; [exact Hfile |].
      now apply (criteria_from_same_memory w).
    + unfold record_song. destruct (find_matches crit song); [| now split].
      destruct (record_value_memory (DbUtils.sint8 type)
                  (song_values (DbUtils.sint8 type) song) st) as (Hs' & Ha' & _).
      split; congruence.
  - now split.
  - rewrite Hrun. unfold walk_result, songs_under. simpl DbUtils.lookupDirectory.
    cbv iota. rewrite fold_record_song.
    replace (flat_map (song_values (DbUtils.sint8 type))
               (List.filter (find_matches crit) (all_songs db))) with (@nil string);
      [reflexivity |].
    symmetry. assert (Hsub : forall s, s ∈ List.filter (find_matches crit) (all_songs db) ->
                               song_values (DbUtils.sint8 type) s = []).
    { intros s Hs. apply Hnone. apply list_elem_of_In, filter_In in Hs as [Hs _].
      now apply list_elem_of_In. }
    induction (List.filter (find_matches crit) (all_songs db)) as [|s l IH]; [reflexivity |].
    simpl. rewrite (Hsub s) by (now left). apply IH. intros s' Hs'. apply Hsub. now right.
Qed.

Lemma listAllUniqueTags_absent_type_witness :
  @DbUtils.listAllUniqueTags sample_table sample_db 23 1 1%N sample_world
  = Some (0, sample_world).
Proof.
  apply (@listAllUniqueTags_absent_type sample_table sample_db 23 1%N [(0, "ac")]).
  - exact sample_world_criteria.
  - right. vm_compute. reflexivity.
  - vm_compute. discriminate.
  - intros song Hsong. vm_compute in Hsong.
    apply elem_of_cons in Hsong as [-> | Hsong]; [reflexivity |].
    apply elem_of_cons in Hsong as [-> | Hsong]; [reflexivity |].
    now apply elem_of_nil in Hsong.
Defined.

(** ** The memory of the criteria *)

Section ItemFacts.
Import CStr DbUtils.
Context {tbl : TagTable}.

(** The construction from pairs whose keys all resolve, with the
    buffers [qs] of the needles. *)
Lemma build_resolved (pairs : list (string * string)) (arrayRet : N) (w : World) :
  pairs ≠ [] ->
  Forall (fun p => 0 <= getLocateTagItemType p.1) pairs ->
  let a := fresh_ptr (dom (arrays w)) in
  exists (cells : list LocateTagItem) (qs : list N) (w' : World),
    newLocateTagItemArrayFromArgArray (tokens pairs) (Z.of_nat (length (tokens pairs)))
      arrayRet w
    = Some ((Z.of_nat (length pairs), a), w') /\
    arrays w' = <[a := cells]> (arrays w) /\
    length qs = length pairs /\
    (forall m q, qs !! m = Some q ->
       exists p, pairs !! m = Some p /\
         cells !! m = Some (mkLocate (Some (getLocateTagItemType p.1)) (Some q)) /\
         strs w' !! q = Some p.2) /\
    NoDup qs /\
    (forall q, q ∈ qs -> q ≠ NULL /\ strs w !! q = None) /\
    (forall x, x ∉ qs -> strs w' !! x = strs w !! x) /\
    tracker w' = tracker w /\ out w' = out w.
Proof.
  intros Hne Hall a.
  destruct (even_tokens_numArgs pairs Hne) as (H0 & Hrem & Hneg & Hnat & Hquot).
  unfold newLocateTagItemArrayFromArgArray.
  rewrite H0, Hrem, Hneg, Hnat, Hquot. change (negb true) with false. cbv iota.
  rewrite (bind_Some _ _ _ _ _ (xmalloc_items_cells w (length pairs))).
  fold a. set (w0 := set_arrays _ w).
  destruct (init_items_spec (tokens pairs) a (length pairs) 0%nat w0
              (replicate (length pairs) indeterminate) (length pairs))
    as (w' & cells' & qs & Hrun & Harr & Htr & Hout & Hlen & Hqs & _ & Hitems
          & Hnodup & Hfresh & Hframe).
  - apply lookup_insert_eq.
  - rewrite length_replicate. lia.
  - lia.
  - intros m Hm. simpl.
    destruct (lookup_lt_is_Some_2 pairs m) as [pm Hpm]; [lia |].
    exists pm.1, pm.2. split; [now apply pair_at_tokens |].
    now apply (proj1 (Forall_lookup _ _) Hall m pm).
  - lia.
  - exists cells', qs, w'.
    rewrite (bind_Some _ _ _ _ _ Hrun).
    rewrite bool_decide_eq_true_2 by reflexivity. cbn [fst snd Nat.add].
    split; [reflexivity |].
    split; [rewrite Harr; subst w0; simpl; apply insert_insert_eq |].
    split; [exact Hqs |].
    split.
    { intros m q Hq.
      destruct (lookup_lt_is_Some_2 pairs m) as [p Hp];
        [rewrite <- Hqs; eapply lookup_lt_Some; exact Hq |].
      exists p. split; [exact Hp |].
      destruct (Hitems m q Hq) as (key & value & [Hkey Hval] & Hcell & Hstr).
      destruct (pair_at_tokens pairs m p Hp) as [Hkey' Hval'].
      simpl in Hkey, Hval, Hcell.
      assert (key = p.1) by congruence. assert (value = p.2) by congruence.
      subst key value. now split. }
    split; [exact Hnodup |].
    split; [exact Hfresh |].
    split; [exact Hframe |].
    split; [exact Htr | exact Hout].
Qed.

Lemma free_items_Some (w : World) (a : N) (cells : list LocateTagItem) :
  a ≠ NULL -> arrays w !! a = Some cells ->
  free_items a w = Some (tt, set_arrays (delete a (arrays w)) w).
Proof.
  intros Ha H. unfold free_items.
  destruct (N.eqb_spec a NULL); [contradiction |]. now rewrite H.
Qed.

(** What [newLocateTagItem] does for a key that resolves. *)
Lemma newLocateTagItem_run (key value : string) (w : World) :
  0 <= getLocateTagItemType key ->
  newLocateTagItem key value w
  = Some (fresh_ptr (dom (arrays w)),
      {| strs := <[fresh_ptr (dom (strs w)) := value]> (strs w);
         arrays := <[fresh_ptr (dom (arrays w)) :=
                       [mkLocate (Some (getLocateTagItemType key))
                                 (Some (fresh_ptr (dom (strs w))))]]> (arrays w);
         tracker := tracker w;
         out := out w |}).
Proof.
  intros Hkey. unfold newLocateTagItem.
  rewrite (bind_Some _ _ _ _ _ (xmalloc_items_cells w 1)).
  erewrite bind_Some.
  2:{ apply initLocateTagItem_resolved with (cells := [indeterminate]) (c := indeterminate);
        [| reflexivity | exact Hkey].
      apply lookup_insert_eq. }
  simpl. unfold ret. f_equal. f_equal.
  apply world_eq; simpl; try reflexivity.
  now rewrite insert_insert_eq.
Qed.

End ItemFacts.

(** A criterion set that has been built from pairs whose keys all
    resolve and is freed with the count and the array that the
    construction returned: the memory is what it was before the
    construction.  The same holds for no pair at all when the array
    pointer of the caller was [NULL]. *)
Theorem build_then_free_restores_memory `{tbl : DbUtils.TagTable}
    (pairs : list (string * string)) (arrayRet : N) (w : DbUtils.World) :
  Forall (fun p => 0 <= DbUtils.getLocateTagItemType p.1) pairs ->
  pairs ≠ [] \/ arrayRet = DbUtils.NULL ->
  DbUtils.bind
    (DbUtils.newLocateTagItemArrayFromArgArray (tokens pairs)
       (Z.of_nat (length (tokens pairs))) arrayRet)
    (fun r => DbUtils.freeLocateTagItemArray r.1 r.2) w
  = Some (tt, w).
Proof.
  intros Hall Hcase.
  destruct pairs as [|p0 pairs'] eqn:Hshape.
  { destruct Hcase as [Hne | ->]; [contradiction |]. reflexivity. }
  rewrite <- Hshape in *.
  assert (Hne : pairs ≠ []) by (rewrite Hshape; discriminate).
  clear Hshape Hcase p0 pairs'.
  destruct (build_resolved pairs arrayRet w Hne Hall)
    as (cells & qs & w' & Hrun & Harr & Hqs & Hitems & Hnodup & Hfresh & Hframe & Htr & Hout).
  rewrite (bind_Some _ _ _ _ _ Hrun). cbn [fst snd].
  unfold DbUtils.freeLocateTagItemArray. rewrite Nat2Z.id, <- Hqs.
  set (a := DbUtils.fresh_ptr (dom (DbUtils.arrays w))) in *.
  assert (Ha' : DbUtils.arrays w' !! a = Some cells) by (rewrite Harr; apply lookup_insert_eq).
  erewrite bind_Some.
  2:{ apply (free_needles_spec a cells qs 0%nat w' Ha'); [| exact Hnodup].
      intros m q Hq. destruct (Hitems m q Hq) as (p & _ & Hcell & Hstr).
      eexists. split; [exact Hcell |]. split; [reflexivity |].
      split; [apply (Hfresh q); eapply list_elem_of_lookup_2; exact Hq |].
      now exists p.2. }
  erewrite free_items_Some; [| apply fresh_ptr_not_null | exact Ha'].
  f_equal. f_equal. apply world_eq; simpl.
  - apply delete_all_fresh; [apply Hfresh | exact Hframe].
  - rewrite Harr, delete_insert_eq. apply delete_id, fresh_ptr_unallocated.
  - exact Htr.
  - exact Hout.
Qed.

Lemma build_then_free_restores_memory_witness :
  DbUtils.bind
    (@DbUtils.newLocateTagItemArrayFromArgArray sample_table
       (tokens [("artist", "X"); ("any", "Y")])
       (Z.of_nat (length (tokens [("artist", "X"); ("any", "Y")]))) DbUtils.NULL)
    (fun r => DbUtils.freeLocateTagItemArray r.1 r.2) sample_world
  = Some (tt, sample_world).
Proof.
  apply (@build_then_free_restores_memory sample_table).
  - repeat constructor; vm_compute; discriminate.
  - left. discriminate.
Defined.

(** [newLocateTagItem] with a key that does not resolve returns
    [NULL] and leaves the memory as it was: the block of the item has
    been freed, and the needle has not been copied. *)
Theorem newLocateTagItem_unknown_key `{tbl : DbUtils.TagTable}
    (key value : string) (w : DbUtils.World) :
  DbUtils.getLocateTagItemType key < 0 ->
  DbUtils.newLocateTagItem key value w = Some (DbUtils.NULL, w).
Proof.
  intros Hkey. unfold DbUtils.newLocateTagItem.
  rewrite (bind_Some _ _ _ _ _ (xmalloc_items_cells w 1)).
  erewrite bind_Some.
  2:{ apply initLocateTagItem_unresolved
        with (cells := [DbUtils.indeterminate]) (c := DbUtils.indeterminate);
        [| reflexivity | exact Hkey].
      apply lookup_insert_eq. }
  simpl.
  erewrite bind_Some.
  2:{ eapply free_items_Some; [apply fresh_ptr_not_null | apply lookup_insert_eq]. }
  unfold DbUtils.ret. f_equal. f_equal.
  apply world_eq; simpl; try reflexivity.
  rewrite !delete_insert_eq. apply delete_id, fresh_ptr_unallocated.
Qed.

Lemma newLocateTagItem_unknown_key_witness :
  @DbUtils.newLocateTagItem sample_table "badkey" "X" sample_world
  = Some (DbUtils.NULL, sample_world).
Proof.
  apply (@newLocateTagItem_unknown_key sample_table). vm_compute. reflexivity.
Defined.

(** [newLocateTagItem] with a key that resolves returns a new item,
    not [NULL], which holds the type of the key and a needle that is a
    new buffer with a copy of the value; the item is a criterion set of
    one criterion, and the memory that was allocated before is as it
    was. *)
Theorem newLocateTagItem_resolved `{tbl : DbUtils.TagTable}
    (key value : string) (w : DbUtils.World) :
  0 <= DbUtils.getLocateTagItemType key ->
  exists (item q : N) (w' : DbUtils.World),
    DbUtils.newLocateTagItem key value w = Some (item, w') /\
    item ≠ DbUtils.NULL /\ DbUtils.arrays w !! item = None /\
    q ≠ DbUtils.NULL /\ DbUtils.strs w !! q = None /\
    DbUtils.arrays w'
    = <[item := [DbUtils.mkLocate (Some (DbUtils.getLocateTagItemType key)) (Some q)]]>
        (DbUtils.arrays w) /\
    DbUtils.strs w' = <[q := value]> (DbUtils.strs w) /\
    DbUtils.tracker w' = DbUtils.tracker w /\ DbUtils.out w' = DbUtils.out w /\
    criteria_at w' item [(DbUtils.getLocateTagItemType key, value)].
Proof.
  intros Hkey.
  eexists _, (DbUtils.fresh_ptr (dom (DbUtils.strs w))), _.
  split; [apply newLocateTagItem_run, Hkey |].
  split; [apply fresh_ptr_not_null |].
  split; [apply fresh_ptr_unallocated |].
  split; [apply fresh_ptr_not_null |].
  split; [apply fresh_ptr_unallocated |].
  simpl. repeat split.
  intros [|m] t s Hm; [| discriminate Hm].
  inversion Hm; subst t s. simpl.
  eexists _, _. split; [apply lookup_insert_eq |].
  split; [reflexivity | apply lookup_insert_eq].
Qed.

Lemma newLocateTagItem_resolved_witness :
  exists (item q : N) (w' : DbUtils.World),
    @DbUtils.newLocateTagItem sample_table "ALBUM" "X" sample_world = Some (item, w') /\
    item ≠ DbUtils.NULL /\
    DbUtils.arrays w' !! item = Some [DbUtils.mkLocate (Some 1) (Some q)].
Proof.
  destruct (@newLocateTagItem_resolved sample_table "ALBUM" "X" sample_world)
    as (item & q & w' & Hrun & Hitem & _ & _ & _ & Harr & _).
  - vm_compute. discriminate.
  - exists item, q, w'. split; [exact Hrun |]. split; [exact Hitem |].
    rewrite Harr. apply lookup_insert_eq.
Defined.

(** An item that [newLocateTagItem] has returned for a key that
    resolves and that is freed with [freeLocateTagItem]: the memory is
    what it was before. *)
Theorem newLocateTagItem_then_free `{tbl : DbUtils.TagTable}
    (key value : string) (w : DbUtils.World) :
  0 <= DbUtils.getLocateTagItemType key ->
  DbUtils.bind (DbUtils.newLocateTagItem key value) DbUtils.freeLocateTagItem w
  = Some (tt, w).
Proof.
  intros Hkey.
  rewrite (bind_Some _ _ _ _ _ (newLocateTagItem_run key value w Hkey)).
  unfold DbUtils.freeLocateTagItem.
  erewrite bind_Some.
  2:{ eapply load_needle_Some; simpl; [apply lookup_insert_eq | reflexivity | reflexivity]. }
  erewrite bind_Some.
  2:{ eapply free_str_Some; simpl; [apply fresh_ptr_not_null | apply lookup_insert_eq]. }
  erewrite free_items_Some; simpl;
    [| apply fresh_ptr_not_null | apply lookup_insert_eq].
  f_equal. f_equal. apply world_eq; simpl; try reflexivity.
  - rewrite delete_insert_eq. apply delete_id, fresh_ptr_unallocated.
  - rewrite delete_insert_eq. apply delete_id, fresh_ptr_unallocated.
Qed.

Lemma newLocateTagItem_then_free_witness :
  DbUtils.bind (@DbUtils.newLocateTagItem sample_table "file" "rock/a.mp3")
    (@DbUtils.freeLocateTagItem) sample_world
  = Some (tt, sample_world).
Proof.
  apply (@newLocateTagItem_then_free sample_table). vm_compute. discriminate.
Defined.

(** ** The substring matcher *)

Section SubstringFacts.
Import CStr DbUtils.
Context {tbl : TagTable}.

Lemma prefix_spec (s t : string) :
  String.prefix s t = true <-> exists after, t = s ++ after.
Proof.
  revert t; induction s as [|c s IH]; intros t.
  - split; [intros _; now exists t | intros _; now destruct t].
  - destruct t as [|d t].
    + split; [discriminate | intros [after H]; discriminate H].
    + change (String.prefix (String c s) (String d t))
        with (if ascii_dec c d then String.prefix s t else false).
      destruct (ascii_dec c d) as [-> | Hne].
      * rewrite IH. split; intros [after H]; exists after; [simpl; now rewrite H | now inversion H].
      * split; [discriminate | intros [after H]; simpl in H; congruence].
Qed.

Lemma strstr_spec (hay needle : string) :
  strstr hay needle = true <-> occurs_in needle hay.
Proof.
  unfold occurs_in. induction hay as [|c hay IH].
  - change (strstr "" needle) with (String.prefix needle "" || false).
    rewrite orb_false_r, prefix_spec. split.
    + intros [after H]. now exists "", after.
    + intros (before & after & H). destruct before; [now exists after | discriminate H].
  - change (strstr (String c hay) needle)
      with (String.prefix needle (String c hay) || strstr hay needle).
    rewrite orb_true_iff, prefix_spec, IH. split.
    + intros [[after H] | (before & after & H)].
      * now exists "", after.
      * exists (String c before), after. simpl. now rewrite H.
    + intros (before & after & H). destruct before as [|d before].
      * left. now exists after.
      * right. simpl in H. inversion H. now exists before, after.
Qed.

Lemma strstr_items_spec (items : list MpdTagItem) (type : Z) (str : string) :
  strstr_items items type str = true <->
  exists it, it ∈ items /\
             (type = LOCATE_TAG_ANY_TYPE \/ item_type it = type) /\
             strstr (strDupToUpper (item_value it)) str = true.
Proof.
  induction items as [|it items IH]; simpl.
  - split; [discriminate |]. intros (it & Hin & _). now apply elem_of_nil in Hin.
  - assert (Hrest : strstr_items items type str = true ->
              exists it0, it0 ∈ it :: items /\
                (type = LOCATE_TAG_ANY_TYPE \/ item_type it0 = type) /\
                strstr (strDupToUpper (item_value it0)) str = true).
    { rewrite IH. intros (it' & Hin & H). exists it'. split; [now right | exact H]. }
    destruct (Z.eqb_spec type LOCATE_TAG_ANY_TYPE) as [Hany | Hany];
      destruct (Z.eqb_spec (item_type it) type) as [Hty | Hty]; simpl.
    4:{ split; [exact Hrest |].
        intros (it' & Hin & Hsel & Hval).
        apply elem_of_cons in Hin as [-> | Hin]; [tauto |].
        apply IH. now exists it'. }
    all: destruct (strstr (strDupToUpper (item_value it)) str) eqn:Hhere;
      [ split; [intros _ | reflexivity]; exists it; split; [now left | tauto]
      | split; [exact Hrest |];
        intros (it' & Hin & Hsel & Hval);
        apply elem_of_cons in Hin as [-> | Hin]; [congruence |];
        apply IH; now exists it' ].
Qed.

Lemma forallb_Permutation {A} (f : A -> bool) (l l' : list A) :
  l ≡ₚ l' -> forallb f l = forallb f l'.
Proof.
  induction 1; simpl; try congruence.
  now rewrite !andb_assoc, (andb_comm (f y)).
Qed.

Lemma matches_all_app (matcher : Song -> Z -> string -> bool) (c1 c2 : list (Z * string))
    (song : Song) :
  matches_all matcher (c1 ++ c2) song
  = matches_all matcher c1 song && matches_all matcher c2 song.
Proof. apply forallb_app. Qed.

Lemma filter_filter_andb {A} (f g : A -> bool) (l : list A) :
  List.filter (fun a => f a && g a) l = List.filter g (List.filter f l).
Proof.
  induction l as [|a l IH]; simpl; [reflexivity |].
  destruct (f a); simpl; [| exact IH]. destruct (g a); now rewrite IH.
Qed.

Lemma toupper_idempotent (c : ascii) : toupper (toupper c) = toupper c.
Proof.
  unfold toupper at 2 3. destruct (is_lower c) eqn:Hc; [| unfold toupper; now rewrite Hc].
  unfold toupper, is_lower in *.
  apply andb_true_iff in Hc as [Hlo Hhi].
  apply N.leb_le in Hlo, Hhi.
  rewrite N_ascii_embedding by lia.
  destruct (_ && _) eqn:H; [| reflexivity].
  apply andb_true_iff in H as [H _]. apply N.leb_le in H. lia.
Qed.

Lemma strDupToUpper_idempotent (s : string) :
  strDupToUpper (strDupToUpper s) = strDupToUpper s.
Proof.
  unfold strDupToUpper. induction s as [|c s IH]; simpl; [reflexivity |].
  now rewrite toupper_idempotent, IH.
Qed.

End SubstringFacts.

(** The substring matcher, by the type of the criterion: [FILE]
    matches when the needle occurs in the upper-case URL of the song;
    [ANY] matches when it occurs in the upper-case URL or in the
    upper-case value of an item of the tag; another type matches when it
    occurs in the upper-case value of an item of that type.  The needle
    is compared as it is given. *)
Theorem strstrSearchTag_cases `{tbl : DbUtils.TagTable}
    (song : DbUtils.Song) (type : Z) (str : string) :
  (type = DbUtils.LOCATE_TAG_FILE_TYPE ->
   (DbUtils.strstrSearchTag song type str = true <->
    occurs_in str (DbUtils.strDupToUpper (DbUtils.url song)))) /\
  (type = DbUtils.LOCATE_TAG_ANY_TYPE ->
   (DbUtils.strstrSearchTag song type str = true <->
    occurs_in str (DbUtils.strDupToUpper (DbUtils.url song)) \/
    exists t it, DbUtils.tag song = Some t /\ it ∈ DbUtils.tag_items t /\
                 occurs_in str (DbUtils.strDupToUpper (DbUtils.item_value it)))) /\
  (type ≠ DbUtils.LOCATE_TAG_FILE_TYPE -> type ≠ DbUtils.LOCATE_TAG_ANY_TYPE ->
   (DbUtils.strstrSearchTag song type str = true <->
    exists t it, DbUtils.tag song = Some t /\ it ∈ DbUtils.tag_items t /\
                 DbUtils.item_type it = type /\
                 occurs_in str (DbUtils.strDupToUpper (DbUtils.item_value it)))).
Proof.
  pose proof file_type_not_any as Hdistinct.
  assert (Htag : match DbUtils.tag song with
                 | Some t => DbUtils.strstr_items (DbUtils.tag_items t) type str
                 | None => false
                 end = true <->
                 exists t it, DbUtils.tag song = Some t /\ it ∈ DbUtils.tag_items t /\
                   (type = DbUtils.LOCATE_TAG_ANY_TYPE \/ DbUtils.item_type it = type) /\
                   occurs_in str (DbUtils.strDupToUpper (DbUtils.item_value it))).
  { destruct (DbUtils.tag song) as [t |].
    - rewrite strstr_items_spec. split.
      + intros (it & Hin & Hsel & Hval). apply strstr_spec in Hval. now exists t, it.
      + intros (t' & it & Ht & Hin & Hsel & Hval). inversion Ht; subst t'.
        apply strstr_spec in Hval. now exists it.
    - split; [discriminate |]. intros (t & it & Ht & _). discriminate Ht. }
  unfold DbUtils.strstrSearchTag, DbUtils.getSongUrl.
  rewrite <- (strstr_spec (DbUtils.strDupToUpper (DbUtils.url song)) str).
  destruct (Z.eqb_spec type DbUtils.LOCATE_TAG_FILE_TYPE) as [Hfile | Hfile];
    destruct (Z.eqb_spec type DbUtils.LOCATE_TAG_ANY_TYPE) as [Hany | Hany];
    simpl; try congruence.
  - (* FILE *)
    split; [intros _ | split; congruence].
    rewrite orb_true_r. reflexivity.
  - (* ANY *)
    split; [congruence |]. split; [intros _ | congruence].
    rewrite orb_false_r.
    destruct (CStr.strstr (DbUtils.strDupToUpper (DbUtils.url song)) str) eqn:Hurl.
    + tauto.
    + rewrite Htag. split.
      * intros (t & it & Ht & Hin & _ & Hval). right. now exists t, it.
      * intros [Heq | (t & it & Ht & Hin & Hval)]; [discriminate |].
        exists t, it. tauto.
  - (* a tag type *)
    split; [congruence |]. split; [congruence |].
    intros _ _. rewrite Htag. split.
    + intros (t & it & Ht & Hin & [Hsel | Hsel] & Hval); [congruence |].
      now exists t, it.
    + intros (t & it & Ht & Hin & Hsel & Hval). exists t, it. tauto.
Qed.

Lemma strstrSearchTag_cases_witness :
  @DbUtils.strstrSearchTag sample_table sample_song_a 0 "C/D" = true.
Proof.
  destruct (@strstrSearchTag_cases sample_table sample_song_a 0 "C/D") as (_ & _ & Htype).
  apply Htype; [vm_compute; discriminate | vm_compute; discriminate |].
  exists {| DbUtils.tag_items := [DbUtils.mkItem 0 "AC/DC"]; DbUtils.tag_time := 180 |},
    (DbUtils.mkItem 0 "AC/DC").
  repeat split; [now left |]. now exists "A", "C".
Defined.

(** ** The criteria of [find] and [search] *)

Section CriteriaFacts.
Import CStr DbUtils.
Context {tbl : TagTable}.

Lemma filter_true {A} (l : list A) : List.filter (fun _ => true) l = l.
Proof. induction l as [|a l IH]; simpl; [reflexivity | now rewrite IH]. Qed.

Lemma upper_criteria_app (c1 c2 : list (Z * string)) :
  upper_criteria (c1 ++ c2) = (upper_criteria c1 ++ upper_criteria c2)%list.
Proof. apply map_app. Qed.

Lemma criteria_at_nil (w : World) (items : N) : criteria_at w items [].
Proof. intros m t s Hm. discriminate Hm. Qed.

End CriteriaFacts.

Lemma criteria_world_sets :
  criteria_at criteria_world 1%N [(0, "AC/DC"); (13, "rock/a.mp3")] /\
  criteria_at criteria_world 2%N [(13, "rock/a.mp3"); (0, "AC/DC")] /\
  criteria_at criteria_world 3%N [(0, "ac/dc")] /\
  criteria_at criteria_world 4%N [(0, "AC/DC")].
Proof.
  repeat split; intros m t s Hm;
    (destruct m as [|[|m]]; [| | discriminate Hm]);
    inversion Hm; subst; eexists _, _; repeat split.
Defined.

(** The order of the criteria of a set does not matter: two sets in
    memory that hold the same criteria in another order make [find]
    write the same songs, and make [search] write the same songs. *)
Theorem criteria_order_irrelevant `{tbl : DbUtils.TagTable}
    (db : DbUtils.Directory) (name : option string) (items items' : N)
    (crit crit' : list (Z * string)) (w : DbUtils.World) :
  criteria_at w items crit -> criteria_at w items' crit' ->
  crit ≡ₚ crit' ->
  DbUtils.findSongsIn db name (Z.of_nat (length crit)) items w
  = DbUtils.findSongsIn db name (Z.of_nat (length crit')) items' w /\
  DbUtils.searchForSongsIn db name (Z.of_nat (length crit)) items w
  = DbUtils.searchForSongsIn db name (Z.of_nat (length crit')) items' w.
Proof.
  intros Hcrit Hcrit' Hperm.
  rewrite (findSongsIn_spec db name items crit w Hcrit).
  rewrite (findSongsIn_spec db name items' crit' w Hcrit').
  rewrite (searchForSongsIn_spec db name items crit w Hcrit).
  rewrite (searchForSongsIn_spec db name items' crit' w Hcrit').
  split; f_equal; f_equal; f_equal; f_equal; f_equal.
  - apply List.filter_ext. intros song. now apply forallb_Permutation.
  - apply List.filter_ext. intros song. apply forallb_Permutation.
    unfold upper_criteria. now apply fmap_Permutation.
Qed.

Lemma criteria_order_irrelevant_witness :
  @DbUtils.findSongsIn sample_table sample_db None 2 1%N criteria_world
  = @DbUtils.findSongsIn sample_table sample_db None 2 2%N criteria_world.
Proof.
  destruct criteria_world_sets as (H1 & H2 & _).
  apply (@criteria_order_irrelevant sample_table sample_db None 1%N 2%N _ _ _ H1 H2).
  apply Permutation_swap.
Defined.

(** With no criterion, [find] writes every song below the root, in
    the order of the walk, whatever the array pointer is, which it does
    not read, and returns what the walk returns; nothing but the output
    changes. *)
Theorem no_criteria_selects_all `{tbl : DbUtils.TagTable}
    (db : DbUtils.Directory) (name : option string) (items : N) (w : DbUtils.World) :
  DbUtils.findSongsIn db name 0 items w
  = Some (walk_result db name,
          DbUtils.set_out (DbUtils.out w ++ map DbUtils.OutSongInfo (songs_under db name)) w).
Proof.
  pose proof (findSongsIn_spec db name items [] w (criteria_at_nil w items)) as Hfind.
  simpl length in Hfind. change (Z.of_nat 0) with 0 in Hfind.
  rewrite Hfind.
  unfold find_matches, matches_all. simpl.
  now rewrite filter_true.
Qed.

(** [search] does not tell the case of the letters of its needles:
    two criterion sets whose needles agree once in upper case make it
    write the same songs. *)
Theorem search_ignores_needle_case `{tbl : DbUtils.TagTable}
    (db : DbUtils.Directory) (name : option string) (items items' : N)
    (crit crit' : list (Z * string)) (w : DbUtils.World) :
  criteria_at w items crit -> criteria_at w items' crit' ->
  upper_criteria crit = upper_criteria crit' ->
  DbUtils.searchForSongsIn db name (Z.of_nat (length crit)) items w
  = DbUtils.searchForSongsIn db name (Z.of_nat (length crit')) items' w.
Proof.
  intros Hcrit Hcrit' Hupper.
  rewrite (searchForSongsIn_spec db name items crit w Hcrit).
  rewrite (searchForSongsIn_spec db name items' crit' w Hcrit').
  unfold search_matches. now rewrite Hupper.
Qed.

Lemma search_ignores_needle_case_witness :
  @DbUtils.searchForSongsIn sample_table sample_db None 1 3%N criteria_world
  = @DbUtils.searchForSongsIn sample_table sample_db None 1 4%N criteria_world.
Proof.
  destruct criteria_world_sets as (_ & _ & H3 & H4).
  apply (@search_ignores_needle_case sample_table sample_db None 3%N 4%N _ _ _ H3 H4).
  reflexivity.
Defined.

(** More criteria narrow the result: with the criteria of a set
    and further ones, [find] writes the songs that it writes with the
    set alone and that pass the further criteria, in the same order;
    and so does [search]. *)
Theorem more_criteria_narrow `{tbl : DbUtils.TagTable}
    (db : DbUtils.Directory) (name : option string) (items1 items : N)
    (crit1 crit2 : list (Z * string)) (w : DbUtils.World) :
  criteria_at w items1 crit1 -> criteria_at w items (crit1 ++ crit2) ->
  exists found searched : list DbUtils.Song,
    DbUtils.findSongsIn db name (Z.of_nat (length crit1)) items1 w
    = Some (walk_result db name,
            DbUtils.set_out (DbUtils.out w ++ map DbUtils.OutSongInfo found) w) /\
    DbUtils.findSongsIn db name (Z.of_nat (length (crit1 ++ crit2))) items w
    = Some (walk_result db name,
            DbUtils.set_out (DbUtils.out w ++ map DbUtils.OutSongInfo
                               (List.filter (find_matches crit2) found)) w) /\
    DbUtils.searchForSongsIn db name (Z.of_nat (length crit1)) items1 w
    = Some (walk_result db name,
            DbUtils.set_out (DbUtils.out w ++ map DbUtils.OutSongInfo searched) w) /\
    DbUtils.searchForSongsIn db name (Z.of_nat (length (crit1 ++ crit2))) items w
    = Some (walk_result db name,
            DbUtils.set_out (DbUtils.out w ++ map DbUtils.OutSongInfo
                               (List.filter (search_matches crit2) searched)) w).
Proof.
  intros Hcrit1 Hcrit.
  exists (List.filter (find_matches crit1) (songs_under db name)),
    (List.filter (search_matches crit1) (songs_under db name)).
  split; [now apply findSongsIn_spec |].
  split.
  { rewrite (findSongsIn_spec db name items _ w Hcrit).
    rewrite <- filter_filter_andb. do 5 f_equal.
    apply List.filter_ext. intros song. apply matches_all_app. }
  split; [now apply searchForSongsIn_spec |].
  rewrite (searchForSongsIn_spec db name items _ w Hcrit).
  rewrite <- filter_filter_andb. do 5 f_equal.
  apply List.filter_ext. intros song. unfold search_matches.
  rewrite upper_criteria_app. apply matches_all_app.
Qed.

Lemma more_criteria_narrow_witness :
  exists found : list DbUtils.Song,
    @DbUtils.findSongsIn sample_table sample_db None 1 4%N criteria_world
    = Some (0, DbUtils.set_out (map DbUtils.OutSongInfo found) criteria_world) /\
    @DbUtils.findSongsIn sample_table sample_db None 2 1%N criteria_world
    = Some (0, DbUtils.set_out
                 (map DbUtils.OutSongInfo
                    (List.filter (@find_matches sample_table [(13, "rock/a.mp3")]) found))
                 criteria_world).
Proof.
  destruct criteria_world_sets as (H1 & _ & _ & H4).
  destruct (@more_criteria_narrow sample_table sample_db None 4%N 1%N
              [(0, "AC/DC")] [(13, "rock/a.mp3")] criteria_world H4 H1)
    as (found & searched & Hf1 & Hf & _).
  exists found. split; [exact Hf1 | exact Hf].
Defined.

(** ** The commands on keys as text *)

Section BuiltFacts.
Import CStr DbUtils.
Context {tbl : TagTable}.

(** Freeing what the construction has allocated on top of [w], in a
    world [w'] that has the memory that the construction left. *)
Lemma free_built (w w' : World) (a : N) (cells : list LocateTagItem) (qs : list N)
    (values : list string) :
  a = fresh_ptr (dom (arrays w)) ->
  arrays w' = <[a := cells]> (arrays w) ->
  length values = length qs ->
  (forall m q, qs !! m = Some q ->
     exists t v, cells !! m = Some (mkLocate t (Some q)) /\ strs w' !! q = Some v) ->
  NoDup qs ->
  (forall q, q ∈ qs -> q ≠ NULL /\ strs w !! q = None) ->
  (forall x, x ∉ qs -> strs w' !! x = strs w !! x) ->
  freeLocateTagItemArray (Z.of_nat (length qs)) a w'
  = Some (tt, {| strs := strs w; arrays := arrays w;
                 tracker := tracker w'; out := out w' |}).
Proof.
  intros -> Harr _ Hitems Hnodup Hfresh Hframe.
  set (a := fresh_ptr (dom (arrays w))) in *.
  assert (Ha' : arrays w' !! a = Some cells) by (rewrite Harr; apply lookup_insert_eq).
  unfold freeLocateTagItemArray. rewrite Nat2Z.id.
  erewrite bind_Some.
  2:{ apply (free_needles_spec a cells qs 0%nat w' Ha'); [| exact Hnodup].
      intros m q Hq. destruct (Hitems m q Hq) as (t & v & Hcell & Hstr).
      eexists. split; [exact Hcell |]. split; [reflexivity |].
      split; [apply (Hfresh q); eapply list_elem_of_lookup_2; exact Hq |].
      now exists v. }
  erewrite free_items_Some; [| apply fresh_ptr_not_null | exact Ha'].
  f_equal. f_equal. apply world_eq; simpl; try reflexivity.
  - apply delete_all_fresh; [apply Hfresh | exact Hframe].
  - rewrite Harr, delete_insert_eq. apply delete_id, fresh_ptr_unallocated.
Qed.

Lemma length_resolved_criteria (pairs : list (string * string)) :
  length (resolved_criteria pairs) = length pairs.
Proof. apply length_map. Qed.

(** A command that builds a criterion set from pairs whose keys all
    resolve, runs an operation that writes the songs that pass a test
    of the criteria and leaves the memory as it is, and frees the set. *)
Lemma built_run_free (operation : Z -> N -> M World Z) (pred : list (Z * string) -> Song -> bool)
    (result : Z) (songs : list Song) (pairs : list (string * string)) (arrayRet : N)
    (w : World) :
  (forall items crit w', criteria_at w' items crit ->
     operation (Z.of_nat (length crit)) items w'
     = Some (result, set_out (out w' ++ map OutSongInfo (List.filter (pred crit) songs)) w')) ->
  Forall (fun p => 0 <= getLocateTagItemType p.1) pairs ->
  pairs ≠ [] \/ arrayRet = NULL ->
  (let* r := newLocateTagItemArrayFromArgArray (tokens pairs)
               (Z.of_nat (length (tokens pairs))) arrayRet in
   let* x := operation r.1 r.2 in
   freeLocateTagItemArray r.1 r.2;;
   ret x) w
  = Some (result,
          set_out (out w ++ map OutSongInfo
                     (List.filter (pred (resolved_criteria pairs)) songs)) w).
Proof.
  intros Hop Hall Hcase.
  destruct pairs as [|p0 pairs'] eqn:Hshape.
  { destruct Hcase as [Hne | ->]; [contradiction |].
    unfold bind at 1.
    change (newLocateTagItemArrayFromArgArray (tokens []) (Z.of_nat (length (tokens []))) NULL w)
      with (Some ((0, NULL), w)).
    cbn [fst snd].
    pose proof (Hop NULL [] w (criteria_at_nil w NULL)) as Hrun.
    change (Z.of_nat (length [])) with 0 in Hrun.
    rewrite (bind_Some _ _ _ _ _ Hrun).
    reflexivity. }
  rewrite <- Hshape in *.
  assert (Hne : pairs ≠ []) by (rewrite Hshape; discriminate).
  clear Hshape Hcase p0 pairs'.
  destruct (build_resolved pairs arrayRet w Hne Hall)
    as (cells & qs & w' & Hrun & Harr & Hqs & Hitems & Hnodup & Hfresh & Hframe & Htr & Hout).
  rewrite (bind_Some _ _ _ _ _ Hrun). cbn [fst snd].
  set (a := fresh_ptr (dom (arrays w))) in *.
  assert (Hcrit : criteria_at w' a (resolved_criteria pairs)).
  { intros m t s Hm. unfold resolved_criteria in Hm. rewrite list_lookup_fmap in Hm.
    destruct (pairs !! m) as [p |] eqn:Hp; [| discriminate Hm].
    simpl in Hm. inversion Hm; subst t s.
    destruct (lookup_lt_is_Some_2 qs m) as [q Hq];
      [rewrite Hqs; eapply lookup_lt_Some; exact Hp |].
    destruct (Hitems m q Hq) as (p' & Hp' & Hcell & Hstr).
    assert (p' = p) by congruence. subst p'.
    exists cells, q. split; [rewrite Harr; apply lookup_insert_eq |]. now split. }
  rewrite <- (length_resolved_criteria pairs).
  rewrite (bind_Some _ _ _ _ _ (Hop a _ w' Hcrit)).
  rewrite length_resolved_criteria, <- Hqs.
  erewrite bind_Some.
  2:{ apply (free_built w _ a cells qs (map snd pairs)); simpl; try assumption.
      - reflexivity.
      - now rewrite length_map.
      - intros m q Hq. destruct (Hitems m q Hq) as (p & _ & Hcell & Hstr).
        eexists _, _. split; [exact Hcell | exact Hstr]. }
  unfold ret. f_equal. f_equal. apply world_eq; simpl; try reflexivity.
  - exact Htr.
  - now rewrite Hout.
Qed.

End BuiltFacts.

(** The command [find] on keys as text: the criterion set is built
    from pairs whose keys all resolve, [findSongsIn] runs on the count
    and the array that the construction returned, and the set is freed.
    The songs written are the songs below the root that pass each
    criterion exactly, with the type that its key resolves to; the
    memory is what it was before the command.  The command [search]
    likewise writes the songs that pass each criterion as an upper-case
    substring. *)
Theorem find_and_search_by_keys `{tbl : DbUtils.TagTable}
    (db : DbUtils.Directory) (name : option string) (pairs : list (string * string))
    (arrayRet : N) (w : DbUtils.World) :
  Forall (fun p => 0 <= DbUtils.getLocateTagItemType p.1) pairs ->
  pairs ≠ [] \/ arrayRet = DbUtils.NULL ->
  DbUtils.bind
    (DbUtils.newLocateTagItemArrayFromArgArray (tokens pairs)
       (Z.of_nat (length (tokens pairs))) arrayRet)
    (fun r => DbUtils.bind (DbUtils.findSongsIn db name r.1 r.2)
       (fun x => DbUtils.bind (DbUtils.freeLocateTagItemArray r.1 r.2)
          (fun _ => DbUtils.ret x))) w
  = Some (walk_result db name,
          DbUtils.set_out
            (DbUtils.out w ++ map DbUtils.OutSongInfo
               (List.filter (find_matches (resolved_criteria pairs)) (songs_under db name)))
            w) /\
  DbUtils.bind
    (DbUtils.newLocateTagItemArrayFromArgArray (tokens pairs)
       (Z.of_nat (length (tokens pairs))) arrayRet)
    (fun r => DbUtils.bind (DbUtils.searchForSongsIn db name r.1 r.2)
       (fun x => DbUtils.bind (DbUtils.freeLocateTagItemArray r.1 r.2)
          (fun _ => DbUtils.ret x))) w
  = Some (walk_result db name,
          DbUtils.set_out
            (DbUtils.out w ++ map DbUtils.OutSongInfo
               (List.filter (search_matches (resolved_criteria pairs)) (songs_under db name)))
            w).
Proof.
  intros Hall Hcase. split.
  - apply (built_run_free (DbUtils.findSongsIn db name) find_matches); try assumption.
    intros items crit w' Hcrit. now apply findSongsIn_spec.
  - apply (built_run_free (DbUtils.searchForSongsIn db name) search_matches); try assumption.
    intros items crit w' Hcrit. now apply searchForSongsIn_spec.
Qed.

Lemma find_and_search_by_keys_witness :
  DbUtils.bind
    (@DbUtils.newLocateTagItemArrayFromArgArray sample_table
       (tokens [("artist", "AC/DC")]) (Z.of_nat (length (tokens [("artist", "AC/DC")])))
       DbUtils.NULL)
    (fun r => DbUtils.bind (@DbUtils.findSongsIn sample_table sample_db None r.1 r.2)
       (fun x => DbUtils.bind (DbUtils.freeLocateTagItemArray r.1 r.2)
          (fun _ => DbUtils.ret x))) empty_world
  = Some (0, DbUtils.set_out [DbUtils.OutSongInfo sample_song_a] empty_world).
Proof.
  apply (@find_and_search_by_keys sample_table sample_db None [("artist", "AC/DC")]
           DbUtils.NULL empty_world).
  - repeat constructor. vm_compute. discriminate.
  - left. discriminate.
Defined.

(** ** The keys *)

Section ResolverFacts.
Import CStr DbUtils.
Context {tbl : TagTable}.

Lemma strcasecmp_eq_refl (s : string) : strcasecmp_eq s s = true.
Proof. apply String.eqb_refl. Qed.

Lemma strcasecmp_eq_same (s t k : string) :
  strcasecmp_eq s t = true -> strcasecmp_eq s k = strcasecmp_eq t k.
Proof.
  unfold strcasecmp_eq. intros H. apply String.eqb_eq in H. now rewrite H.
Qed.

(** The loop over the table returns the index of the first name that
    matches, counted from [i], or -1. *)
Lemma find_key_first (keys : list string) (str : string) :
  forall i, 0 <= i ->
    (find_key keys str i = -1 /\ Forall (fun k => strcasecmp_eq str k = false) keys) \/
    (exists (j : nat) (k : string),
       find_key keys str i = i + Z.of_nat j /\
       keys !! j = Some k /\ strcasecmp_eq str k = true /\
       forall j' k', (j' < j)%nat -> keys !! j' = Some k' -> strcasecmp_eq str k' = false).
Proof.
  induction keys as [|k keys IH]; intros i Hi; simpl.
  - left. split; [reflexivity | constructor].
  - destruct (strcasecmp_eq str k) eqn:Hk.
    + right. exists 0%nat, k. repeat split; [lia | exact Hk | intros; lia].
    + destruct (IH (i + 1)) as [[Hnone Hall] | (j & kj & Hfind & Hj & Hmatch & Hfirst)]; [lia | |].
      * left. split; [exact Hnone | now constructor].
      * right. exists (S j), kj. repeat split; [lia | exact Hj | exact Hmatch |].
        intros [|j'] k' Hlt Hk'; simpl in Hk'; [congruence |].
        apply (Hfirst j' k'); [lia | exact Hk'].
Qed.

End ResolverFacts.

(** The keys are resolved without regard to the case of their
    letters: two keys that agree once in lower case resolve to the same
    type. *)
Theorem getLocateTagItemType_case_insensitive `{tbl : DbUtils.TagTable} (s t : string) :
  CStr.strcasecmp_eq s t = true ->
  DbUtils.getLocateTagItemType s = DbUtils.getLocateTagItemType t.
Proof.
  intros Hst. unfold DbUtils.getLocateTagItemType.
  rewrite !(strcasecmp_eq_same s t _ Hst).
  destruct (_ || _); [reflexivity |].
  destruct (CStr.strcasecmp_eq t DbUtils.LOCATE_TAG_ANY_KEY); [reflexivity |].
  generalize 0. induction DbUtils.mpdTagItemKeys as [|k keys IH]; intros i; simpl;
    [reflexivity |].
  rewrite (strcasecmp_eq_same s t k Hst).
  destruct (CStr.strcasecmp_eq t k); [reflexivity | apply IH].
Qed.

Lemma getLocateTagItemType_case_insensitive_witness :
  @DbUtils.getLocateTagItemType sample_table "ARTIST"
  = @DbUtils.getLocateTagItemType sample_table "artist".
Proof.
  apply (@getLocateTagItemType_case_insensitive sample_table). vm_compute. reflexivity.
Defined.

(** What a key resolves to: [FILE] when it is the key of the file
    or the old one, both tested first; else [ANY] when it is the key of
    any; else the index of the first name of the table that it is; and
    -1 exactly when it is none of them.  The comparisons do not regard
    the case of the letters. *)
Theorem getLocateTagItemType_resolves `{tbl : DbUtils.TagTable} (str : string) :
  let is_file := CStr.strcasecmp_eq str DbUtils.LOCATE_TAG_FILE_KEY
                 || CStr.strcasecmp_eq str DbUtils.LOCATE_TAG_FILE_KEY_OLD in
  let is_any := CStr.strcasecmp_eq str DbUtils.LOCATE_TAG_ANY_KEY in
  (DbUtils.getLocateTagItemType str = DbUtils.LOCATE_TAG_FILE_TYPE <-> is_file = true) /\
  (DbUtils.getLocateTagItemType str = DbUtils.LOCATE_TAG_ANY_TYPE <->
   is_file = false /\ is_any = true) /\
  (DbUtils.getLocateTagItemType str = -1 <->
   is_file = false /\ is_any = false /\
   Forall (fun k => CStr.strcasecmp_eq str k = false) DbUtils.mpdTagItemKeys) /\
  (forall i : nat,
     DbUtils.getLocateTagItemType str = Z.of_nat i /\ Z.of_nat i < DbUtils.TAG_NUM_OF_ITEM_TYPES <->
     is_file = false /\ is_any = false /\
     exists k, DbUtils.mpdTagItemKeys !! i = Some k /\ CStr.strcasecmp_eq str k = true /\
       forall j' k', (j' < i)%nat -> DbUtils.mpdTagItemKeys !! j' = Some k' ->
                     CStr.strcasecmp_eq str k' = false).
Proof.
  intros is_file is_any. subst is_file is_any.
  unfold DbUtils.getLocateTagItemType, DbUtils.LOCATE_TAG_FILE_TYPE,
    DbUtils.LOCATE_TAG_ANY_TYPE, DbUtils.TAG_NUM_OF_ITEM_TYPES.
  pose proof (find_key_range DbUtils.mpdTagItemKeys str 0) as Hrange.
  destruct (_ || _).
  { split; [tauto |].
    split; [split; [lia | intros [H _]; discriminate H] |].
    split; [split; [lia | intros [H _]; discriminate H] |].
    intros i. split; [lia | intros [H _]; discriminate H]. }
  destruct (CStr.strcasecmp_eq str DbUtils.LOCATE_TAG_ANY_KEY).
  { split; [split; [lia | discriminate] |].
    split; [tauto |].
    split; [split; [lia | intros (_ & H & _); discriminate H] |].
    intros i. split; [lia | intros (_ & H & _); discriminate H]. }
  destruct (find_key_first DbUtils.mpdTagItemKeys str 0)
    as [[Hnone Hall] | (j & k & Hfind & Hj & Hmatch & Hfirst)]; [lia | |].
  - rewrite Hnone.
    split; [split; [lia | discriminate] |].
    split; [split; [lia | intros [_ H]; discriminate H] |].
    split; [tauto |].
    intros i. split; [lia |].
    intros (_ & _ & k & Hk & Hmatch & _).
    apply (proj1 (Forall_lookup _ _) Hall) in Hk. congruence.
  - rewrite Hfind. pose proof (lookup_lt_Some _ _ _ Hj) as Hlt.
    split; [split; [lia | discriminate] |].
    split; [split; [lia | intros [_ H]; discriminate H] |].
    split.
    { split; [lia |]. intros (_ & _ & Hall).
      apply (proj1 (Forall_lookup _ _) Hall) in Hj. congruence. }
    intros i. split.
    + intros [Hi _]. assert (i = j) by lia. subst i.
      split; [reflexivity |]. split; [reflexivity |]. now exists k.
    + intros (_ & _ & k' & Hi & Hmatch' & Hfirst').
      assert (i = j).
      { destruct (Nat.lt_trichotomy i j) as [Hlt' | [Heq | Hgt]]; [| exact Heq |].
        - specialize (Hfirst i k' Hlt' Hi). congruence.
        - specialize (Hfirst' j k Hgt Hj). congruence. }
      subst i. split; lia.
Qed.

Lemma getLocateTagItemType_resolves_witness :
  @DbUtils.getLocateTagItemType sample_table "album" = 1.
Proof.
  destruct (@getLocateTagItemType_resolves sample_table "album") as (_ & _ & _ & Hindex).
  apply (Hindex 1%nat). split; [reflexivity |]. split; [reflexivity |].
  exists "Album". split; [reflexivity |]. split; [reflexivity |].
  intros [|j'] k' Hlt Hk'; [| lia]. inversion Hk'. reflexivity.
Defined.

(** A name of the table resolves to its index, when it is none of
    the three keys that are tested before the table and no name before
    it in the table is the same but for the case of the letters. *)
Theorem table_name_resolves_to_its_index `{tbl : DbUtils.TagTable} (i : nat) (k : string) :
  DbUtils.mpdTagItemKeys !! i = Some k ->
  CStr.strcasecmp_eq k DbUtils.LOCATE_TAG_FILE_KEY = false ->
  CStr.strcasecmp_eq k DbUtils.LOCATE_TAG_FILE_KEY_OLD = false ->
  CStr.strcasecmp_eq k DbUtils.LOCATE_TAG_ANY_KEY = false ->
  (forall j' k', (j' < i)%nat -> DbUtils.mpdTagItemKeys !! j' = Some k' ->
                 CStr.strcasecmp_eq k k' = false) ->
  DbUtils.getLocateTagItemType k = Z.of_nat i /\
  0 <= DbUtils.getLocateTagItemType k < DbUtils.TAG_NUM_OF_ITEM_TYPES.
Proof.
  intros Hk Hfile Hold Hany Hfirst.
  unfold DbUtils.getLocateTagItemType, DbUtils.TAG_NUM_OF_ITEM_TYPES.
  rewrite Hfile, Hold, Hany. simpl.
  pose proof (lookup_lt_Some _ _ _ Hk) as Hlt.
  destruct (find_key_first DbUtils.mpdTagItemKeys k 0)
    as [[_ Hall] | (j & kj & Hfind & Hj & Hmatch & Hfirst')]; [lia | |].
  - apply (proj1 (Forall_lookup _ _) Hall) in Hk.
    rewrite strcasecmp_eq_refl in Hk. discriminate Hk.
  - assert (j = i).
    { destruct (Nat.lt_trichotomy j i) as [Hlt' | [Heq | Hgt]]; [| exact Heq |].
      - specialize (Hfirst j kj Hlt' Hj). congruence.
      - specialize (Hfirst' i k Hgt Hk). rewrite strcasecmp_eq_refl in Hfirst'.
        discriminate Hfirst'. }
    subst j. rewrite Hfind. lia.
Qed.

Lemma table_name_resolves_to_its_index_witness :
  @DbUtils.getLocateTagItemType sample_table "Title" = 2.
Proof.
  apply (@table_name_resolves_to_its_index sample_table 2%nat "Title");
    try reflexivity.
  intros [|[|j']] k' Hlt Hk'; try lia; inversion Hk'; reflexivity.
Defined.

(** ** Loading a section of the playlist metadata *)

Section LoadFacts.
Import CStr PlaylistDatabase.

Lemma is_mtime_line_shape (line : string) :
  is_mtime_line line = true -> exists v, line = "mtime:" ++ v.
Proof. apply prefix_spec. Qed.

Lemma load_lines_mtime_line (v : string) (file : list string) (pm : PlaylistInfo) :
  load_lines (("mtime:" ++ v) :: file) pm
  = load_lines file {| name := name pm; mtime := mtime_of_line ("mtime:" ++ v) |}.
Proof. reflexivity. Qed.

Lemma strchr_split (line : string) (c : ascii) :
  forall k, strchr line c = Some k -> line = take k line ++ String c (drop (S k) line).
Proof.
  induction line as [|d line IH]; intros k; simpl; [discriminate |].
  destruct (Ascii.eqb_spec d c) as [-> | _].
  - intros H. inversion H. reflexivity.
  - destruct (strchr line c) as [i |]; [| discriminate].
    intros H. inversion H. simpl. f_equal. now apply IH.
Qed.

(** A line that is not the end of the section and whose key is not
    [mtime] ends the load with a failure that names it. *)
Lemma load_lines_other_line (line : string) (file : list string) (pm : PlaylistInfo) :
  strcmp_eq line "playlist_end" = false ->
  is_mtime_line line = false ->
  load_lines (line :: file) pm
  = FormatRuntimeError ("unknown line in db: " ++ named_part line).
Proof.
  intros Hend Hkey. unfold named_part. simpl load_lines. rewrite Hend.
  destruct (strchr line ":"%char) as [[|colon] |] eqn:Hcolon; try reflexivity.
  destruct (strcmp_eq (take (S colon) line) "mtime") eqn:Htake; [| reflexivity].
  exfalso. apply strcmp_eq_true in Htake.
  apply strchr_split in Hcolon. rewrite Htake in Hcolon.
  assert (Hprefix : is_mtime_line line = true).
  { apply (proj2 (prefix_spec "mtime:" line)).
    exists (drop (S (S colon)) line). exact Hcolon. }
  congruence.
Qed.

Lemma load_lines_section (file : list string) :
  forall pm,
    Forall (fun line => is_mtime_line line = true) (section_lines file) ->
    load_lines file pm
    = Ok (after_section file,
          {| name := name pm; mtime := last_mtime (mtime pm) (section_lines file) |}).
Proof.
  induction file as [|line file IH]; intros pm Hall.
  - now destruct pm.
  - cbn [section_lines after_section] in *.
    destruct (strcmp_eq line "playlist_end") eqn:Hend.
    + simpl. rewrite Hend. now destruct pm.
    + apply Forall_cons in Hall as [Hline Hall].
      destruct (is_mtime_line_shape line Hline) as [v ->].
      rewrite load_lines_mtime_line, IH by exact Hall. reflexivity.
Qed.

Lemma load_lines_first_other (file : list string) :
  forall (pm : PlaylistInfo) (before : list string) (line : string) (rest : list string),
    section_lines file = (before ++ line :: rest)%list ->
    Forall (fun l => is_mtime_line l = true) before ->
    is_mtime_line line = false ->
    load_lines file pm
    = FormatRuntimeError ("unknown line in db: " ++ named_part line).
Proof.
  induction file as [|l file IH]; intros pm before line rest Hsec Hbefore Hline.
  - destruct before; discriminate Hsec.
  - cbn [section_lines] in Hsec.
    destruct (strcmp_eq l "playlist_end") eqn:Hend; [destruct before; discriminate Hsec |].
    destruct before as [|b before]; simpl in Hsec; inversion Hsec; subst.
    + now apply load_lines_other_line.
    + apply Forall_cons in Hbefore as [Hb Hbefore].
      destruct (is_mtime_line_shape b Hb) as [v ->].
      rewrite load_lines_mtime_line. now apply IH with before rest.
Qed.

Lemma strtol_no_number (v : string) : no_number v = true -> strtol (StripLeft v) = 0.
Proof.
  unfold no_number. intros H.
  assert (Hhead : match StripLeft v with
                  | EmptyString => True
                  | String c _ => (N_of_ascii c <=? 32)%N = false
                  end).
  { clear H. induction v as [|c v IH]; simpl; [exact I |].
    destruct (N_of_ascii c <=? 32)%N eqn:Hc; [exact IH | simpl; exact Hc]. }
  destruct (StripLeft v) as [|c r]; [reflexivity |].
  destruct (digit_val c) eqn:Hd; [discriminate H |].
  apply andb_true_iff in H as [Hminus Hplus].
  apply negb_true_iff in Hminus, Hplus.
  apply N.leb_gt in Hhead.
  unfold strtol. cbn [skip_space].
  assert (Hsp : isspace c = false).
  { unfold isspace. apply orb_false_iff. split.
    - apply N.eqb_neq. lia.
    - apply andb_false_iff. right. apply N.leb_gt. lia. }
  rewrite Hsp.
  destruct (Ascii.eqb_spec c "-"%char) as [-> | Hm]; [discriminate Hminus |].
  destruct (Ascii.eqb_spec c "+"%char) as [-> | Hp]; [discriminate Hplus |].
  assert (Hval : clamp_long (strtol_digits (String c r) 0) = 0).
  { simpl. rewrite Hd. reflexivity. }
  destruct c as [[] [] [] [] [] [] [] []]; try exact Hval; congruence.
Qed.

End LoadFacts.

(** A section all of whose lines before its end have the key
    [mtime] loads: the record of the name is updated or inserted with
    the time point that [from_time_t] makes of the seconds of the last
    of these lines, or with a time that is not set when there is none;
    the lines after the end of the section are left to be read; and a
    file that ends before the end of the section loads all the same.
    Seconds whose ticks do not fit the 64 bits of a time point wrap
    around, which can give a time that is not set. *)
Theorem playlist_metadata_load_accepts (file : list string)
    (pv : PlaylistDatabase.PlaylistVector) (n : string) :
  Forall (fun line => is_mtime_line line = true) (section_lines file) ->
  PlaylistDatabase.playlist_metadata_load file pv n
  = PlaylistDatabase.Ok
      (after_section file,
       PlaylistDatabase.UpdateOrInsert pv
         (PlaylistDatabase.mkPlaylistInfo n
            (last_mtime PlaylistDatabase.time_point_min (section_lines file)))).
Proof.
  intros Hall. unfold PlaylistDatabase.playlist_metadata_load.
  now rewrite load_lines_section.
Qed.

Lemma playlist_metadata_load_accepts_witness :
  PlaylistDatabase.playlist_metadata_load
    ["mtime: 5"; "mtime:7"; "playlist_end"; "playlist_begin: next"] [] "Favorites"
  = PlaylistDatabase.Ok
      (["playlist_begin: next"], [PlaylistDatabase.mkPlaylistInfo "Favorites" 7000000000]) /\
  PlaylistDatabase.playlist_metadata_load ["mtime: 10000000000"; "playlist_end"] [] "Favorites"
  = PlaylistDatabase.Ok
      ([], [PlaylistDatabase.mkPlaylistInfo "Favorites" (-8446744073709551616)]).
Proof.
  split.
  - apply (playlist_metadata_load_accepts
             ["mtime: 5"; "mtime:7"; "playlist_end"; "playlist_begin: next"] [] "Favorites").
    repeat constructor.
  - apply (playlist_metadata_load_accepts
             ["mtime: 10000000000"; "playlist_end"] [] "Favorites").
    repeat constructor.
Defined.

(** A section with a line before its end whose key is not [mtime]
    does not load: the failure names the first such line, by its key
    when the line has a colon after its first character and in full
    otherwise, and no record is updated or inserted. *)
Theorem playlist_metadata_load_rejects (file before rest : list string) (line : string)
    (pv : PlaylistDatabase.PlaylistVector) (n : string) :
  section_lines file = (before ++ line :: rest)%list ->
  Forall (fun l => is_mtime_line l = true) before ->
  is_mtime_line line = false ->
  PlaylistDatabase.playlist_metadata_load file pv n
  = PlaylistDatabase.FormatRuntimeError ("unknown line in db: " ++ named_part line).
Proof.
  intros Hsec Hbefore Hline. unfold PlaylistDatabase.playlist_metadata_load.
  now rewrite (load_lines_first_other file _ before line rest Hsec Hbefore Hline).
Qed.

Lemma playlist_metadata_load_rejects_witness :
  PlaylistDatabase.playlist_metadata_load
    ["mtime: 5"; ":mtime"; "other: 1"; "playlist_end"] [] "Favorites"
  = PlaylistDatabase.FormatRuntimeError "unknown line in db: :mtime".
Proof.
  apply (playlist_metadata_load_rejects
           ["mtime: 5"; ":mtime"; "other: 1"; "playlist_end"]
           ["mtime: 5"] ["other: 1"] ":mtime" [] "Favorites").
  - reflexivity.
  - repeat constructor.
  - reflexivity.
Defined.

(** The value of a line [mtime] is not checked: a value in which
    [strtol] finds no number is read as the time 0, which is a time
    that is set. *)
Theorem playlist_metadata_load_no_number (v : string)
    (pv : PlaylistDatabase.PlaylistVector) (n : string) :
  no_number v = true ->
  PlaylistDatabase.playlist_metadata_load ["mtime:" ++ v; "playlist_end"] pv n
  = PlaylistDatabase.Ok
      ([], PlaylistDatabase.UpdateOrInsert pv (PlaylistDatabase.mkPlaylistInfo n 0)) /\
  PlaylistDatabase.IsNegative 0 = false.
Proof.
  intros Hv. split; [| reflexivity].
  unfold PlaylistDatabase.playlist_metadata_load.
  rewrite load_lines_mtime_line. unfold mtime_of_line.
  change (CStr.drop 6 ("mtime:" ++ v)) with v.
  now rewrite (strtol_no_number v Hv).
Qed.

Lemma playlist_metadata_load_no_number_witness :
  PlaylistDatabase.playlist_metadata_load ["mtime:" ++ " yesterday"; "playlist_end"] []
    "Favorites"
  = PlaylistDatabase.Ok ([], [PlaylistDatabase.mkPlaylistInfo "Favorites" 0]).
Proof.
  apply (playlist_metadata_load_no_number " yesterday" [] "Favorites"). reflexivity.
Defined.

(** A record whose time is not set, saved and loaded under its
    name, is a record whose time is not set: the section saved has no
    line between the marker line and its end, and the load gives the
    record that is constructed from the name. *)
Theorem playlist_unset_time_roundtrip (n : string) (t : Z)
    (pv : PlaylistDatabase.PlaylistVector) :
  t < 0 ->
  let saved := PlaylistDatabase.playlist_vector_save ""
                 [PlaylistDatabase.mkPlaylistInfo n t] in
  let marker_line := PlaylistDatabase.PLAYLIST_META_BEGIN ++ n ++ PlaylistDatabase.nl in
  PlaylistDatabase.read_lines (CStr.drop (String.length marker_line) saved)
  = ["playlist_end"] /\
  PlaylistDatabase.playlist_metadata_load
    (PlaylistDatabase.read_lines (CStr.drop (String.length marker_line) saved)) pv n
  = PlaylistDatabase.Ok
      ([], PlaylistDatabase.UpdateOrInsert pv (PlaylistDatabase.new_PlaylistInfo n)) /\
  PlaylistDatabase.IsNegative
    (PlaylistDatabase.mtime (PlaylistDatabase.new_PlaylistInfo n)) = true.
Proof.
  intros Ht saved marker_line.
  assert (Hsaved : saved = marker_line ++ "playlist_end" ++ PlaylistDatabase.nl).
  { subst saved marker_line. unfold PlaylistDatabase.playlist_vector_save,
      PlaylistDatabase.save_section, PlaylistDatabase.IsNegative. simpl.
    destruct (Z.ltb_spec t 0); [| lia]. simpl.
    rewrite !append_assoc. reflexivity. }
  rewrite Hsaved, drop_append.
  split; [reflexivity |]. split; reflexivity.
Qed.

Lemma playlist_unset_time_roundtrip_witness :
  PlaylistDatabase.playlist_metadata_load
    (PlaylistDatabase.read_lines
       (CStr.drop (String.length ("playlist_begin: Favorites" ++ PlaylistDatabase.nl))
          (PlaylistDatabase.playlist_vector_save ""
             [PlaylistDatabase.mkPlaylistInfo "Favorites" (-5)]))) [] "Favorites"
  = PlaylistDatabase.Ok ([], [PlaylistDatabase.new_PlaylistInfo "Favorites"]).
Proof.
  assert (H : -5 < 0) by lia.
  exact (proj1 (proj2 (playlist_unset_time_roundtrip "Favorites" (-5) [] H))).
Defined.

(** ** The scenarios of the specification, on the sample catalog *)

Example scenario_count :
  DbUtils.countSongsIn sample_db (Some "rock") empty_world = Some (2, empty_world).
Proof. reflexivity. Qed.

Example scenario_sum_duration :
  DbUtils.sumSongTimesIn sample_db (Some "rock") empty_world = Some (180, empty_world).
Proof. reflexivity. Qed.

Example scenario_resolve :
  @DbUtils.getLocateTagItemType sample_table "artist" = 0 /\
  @DbUtils.getLocateTagItemType sample_table "FILE" = 13 /\
  @DbUtils.getLocateTagItemType sample_table "Any" = 23 /\
  @DbUtils.getLocateTagItemType sample_table "badkey" = -1.
Proof. repeat split; vm_compute; reflexivity. Qed.

Example scenario_find_exact :
  @find_matches sample_table [(0, "AC/DC")] sample_song_a = true /\
  @find_matches sample_table [(0, "AC/DC")] sample_song_b = false /\
  @find_matches sample_table [(0, "ac")] sample_song_a = false.
Proof. repeat split; vm_compute; reflexivity. Qed.

Example scenario_search_substring :
  @search_matches sample_table [(0, "ac")] sample_song_a = true /\
  @search_matches sample_table [(0, "ac")] sample_song_b = false.
Proof. repeat split; vm_compute; reflexivity. Qed.

Example scenario_print_listing :
  DbUtils.printAllIn sample_db None empty_world
  = Some (0, DbUtils.set_out
               [DbUtils.OutText "directory: rock
";
                DbUtils.OutSongUrl sample_song_a;
                DbUtils.OutSongUrl sample_song_b] empty_world).
Proof. reflexivity. Qed.

Example scenario_load_favorites :
  PlaylistDatabase.playlist_metadata_load ["mtime: 1000"; "playlist_end"] [] "Favorites"
  = PlaylistDatabase.Ok
      ([], [PlaylistDatabase.mkPlaylistInfo "Favorites" (PlaylistDatabase.from_time_t 1000)]).
Proof. reflexivity. Qed.

(** The two songs of [rock] save six bytes each and cost the three
    bytes by which a pointer of eight bytes is longer than the path and
    its end. *)
Example scenario_saved_memory :
  DbUtils.printSavedMemoryFromFilenames 8 sample_song_url sample_db empty_world
  = Some (6, empty_world).
Proof. reflexivity. Qed.
